(** * PyPortOpt: the optimizers module, embedded and checked against its specification

    The source is [PyPortOpt/Optimizers/optimizers.py].  Floating point numbers
    are modelled by the canonical rationals [Qc]: equality of two values is
    Leibniz equality, as it is for two finite floats, arithmetic is exact.
    [nan] is modelled only where the code tests for it (the missing-value
    filter of the backtest), by [None] in a cell.  A Python exception is
    modelled by [None] in the result. *)

From stdpp Require Import base numbers list option strings.
From Stdlib Require Import QArith Qcanon.

Local Open Scope Qc_scope.

(** ** numpy arrays *)

Module Np.

(** A 1-d array is a list, a 2-d array is the list of its rows. *)
Abbreviation vec := (list Qc).
Abbreviation matrix := (list (list Qc)).

Definition of_nat (n : nat) : Qc := Qc_of_Z (Z.of_nat n).

Definition zeros (n : nat) : vec := replicate n 0.
Definition ones (n : nat) : vec := replicate n 1.
Definition zeros2 (r c : nat) : matrix := replicate r (zeros c).

(** The r×c array whose entry (i, j) is [g i j]. *)
Definition tabulate (r c : nat) (g : nat → nat → Qc) : matrix :=
  (λ i, g i <$> seq 0 c) <$> seq 0 r.

(** [np.eye(r, c)] for non-negative [r], [c]. *)
Definition eye (r c : nat) : matrix :=
  tabulate r c (λ i j, if decide (i = j) then 1 else 0).

(** [np.eye(r, c)] on Python integers: negative dimensions raise. *)
Definition np_eye (r c : Z) : option matrix :=
  if decide (r < 0 ∨ c < 0)%Z then None
  else Some (eye (Z.to_nat r) (Z.to_nat c)).

(** [range(n)] on a Python integer. *)
Definition py_range (n : Z) : list nat := seq 0 (Z.to_nat n).

(** [M[i, j] = v], in place.  Every call site indexes inside the array. *)
Definition set_item (M : matrix) (i j : nat) (v : Qc) : matrix :=
  alter (<[j := v]>) i M.

Definition entry (M : matrix) (i j : nat) : Qc :=
  default 0 (M !! i ≫= (.!! j)).

Definition scale (c : Qc) (v : vec) : vec := Qcmult c <$> v.
Definition neg (v : vec) : vec := Qcopp <$> v.
Definition div (v : vec) (c : Qc) : vec := (λ x, x / c) <$> v.
Definition mscale (c : Qc) (M : matrix) : matrix := scale c <$> M.
Definition mneg (M : matrix) : matrix := neg <$> M.
Definition mdiv (M : matrix) (c : Qc) : matrix := (λ r, div r c) <$> M.
Definition madd (A B : matrix) : matrix := zip_with (zip_with Qcplus) A B.

Definition sum (v : vec) : Qc := foldr Qcplus 0 v.

(** [np.dot] of two 1-d arrays. *)
Fixpoint vdot (u v : vec) : Qc :=
  match u, v with
  | a :: u', b :: v' => a * b + vdot u' v'
  | _, _ => 0
  end.

Definition ncols (M : matrix) : nat := length (hd [] M).
Definition col (j : nat) (M : matrix) : vec := (λ r, default 0 (r !! j)) <$> M.
Definition transpose (M : matrix) : matrix := (λ j, col j M) <$> seq 0 (ncols M).

(** [np.dot(v, M)], [np.dot(M, v)] and [np.dot(A, B)]; the shapes agree at
    every call site of the module. *)
Definition vecmat (v : vec) (M : matrix) : vec :=
  (λ j, vdot v (col j M)) <$> seq 0 (ncols M).
Definition matvec (M : matrix) (v : vec) : vec := (λ r, vdot r v) <$> M.
Definition dot (A B : matrix) : matrix := (λ r, vecmat r B) <$> A.

(** [np.diag] of a 1-d array and of a 2-d array. *)
Definition diag_of (D : vec) : matrix :=
  imap (λ i x, <[i := x]> (zeros (length D))) D.
Definition diagonal (M : matrix) : vec := imap (λ i r, default 0 (r !! i)) M.

(** [np.hstack] of 2-d blocks with the same number of rows. *)
Definition hstack2 (A B : matrix) : matrix := zip_with app A B.

(** [a[idx]] with a list of positions: out of range raises. *)
Definition take_idx {A} (a : list A) (idx : list nat) : option (list A) :=
  mapM (λ i, a !! i) idx.

(** [np.mean] of a 1-d array. *)
Definition mean (v : vec) : Qc := sum v / of_nat (length v).

(** [a.all()]: every entry is non-zero. *)
Definition all (v : vec) : bool := forallb (λ x, negb (bool_decide (x = 0))) v.

Definition np_abs (x : Qc) : Qc := if decide (x < 0) then - x else x.
(** Python's [min(a, b)] and [max(a, b)]: the first argument wins a tie. *)
Definition py_min (a b : Qc) : Qc := if decide (b < a) then b else a.
Definition py_max (a b : Qc) : Qc := if decide (a < b) then b else a.
(** [min(v)] and [max(v)] of a sequence; the empty one raises. *)
Definition min_of (v : vec) : option Qc :=
  match v with [] => None | x :: v' => Some (foldl py_min x v') end.
Definition max_of (v : vec) : option Qc :=
  match v with [] => None | x :: v' => Some (foldl py_max x v') end.

End Np.
Import Np.

(** ** OrderingDifferenceBuilder: [Dmat] *)

(** The [k == 1] branch of [Dmat]: [np.eye(n - 1, n)], then
    [D[i, i + 1] = -1] for [i] in [range(n - 1)]. *)
Definition Dmat_k1 (n : Z) : option matrix :=
  D ← np_eye (n - 1) n;
  Some (foldl (λ D i, set_item D i (i + 1) (-1)) D (py_range (n - 1))).

(** [Dmat(n, k)].  The two recursive calls of the source are calls with
    [k = 1], so they are calls of the branch above. *)
Definition Dmat (n k : Z) : option matrix :=
  if decide (k = 0)%Z then np_eye n n
  else if decide (k = 1)%Z then Dmat_k1 n
  else
    D ← Dmat_k1 n;
    foldl (λ acc i, D ← acc; Dn ← Dmat_k1 (n - Z.of_nat i - 1); Some (dot Dn D))
          (Some D) (py_range (k - 1)).

(** What the specification says of [Dmat], in its own words. *)
Module DmatSpec.

(** The n×n identity. *)
Definition identity (n : nat) : matrix :=
  tabulate n n (λ i j, if decide (j = i) then 1 else 0).

(** The (n−1)×n first-difference operator: row i has +1 at column i and
    −1 at column i+1. *)
Definition first_difference (n : nat) : matrix :=
  tabulate (n - 1) n
    (λ i j, if decide (j = i) then 1 else if decide (j = S i) then -1 else 0).

(** [j] first-difference operators of successively smaller dimension,
    composed on the left of the first-difference operator of dimension n. *)
Fixpoint left_compose (n j : nat) : matrix :=
  match j with
  | O => first_difference n
  | S j' => dot (first_difference (n - S j')) (left_compose n j')
  end.

(** The finite difference of a sequence: [x0 − x1, x1 − x2, ...]. *)
Definition diff (x : vec) : vec := zip_with Qcminus x (drop 1 x).

Definition has_shape (M : matrix) (r c : nat) : Prop :=
  length M = r ∧ Forall (λ row, length row = c) M.

End DmatSpec.

(** ** CovarianceConditioner: [SymPDcovmatrix] and [sigMatShrinkage] *)

Definition default_tol : Qc := Q2Qc (1 # 10000).

Definition is_square (A : matrix) : bool :=
  bool_decide (Forall (λ row : vec, length row = length A) A).

(** [(A + A.transpose()) / 2] *)
Definition symmetrize (A : matrix) : matrix := mdiv (madd A (transpose A)) 2.

(** [for i in range(len(D)): if D[i] < tol: D[i] = tol] *)
Definition floor_eigenvalues (tol : Qc) (D : vec) : vec :=
  foldl (λ D i, match D !! i with
                | Some x => if decide (x < tol) then <[i := tol]> D else D
                | None => D
                end) D (seq 0 (length D)).

(** [if not tol: tol = 1e-04]: [None] and 0 both give the default. *)
Definition effective_tol (tol : option Qc) : Qc :=
  match tol with
  | Some t => if decide (t = 0) then default_tol else t
  | None => default_tol
  end.

Section Conditioner.

(** [numpy.linalg.eig]: the eigenvalues, and the array whose columns are
    eigenvectors.  It is a numerical routine outside of the module. *)
Variable eig : matrix → vec * matrix.
(** [np.sqrt] *)
Variable np_sqrt : Qc → Qc.

(** [SymPDcovmatrix(A, tol=None)].  A non-square [A] is reported by a
    message and the function goes on; what numpy makes of it afterwards is
    not modelled, the result is [None].  [min] of no eigenvalue raises. *)
Definition SymPDcovmatrix (A : matrix) (tol : option Qc) : option (matrix * Qc) :=
  if negb (is_square A) then None
  else
    let tol := effective_tol tol in
    let A := symmetrize A in
    let '(D, V) := eig A in
    let D := floor_eigenvalues tol D in
    let D := diag_of D in
    let t := dot V D in
    let A := dot t (transpose V) in
    m ← min_of (diagonal D);
    let e_min := py_max tol m in
    let A := symmetrize A in
    Some (A, e_min).

(** [sigMatShrinkage(sigMat, lambda_l2)].  [corrMat] and [corrs] are used
    only under the [else] of [if 1 == 1] and are left out. *)
Definition sigMatShrinkage (sigMat : matrix) (lambda_l2 : Qc) : matrix :=
  let d := length sigMat in
  let sig := np_sqrt <$> diagonal sigMat in
  madd sigMat (mscale (lambda_l2 * mean ((λ s, s * s) <$> sig)) (eye d d)).

End Conditioner.

(** ** QPFormulator and PortfolioOptimizer *)

(** An entry of a bound vector: [-np.inf] or a number. *)
Inductive bound := NegInf | Fin (x : Qc).

(** The arguments of [prob.setup(P, q, A, l, u)]: minimise ½xᵀPx + qᵀx
    subject to l ≤ Ax ≤ u. *)
Record QP := mkQP {
  qp_P : matrix;
  qp_q : vec;
  qp_A : matrix;
  qp_l : list bound;
  qp_u : list bound
}.

#[global] Instance bound_eq_dec : EqDecision bound.
Proof. solve_decision. Defined.
#[global] Instance QP_eq_dec : EqDecision QP.
Proof. solve_decision. Defined.

(** [if assetsOrder:] holds for a list that is not empty. *)
Definition order_given (assetsOrder : option (list nat)) : option (list nat) :=
  match assetsOrder with
  | Some (i :: o) => Some (i :: o)
  | _ => None
  end.

(** [temp = sigMat[:, assetsOrder]; sigMat = temp[assetsOrder, :]] *)
Definition reorder (sigMat : matrix) (assetsOrder : list nat) : option matrix :=
  temp ← mapM (λ row : vec, take_idx row assetsOrder) sigMat;
  take_idx temp assetsOrder.

(** [np.ones(d) / d] *)
Definition equal_weights (d : nat) : vec := div (ones d) (of_nat d).

Definition c100 : Qc := Qc_of_Z 100.
Definition c01 : Qc := Q2Qc (1 # 10).

(** The problem of the branch [longShort == 0] of [minimumVariancePortfolio]. *)
Definition minvar_long_only (d : nat) (sigMat : matrix)
    (maxAlloc lambda_l1 : Qc) (ordered : bool) : option QP :=
  let Aeq := ones d in
  let Beq := 1 in
  let LB := zeros d in
  let UB := scale maxAlloc (ones d) in
  '(A, l, u) ←
    (if ordered then
       let L_ine := neg (ones (d - 1)) in
       D ← Dmat_k1 (Z.of_nat d);
       let A := mscale (-1) D in
       let B := zeros (d - 1) in
       Some (A ++ [Aeq] ++ eye d d, L_ine ++ [Beq] ++ LB, B ++ [Beq] ++ UB)
     else Some ([Aeq] ++ eye d d, [Beq] ++ LB, [Beq] ++ UB));
  let meanVec :=
    if decide (lambda_l1 = 0) then neg (zeros d)
    else scale (- lambda_l1) (ones d) in
  Some (mkQP sigMat (neg meanVec) A (Fin <$> l) (Fin <$> u)).

(** The blocks shared by the two long-short problems: the equality block,
    the box, the objective on (w, u, v). *)
Definition long_short_Aeq (d : nat) : matrix :=
  hstack2 (hstack2 (eye d d) (mneg (eye d d))) (eye d d)
  ++ [ones d ++ zeros d ++ zeros d].
Definition long_short_P (d : nat) (sigMat : matrix) (e_min : Qc) : matrix :=
  let sigMat3d := hstack2 sigMat (zeros2 d (2 * d)) ++ zeros2 (2 * d) (3 * d) in
  madd sigMat3d
       (diag_of (scale (- c01 * e_min) (ones d) ++ scale (c01 * e_min) (ones (2 * d)))).
Definition long_short_meanvec3d (d : nat) (lambda_l1 : Qc) : vec :=
  if decide (lambda_l1 = 0) then zeros d ++ zeros (2 * d)
  else zeros d ++ scale (- lambda_l1) (ones (2 * d)).

(** The problem of the branch [longShort != 0] of [minimumVariancePortfolio]. *)
Definition minvar_long_short (d : nat) (sigMat : matrix) (e_min : Qc)
    (longShort maxAlloc lambda_l1 : Qc) (ordered : bool) : option QP :=
  let A := [zeros d ++ ones d ++ zeros d] in
  let B := [1 + np_abs longShort] in
  let Grenze := py_min (np_abs longShort) maxAlloc in
  '(A, B, L_ine) ←
    (if ordered then
       let L_ine := 0 :: scale (- (1 + 2 * Grenze)) (ones (d - 1)) in
       D ← Dmat_k1 (Z.of_nat d);
       let A := A ++ hstack2 (mscale (-1) D) (zeros2 (d - 1) (2 * d)) in
       let B := B ++ zeros (d - 1) in
       Some (A, B, L_ine)
     else Some (A, B, [0]));
  let Aeq := long_short_Aeq d in
  let Beq := zeros d ++ [1] in
  let LB := scale (- Grenze) (ones d) ++ zeros (2 * d) in
  let UB := scale maxAlloc (ones (3 * d)) in
  let sigMat3d := long_short_P d sigMat e_min in
  let meanvec3d := long_short_meanvec3d d lambda_l1 in
  let A := A ++ Aeq ++ eye (3 * d) (3 * d) in
  let l := L_ine ++ Beq ++ LB in
  let u := B ++ Beq ++ UB in
  Some (mkQP sigMat3d (neg meanvec3d) A (Fin <$> l) (Fin <$> u)).

(** [min(meanVec)], [max(meanVec)] and the clamp of the daily target. *)
Definition clamp_target (minEret maxEret dailyRetTarget : Qc) : Qc :=
  if decide (dailyRetTarget < minEret ∨ maxEret < dailyRetTarget) then
    let part1 := minEret in
    let part2 := py_min maxEret dailyRetTarget in
    py_max part1 part2
  else dailyRetTarget.

(** The problem of the branch [longShort == 0] of
    [meanVariancePortfolioReturnsTarget]. *)
Definition meanvar_long_only (d : nat) (meanVec : vec) (sigMat : matrix)
    (dailyRetTarget maxAlloc lambda_l1 : Qc) (ordered : bool) : option QP :=
  let Aeq := ones d in
  let Beq := 1 in
  let LB := zeros d in
  let UB := scale maxAlloc (ones d) in
  let tau := dailyRetTarget in
  '(A, B, L_ine) ←
    (if ordered then
       let L_ine := NegInf :: (Fin <$> neg (ones (d - 1))) in
       D ← Dmat (Z.of_nat d) 1;
       let A := [neg meanVec] ++ mscale (-1) D in
       let B := - tau :: zeros (d - 1) in
       Some (A, B, L_ine)
     else Some ([neg meanVec], [- tau], [NegInf]));
  let meanVec :=
    if decide (lambda_l1 = 0) then neg (zeros d)
    else scale (- lambda_l1) meanVec in
  let A := A ++ [Aeq] ++ eye d d in
  let l := L_ine ++ (Fin <$> Beq :: LB) in
  let u := Fin <$> B ++ [Beq] ++ UB in
  Some (mkQP sigMat (neg meanVec) A l u).

(** The problem of the branch [longShort != 0] of
    [meanVariancePortfolioReturnsTarget]. *)
Definition meanvar_long_short (d : nat) (meanVec : vec) (sigMat : matrix)
    (e_min dailyRetTarget longShort maxAlloc lambda_l1 : Qc) (ordered : bool)
    : option QP :=
  let A := [zeros d ++ ones d ++ zeros d] in
  let B := [1 + np_abs longShort] in
  let Grenze := py_min (np_abs longShort) maxAlloc in
  let tau := dailyRetTarget in
  '(A, B, L_ine) ←
    (if ordered then
       let A := A ++ [neg meanVec ++ zeros (2 * d)] in
       let B := B ++ [- tau] in
       D ← Dmat (Z.of_nat d) 1;
       let A := A ++ hstack2 (mscale (-1) D) (zeros2 (d - 1) (2 * d)) in
       let B := B ++ zeros (d - 1) in
       let L_ine := Fin 0 :: NegInf
                    :: (Fin <$> scale (- (1 + 2 * Grenze)) (ones (d - 1))) in
       Some (A, B, L_ine)
     else
       let A := A ++ [neg meanVec ++ zeros (2 * d)] in
       let B := B ++ [- tau] in
       Some (A, B, [Fin 0; NegInf]));
  let Aeq := long_short_Aeq d in
  let Beq := zeros d ++ [1] in
  let LB := scale (- Grenze) (ones d) ++ zeros (2 * d) in
  let UB := scale maxAlloc (ones (3 * d)) in
  let sigMat3d := long_short_P d sigMat e_min in
  let meanvec3d := long_short_meanvec3d d lambda_l1 in
  let A := A ++ Aeq ++ eye (3 * d) (3 * d) in
  let l := L_ine ++ (Fin <$> Beq ++ LB) in
  let u := Fin <$> B ++ Beq ++ UB in
  Some (mkQP sigMat3d (neg meanvec3d) A l u).

Section Optimizers.

Variable eig : matrix → vec * matrix.
Variable np_sqrt : Qc → Qc.
(** The solver: [prob.setup(P, q, A, l, u)], [prob.solve()], [res.x], for
    a solve that ends with numbers in [res.x]. *)
Variable solve : QP → vec.
(** [x ** (1 / 250)] *)
Variable root250 : Qc → Qc.

(** [if lambda_l2: ... else: ...], both arms end in [SymPDcovmatrix(sigMat)]. *)
Definition condition (sigMat : matrix) (lambda_l2 : Qc) : option (matrix * Qc) :=
  if decide (lambda_l2 = 0) then SymPDcovmatrix eig sigMat None
  else SymPDcovmatrix eig (sigMatShrinkage np_sqrt sigMat lambda_l2) None.

(** The weights taken from the solution [x] of the solver: [x] itself
    (long only) or its first [d] entries (long-short), unless
    [not x.all()]. *)
Definition weights_of_solution (d : nat) (longShort : Qc) (x : vec) : vec :=
  if decide (longShort = 0) then
    if negb (all x) then equal_weights d else x
  else
    if negb (all x) then equal_weights d else take d x.

(** [w_opt] and [Var_opt] from the solution; [w_opt[assetsOrder]] at the end. *)
Definition finish (d : nat) (sigMat : matrix) (longShort : Qc)
    (order : option (list nat)) (x : vec) : option (vec * Qc) :=
  let w_opt := weights_of_solution d longShort x in
  let t := vecmat w_opt sigMat in
  let Var_opt := vdot t w_opt in
  w_opt ← match order with
          | Some o => take_idx w_opt o
          | None => Some w_opt
          end;
  Some (w_opt, Var_opt).

(** [minimumVariancePortfolio(sigMat, longShort, maxAlloc=1, lambda_l1=0,
    lambda_l2=0, assetsOrder=None)].  An order whose length is not [d]
    leaves arrays of different widths, which numpy and the solver refuse. *)
Definition minimumVariancePortfolio (sigMat : matrix)
    (longShort maxAlloc lambda_l1 lambda_l2 : Qc)
    (assetsOrder : option (list nat)) : option (vec * Qc) :=
  let d := length sigMat in
  let order := order_given assetsOrder in
  sigMat ← match order with
           | Some o => reorder sigMat o
           | None => Some sigMat
           end;
  guard (length sigMat = d);;
  '(sigMat, e_min) ← condition sigMat lambda_l2;
  qp ← (if decide (longShort = 0)
        then minvar_long_only d sigMat maxAlloc lambda_l1
                              (bool_decide (is_Some order))
        else minvar_long_short d sigMat e_min longShort maxAlloc lambda_l1
                               (bool_decide (is_Some order)));
  finish d sigMat longShort order (solve qp).

(** [100 * ((retTarget / 100 + 1) ** (1 / 250) - 1)] *)
Definition daily_target (retTarget : Qc) : Qc :=
  c100 * (root250 (retTarget / c100 + 1) - 1).

(** [meanVariancePortfolioReturnsTarget(meanVec, sigMat, retTarget,
    longShort, maxAlloc=1, lambda_l1=0, lambda_l2=0, assetsOrder=None)] *)
Definition meanVariancePortfolioReturnsTarget (meanVec : vec) (sigMat : matrix)
    (retTarget longShort maxAlloc lambda_l1 lambda_l2 : Qc)
    (assetsOrder : option (list nat)) : option (vec * Qc) :=
  let dailyRetTarget := daily_target retTarget in
  minEret ← min_of meanVec;
  maxEret ← max_of meanVec;
  let dailyRetTarget := clamp_target minEret maxEret dailyRetTarget in
  let d := length sigMat in
  let order := order_given assetsOrder in
  '(sigMat, meanVec) ← match order with
                       | Some o =>
                           sigMat ← reorder sigMat o;
                           meanVec ← take_idx meanVec o;
                           Some (sigMat, meanVec)
                       | None => Some (sigMat, meanVec)
                       end;
  guard (length sigMat = d ∧ length meanVec = d);;
  '(sigMat, e_min) ← condition sigMat lambda_l2;
  qp ← (if decide (longShort = 0)
        then meanvar_long_only d meanVec sigMat dailyRetTarget maxAlloc
                               lambda_l1 (bool_decide (is_Some order))
        else meanvar_long_short d meanVec sigMat e_min dailyRetTarget
                                longShort maxAlloc lambda_l1
                                (bool_decide (is_Some order)));
  finish d sigMat longShort order (solve qp).

End Optimizers.

(** ** BacktestEngine: [check_missing] and [rollingwindow_backtest] *)

(** A cell of a data frame: a number, or [nan] ([None]). *)
Abbreviation cell := (option Qc).

(** The pivoted price table [df1]: one row per date, one column per ticker. *)
Record frame := mkFrame {
  index : list string;
  columns : list string;
  values : list (list cell)
}.

(** The entries of [R] after [np.hstack([None, ...])] may hold Python's [None]. *)
Inductive r_item := RNone | RVal (x : Qc).

(** [w_all]: [None], then the first weight vector, then the stack of rows. *)
Inductive w_all_t := WNone | W1d (w : vec) | W2d (rows : matrix).

(** [range(start, stop, step)] for non-negative arguments; step 0 raises. *)
Definition py_range3 (start stop step : nat) : option (list nat) :=
  if decide (step = 0)%nat then None
  else Some ((λ j, start + j * step)%nat
               <$> seq 0 ((stop - start + step - 1) / step)).

(** [check_missing(df_logret)]: per column (a row after the transposition)
    the flag is 1 when no cell is null; the flags are stored as a column
    [missing_flag], the rows with flag 1 are kept, and the frame is
    transposed back, so [missing_flag] comes back as a last row. *)
Definition select {T} (keep : list bool) (l : list T) : list T :=
  (filter (λ p, p.2 = true) (zip l keep)).*1.

Definition check_missing (cols : list string) (rows : list (list cell))
    : list string * list (list cell) :=
  let flag := (λ j, forallb (λ row : list cell, bool_decide (is_Some (mjoin (row !! j)))) rows)
                <$> seq 0 (length cols) in
  let kept := select flag cols in
  (kept, (select flag <$> rows) ++ [(λ _, Some 1) <$> kept]).

(** [np.array] of a frame without nan. *)
Definition to_array (rows : list (list cell)) : matrix :=
  (λ row : list cell, default 0 <$> row) <$> rows.

(** [np.mean(a, axis=0)] and [np.cov(a, rowvar=False)] for an array of [c]
    columns.  (With one row numpy divides by zero and returns nan where the
    rationals give 0; with one column it returns a 0-d array.) *)
Definition mean_cols (a : matrix) (c : nat) : vec := (λ j, mean (col j a)) <$> seq 0 c.
Definition cov (a : matrix) (c : nat) : matrix :=
  let centred j := (λ x, x - mean (col j a)) <$> col j a in
  tabulate c c (λ j k, vdot (centred j) (centred k) / (of_nat (length a) - 1)).

(** [100 * (np.log(df1) - np.log(df1.shift(1)))], first row dropped. *)
Definition log_returns (ln : Qc → Qc) (prices : list (list cell)) : list (list cell) :=
  zip_with (zip_with (λ before now : cell,
                        p ← now; q ← before; Some (c100 * (ln p - ln q))))
           prices (drop 1 prices).

(** [preprocessData(data)], from the pivoted price table on:
    [np.mean(logret, axis=0)] and [np.cov(logret, rowvar=False)] of the
    log-returns of a table of [c] columns. *)
Definition logret_moments (logret : matrix) (c : nat) : vec * matrix :=
  (mean_cols logret c, cov logret c).
Definition preprocessData (ln : Qc → Qc) (prices : list (list cell)) (c : nat)
    : vec * matrix :=
  logret_moments (to_array (log_returns ln prices)) c.

(** The array [logret_window] of round [i]:
    [check_missing(df_logret[i - window_size : i] / 100)], then
    [np.array(window.iloc[: n - 1])]; with it the tickers of the window. *)
Definition logret_window (cols : list string) (df_logret : list (list cell))
    (window_size i : nat) : list string * matrix :=
  let n := length df_logret in
  let slice := take window_size (drop (i - window_size) df_logret) in
  let window := check_missing cols
                  ((λ row : list cell,
                      (λ c : cell, (λ x, x / c100) <$> c) <$> row) <$> slice) in
  (window.1, to_array (take (n - 1) window.2)).

(** [sample_stocks], and the [sigMat] and [meanVec] of round [i]:
    [np.cov(logret_window, rowvar=False)] and
    [np.mean(logret_window, axis=0) / 100]. *)
Definition window_moments (cols : list string) (df_logret : list (list cell))
    (window_size i : nat) : list string * matrix * vec :=
  let '(sample_stocks, window) := logret_window cols df_logret window_size i in
  let sigMat := cov window (length sample_stocks) in
  let meanVec := div (mean_cols window (length sample_stocks)) c100 in
  (sample_stocks, sigMat, meanVec).

(** [for j in range(df1.shape[1]): if df1.columns[j] in sample_stocks:
    w_opt[j] = w_sample[k]; k += 1].  [w_sample] is [None] when no branch
    has bound it. *)
Definition scatter (cols sample_stocks : list string) (w_sample : option vec)
    : option vec :=
  fst <$> foldl (λ acc j,
                   '(w_opt, k) ← acc;
                   c ← cols !! j;
                   if decide (c ∈ sample_stocks) then
                     ws ← w_sample; x ← ws !! k; Some (<[j := x]> w_opt, S k)
                   else Some (w_opt, k))
                (Some (zeros (length cols), O)) (seq 0 (length cols)).

Section Backtest.

Variable eig : matrix → vec * matrix.
Variable np_sqrt : Qc → Qc.
Variable solve : QP → vec.
Variable root250 : Qc → Qc.
(** [np.log] and [math.exp(1) ** x] *)
Variable ln : Qc → Qc.
Variable exp : Qc → Qc.

(** The [if]/[elif] chain on [optimizerName], with the arguments in the
    order of the source.  The result is [w_sample], [None] inside when no
    branch binds it.  The module [test] of the last branch is not part of
    the repository; its call is taken to return. *)
Definition call_optimizer (optimizerName : string) (meanVec : vec)
    (sigMat : matrix) (maxAlloc retTarget longShort lambda_l1 lambda_l2 : Qc)
    : option (option vec) :=
  if decide (optimizerName = "minimumVariancePortfolio") then
    r ← minimumVariancePortfolio eig np_sqrt solve
           sigMat maxAlloc longShort lambda_l1 lambda_l2 None;
    Some (Some r.1)
  else if decide (optimizerName = "meanVariancePortfolioReturnsTarget") then
    r ← meanVariancePortfolioReturnsTarget eig np_sqrt solve root250
           meanVec sigMat retTarget maxAlloc longShort lambda_l1 lambda_l2 None;
    Some (Some r.1)
  else Some None.

(** [np.dot(w_opt, simple_returns.transpose())] with
    [simple_returns = 100 * (e ** (nan_to_num(rows) / 100) - 1)]. *)
Definition realized (w_opt : vec) (rows : list (list cell)) : vec :=
  (λ row : list cell,
     vdot w_opt ((λ x : cell, c100 * (exp (default 0 x / c100) - 1)) <$> row))
    <$> rows.

(** [np.hstack([R, r])] *)
Definition hstack_R (R : option (list r_item)) (r : vec) : list r_item :=
  default [RNone] R ++ (RVal <$> r).

(** One round of the loop, at index [i]. *)
Definition backtest_round (df1 : frame) (df_logret : list (list cell))
    (optimizerName : string) (window_size d : nat)
    (maxAlloc retTarget longShort lambda_l1 lambda_l2 : Qc)
    (st : option (list r_item) * w_all_t) (i : nat)
    : option (option (list r_item) * w_all_t) :=
  let '(R, w_all) := st in
  let n := length df_logret in
  let '(sample_stocks, sigMat, meanVec) :=
    window_moments (columns df1) df_logret window_size i in
  w_sample ← call_optimizer optimizerName meanVec sigMat
                              maxAlloc retTarget longShort lambda_l1 lambda_l2;
  w_opt ← scatter (columns df1) sample_stocks w_sample;
  let w_all := match w_all with
               | WNone => W1d w_opt
               | W1d w => W2d [w; w_opt]
               | W2d rows => W2d (rows ++ [w_opt])
               end in
  let R :=
    if decide (i + d < n)%nat then
      match R with
      | None => RVal <$> realized w_opt (take d (drop i df_logret))
      | Some _ => hstack_R R (realized w_opt (take d (drop i df_logret)))
      end
    else hstack_R R (realized w_opt (drop i df_logret)) in
  Some (Some R, w_all).

(** [rollingwindow_backtest], from the pivoted table [df1] on.  The
    arguments [riskAversion], [meanQuantile] and [assetsOrder] are not
    used by the source. *)
Definition rollingwindow_backtest (optimizerName : string) (df1 : frame)
    (window_size rebalance_time : nat)
    (maxAlloc retTarget longShort lambda_l1 lambda_l2 : Qc)
    : option (option (list r_item) * list (list cell) * w_all_t * list string) :=
  let df_logret := log_returns ln (values df1) in
  let n := length df_logret in
  let d := rebalance_time in
  let start := window_size in
  idx ← py_range3 start n d;
  '(R, w_all) ← foldl (λ acc i,
                         st ← acc;
                         backtest_round df1 df_logret optimizerName window_size d
                           maxAlloc retTarget longShort lambda_l1 lambda_l2 st i)
                      (Some (None, WNone)) idx;
  let rownames := drop (start + 1) (index df1) in
  Some (R, df_logret, w_all, rownames).

End Backtest.

(** ** Statements about the constraint rows of the long-short problems *)

(** A row of a long-short constraint matrix that bounds 1ᵀ(u+v): no weight
    on the block w, one and the same non-zero weight on all of u and v. *)
Definition bounds_u_plus_v (d : nat) (row : vec) : Prop :=
  ∃ c : Qc, c ≠ 0 ∧ row = zeros d ++ replicate d c ++ replicate d c.

(** What holds of the first row of a long-short problem. *)
Definition first_row_bounds_u (d : nat) (longShort : Qc) (qp : QP) : Prop :=
  qp_A qp !! O = Some (zeros d ++ ones d ++ zeros d)
  ∧ qp_l qp !! O = Some (Fin 0)
  ∧ qp_u qp !! O = Some (Fin (1 + np_abs longShort))
  ∧ ∀ w u v, length w = d → length u = d →
      vdot (zeros d ++ ones d ++ zeros d) (w ++ u ++ v) = sum u.

(** ** Statements about the weights taken from a solution *)

(** The weights [w] taken from the solution [x] of the solver: the equal
    weights when [x] has a zero entry, the solution (its w-block when
    [longShort] is not zero) when it has none. *)
Definition uses_solution (d : nat) (longShort : Qc) (x w : vec) : Prop :=
  (0 ∈ x → w = equal_weights d)
  ∧ (0 ∉ x → w = if decide (longShort = 0) then x else take d x).


(** ** Statements about the backtest *)

(** The number of rows of [w_all]. *)
Definition w_rows (w_all : w_all_t) : nat :=
  match w_all with
  | WNone => 0
  | W1d _ => 1
  | W2d rows => length rows
  end.

(** The per-asset average of the log-returns of the trailing window, over
    the assets with no missing observation in it. *)
Definition trailing_window (df_logret : list (list cell)) (window_size i : nat)
    : list (list cell) :=
  take window_size (drop (i - window_size) df_logret).
Definition complete (rows : list (list cell)) (j : nat) : bool :=
  forallb (λ row : list cell, bool_decide (is_Some (mjoin (row !! j)))) rows.
Definition window_means (ncols : nat) (df_logret : list (list cell))
    (window_size i : nat) : vec :=
  let rows := trailing_window df_logret window_size i in
  (λ j, mean ((λ row : list cell, default 0 (mjoin (row !! j))) <$> rows))
    <$> filter (λ j, complete rows j = true) (seq 0 ncols).

(** The state of the loop of [scatter] after the columns before [t]. *)
Definition scatter_state (cols ss : list string) (w_sample : option vec)
    (t : nat) (st : vec * nat) : Prop :=
  let k t := length (filter (.∈ ss) (take t cols)) in
  st.2 = k t
  ∧ length st.1 = length cols
  ∧ (∀ j, (t ≤ j < length cols)%nat → st.1 !! j = Some 0)
  ∧ (∀ j c, (j < t)%nat → cols !! j = Some c →
       st.1 !! j = if decide (c ∈ ss)
                   then w_sample ≫= (λ ws, ws !! k j) else Some 0)
  ∧ (∀ ws, w_sample = Some ws → sum st.1 = sum (take (k t) ws)).

(** ** Statements about the target handed to the solver *)

(** The problem [qp] asks for a mean return of at least [tau]: one of its
    rows carries [-meanVec] on the block of the weights and 0 elsewhere,
    with no lower bound and the upper bound [-tau]. *)
Definition return_row_bounds (d : nat) (meanVec : vec) (tau : Qc) (qp : QP)
    : Prop :=
  ∃ i row, qp_A qp !! i = Some row
           ∧ take d row = neg meanVec
           ∧ Forall (λ x, x = 0) (drop d row)
           ∧ qp_l qp !! i = Some NegInf
           ∧ qp_u qp !! i = Some (Fin (- tau)).

(** ** Statements about the problems handed to the solver *)

(** [lo ≤ y ≤ up] for the value [y] of a constraint row. *)
Definition within (lo : bound) (y : Qc) (up : bound) : Prop :=
  match lo with NegInf => True | Fin a => a ≤ y end
  ∧ match up with NegInf => False | Fin b => y ≤ b end.

(** l ≤ Ax ≤ u, row by row. *)
Definition rows_within (A : matrix) (l u : list bound) (x : vec) : Prop :=
  ∀ i row lo up,
    A !! i = Some row → l !! i = Some lo → u !! i = Some up →
    within lo (vdot row x) up.

(** [x] is a feasible point of the problem. *)
Definition feasible (qp : QP) (x : vec) : Prop :=
  length x = length (qp_q qp) ∧ rows_within (qp_A qp) (qp_l qp) (qp_u qp) x.

(** The arrays of a problem of [n] variables and [m] constraints fit
    together: P is n×n, q has n entries, A is m×n, l and u have m entries. *)
Definition well_shaped (qp : QP) (n m : nat) : Prop :=
  DmatSpec.has_shape (qp_P qp) n n
  ∧ length (qp_q qp) = n
  ∧ DmatSpec.has_shape (qp_A qp) m n
  ∧ length (qp_l qp) = m
  ∧ length (qp_u qp) = m.

(** ** Stand-ins for the numerical routines, used to run the model *)

(** The eigen-decomposition of a diagonal matrix: its diagonal, and the
    identity as the array of eigenvectors. *)
Definition eig_diagonal (A : matrix) : vec * matrix :=
  (diagonal A, eye (length A) (length A)).

(** A solver that returns the same value [1/n] in each of the [n] variables. *)
Definition solve_uniform (qp : QP) : vec := equal_weights (length (qp_q qp)).

(** A solver that returns a given solution. *)
Definition solve_const (x : vec) (qp : QP) : vec := x.

(** The 250th root, exact at 1 and at 2^250. *)
Definition root250_at_1_and_2pow250 (x : Qc) : Qc :=
  if decide (x = 1) then 1 else 2.

(** The square root, exact at 1, 4 and 9. *)
Definition sqrt_of_1_4_9 (x : Qc) : Qc :=
  if decide (x = 1) then 1 else if decide (x = Qc_of_Z 4) then 2 else 1 + 2.

(** A solver for two assets, long only, with the identity as covariance:
    the minimizer of x₁² + x₂² under x₁ + x₂ = 1 and m · x ≥ tau, read off
    the return row (−m₁, −m₂) and its upper bound −tau, for m₁ < m₂. *)
Definition solve_two_assets (qp : QP) : vec :=
  match qp_A qp, qp_u qp with
  | [a1; a2] :: _, Fin b :: _ =>
      let s := py_max (1 / 2) ((a1 - b) / (a1 - a2)) in
      [1 - s; s]
  | _, _ => []
  end.


(** ** Sample inputs *)

Definition sample_diag149 : matrix :=
  [[1; 0; 0]; [0; Qc_of_Z 4; 0]; [0; 0; Qc_of_Z 9]].

Definition sample_I2 : matrix := [[1; 0]; [0; 1]].
(** A target of 100·(2^250 − 1) percent: its daily value is 100 percent. *)
Definition sample_high_target : Qc := Qc_of_Z (100 * (2 ^ 250 - 1)).
(** Four rows of log-returns in percent, of two assets, none missing. *)
Definition sample_logret : list (list cell) :=
  (λ row : list Z, (λ x, Some (Qc_of_Z x)) <$> row)
    <$> [[100; 200]; [300; 400]; [500; 600]; [700; 800]]%Z.
Definition sample_tickers : list string := ["A"; "B"].
(** Five days of prices of two assets, all equal to 1: their logarithms are
    0, and the exponentials of their log-returns are 1. *)
Definition sample_prices : frame :=
  mkFrame ["d0"; "d1"; "d2"; "d3"; "d4"] sample_tickers
          (replicate 5 [Some 1; Some 1]).
Definition ln_at_1 (x : Qc) : Qc := 0.
Definition exp_at_0 (x : Qc) : Qc := 1.

(** * Properties *)

(** ** Arrays *)

Section ArrayFacts.
Implicit Types (u v x : vec) (M A B : matrix).

Lemma vdot_nil_r u : vdot u [] = 0.
Proof. by destruct u. Qed.

Lemma length_tabulate r c g : length (tabulate r c g) = r.
Proof. unfold tabulate. by rewrite length_fmap, length_seq. Qed.

Lemma tabulate_row_lengths r c g :
  Forall (λ row, length row = c) (tabulate r c g).
Proof.
  unfold tabulate. apply Forall_fmap, Forall_forall. intros i _. simpl.
  by rewrite length_fmap, length_seq.
Qed.

Lemma tabulate_ext r c g g' :
  (∀ i j, (i < r)%nat → (j < c)%nat → g i j = g' i j) →
  tabulate r c g = tabulate r c g'.
Proof.
  intros H. unfold tabulate. apply list_fmap_ext. intros ? i Hi.
  apply lookup_seq in Hi as [-> Hi].
  apply list_fmap_ext. intros ? j Hj. apply lookup_seq in Hj as [-> Hj].
  by apply H.
Qed.

Lemma lookup_tabulate r c g i :
  (i < r)%nat → tabulate r c g !! i = Some (g i <$> seq 0 c).
Proof.
  intros Hi. unfold tabulate. by rewrite list_lookup_fmap, lookup_seq_lt.
Qed.

Lemma entry_tabulate r c g i j :
  (i < r)%nat → (j < c)%nat → entry (tabulate r c g) i j = g i j.
Proof.
  intros Hi Hj. unfold entry. rewrite lookup_tabulate by done. simpl.
  by rewrite list_lookup_fmap, lookup_seq_lt.
Qed.

(** An assignment [M[i, j] = v] on a tabulated array. *)
Lemma set_item_tabulate r c g i j (v : Qc) :
  set_item (tabulate r c g) i j v
  = tabulate r c (λ i' j', if decide (i' = i ∧ j' = j) then v else g i' j').
Proof.
  unfold set_item. apply list_eq. intros i'.
  rewrite list_lookup_alter.
  destruct (decide (i' < r)%nat) as [Hi'|Hi'].
  2:{ assert (∀ h, tabulate r c h !! i' = None) as Hnone.
      { intros h. apply lookup_ge_None_2. rewrite length_tabulate. lia. }
      rewrite Hnone. destruct (decide (i = i')) as [->|]; [|done].
      by rewrite Hnone. }
  destruct (decide (i = i')) as [->|Hne].
  - rewrite !lookup_tabulate by done. simpl. f_equal.
    apply list_eq. intros j'. rewrite list_lookup_insert.
    rewrite length_fmap, length_seq, !list_lookup_fmap.
    destruct (decide (j' < c)%nat) as [Hj'|Hj'].
    + rewrite !lookup_seq_lt by done. simpl.
      destruct (decide (j = j' ∧ (j < c)%nat)) as [[-> _]|Hn].
      * by rewrite decide_True.
      * rewrite decide_False; [done|]. intros [_ ->]. apply Hn. done.
    + rewrite !lookup_seq_ge by lia. simpl.
      rewrite decide_False; [done|]. intros [-> ?]. lia.
  - rewrite !lookup_tabulate by done. f_equal.
    apply list_fmap_ext. intros ? j' _.
    rewrite decide_False; [done|]. intros [-> _]. done.
Qed.

Lemma vdot_zeros_l n x : vdot (zeros n) x = 0.
Proof.
  revert x. induction n as [|n IH]; intros [|b x]; csimpl; try done.
  unfold zeros in IH. rewrite IH. ring.
Qed.

Lemma vdot_fmap_const_0 {T} (l : list T) x : vdot ((λ _, 0) <$> l) x = 0.
Proof.
  revert x. induction l as [|t l IH]; intros [|b x]; csimpl; try done.
  rewrite IH. ring.
Qed.

(** [vdot] is linear in its first argument. *)
Lemma vdot_fmap_linear {T} (a : Qc) (f g : T → Qc) (l : list T) x :
  vdot ((λ j, a * f j + g j) <$> l) x
  = a * vdot (f <$> l) x + vdot (g <$> l) x.
Proof.
  revert x. induction l as [|t l IH]; intros [|b x]; csimpl; try ring.
  rewrite IH. ring.
Qed.

Lemma fmap_lookup_seq (b : vec) :
  (λ j, default 0 (b !! j)) <$> seq 0 (length b) = b.
Proof.
  apply list_eq. intros i. rewrite list_lookup_fmap.
  destruct (decide (i < length b)%nat) as [Hi|Hi].
  - rewrite lookup_seq_lt by done. simpl.
    destruct (lookup_lt_is_Some_2 b i Hi) as [y Hy]. by rewrite Hy.
  - rewrite lookup_seq_ge by lia. simpl.
    symmetry. apply lookup_ge_None_2. lia.
Qed.

(** The product of a matrix product with a vector, computed in two steps. *)
Lemma vdot_vecmat r B x c :
  Forall (λ row, length row = c) B →
  vdot ((λ j, vdot r (col j B)) <$> seq 0 c) x = vdot r (matvec B x).
Proof.
  intros HB. revert r. induction HB as [|b B Hb HB IH]; intros r.
  - rewrite (list_fmap_ext _ (λ _, 0) (seq 0 c)).
    + rewrite vdot_fmap_const_0. unfold matvec. csimpl. by rewrite vdot_nil_r.
    + intros _ j _. unfold col. csimpl. apply vdot_nil_r.
  - destruct r as [|a r].
    + csimpl. apply (vdot_fmap_const_0 (seq 0 c) x).
    + unfold matvec, col. csimpl.
      rewrite vdot_fmap_linear. f_equal.
      * f_equal. rewrite <-Hb. by rewrite fmap_lookup_seq.
      * apply IH.
Qed.

Lemma matvec_dot A B x c :
  ncols B = c → Forall (λ row, length row = c) B →
  matvec (dot A B) x = matvec A (matvec B x).
Proof.
  intros Hc HB. unfold matvec at 1 3, dot. rewrite <-list_fmap_compose.
  apply list_fmap_ext. intros _ r _. simpl. unfold vecmat.
  rewrite Hc. by apply vdot_vecmat.
Qed.

Lemma length_dot A B : length (dot A B) = length A.
Proof. unfold dot. by rewrite length_fmap. Qed.

Lemma fmap_seq_S {T} (f : nat → T) n :
  f <$> seq 0 (S n) = f O :: ((λ i, f (S i)) <$> seq 0 n).
Proof. csimpl. by rewrite <-fmap_S_seq, <-list_fmap_compose. Qed.

Lemma dot_row_lengths A B :
  Forall (λ row, length row = ncols B) (dot A B).
Proof.
  unfold dot. apply Forall_fmap, Forall_forall. intros r _. simpl.
  unfold vecmat. by rewrite length_fmap, length_seq.
Qed.

End ArrayFacts.

(** ** Loops that may raise *)

Section FoldFacts.
Context {St Ix : Type} (f : St → Ix → option St).

Lemma foldl_bind_None (l : list Ix) :
  foldl (λ acc i, st ← acc; f st i) None l = None.
Proof. induction l as [|i l IH]; [done|]. simpl. exact IH. Qed.

(** An invariant of a loop that may raise, indexed by the number of rounds. *)
Lemma foldl_bind_invariant (P : nat → St → Prop) (l : list Ix) (s0 s : St) :
  P O s0 →
  (∀ t st i st', l !! t = Some i → P t st → f st i = Some st' → P (S t) st') →
  foldl (λ acc i, st ← acc; f st i) (Some s0) l = Some s →
  P (length l) s.
Proof.
  intros H0. revert s. induction l as [|x l IH] using rev_ind; intros s Hstep.
  - simpl. by intros [= <-].
  - rewrite foldl_snoc, length_app. simpl.
    destruct (foldl _ (Some s0) l) as [st|] eqn:Hl; [|done].
    simpl. intros Hx.
    replace (length l + 1)%nat with (S (length l)) by lia.
    apply (Hstep (length l) st x s).
    + by rewrite lookup_app_r, Nat.sub_diag.
    + apply IH; [|done]. intros t st1 i st2 Hi. apply Hstep.
      by apply lookup_app_l_Some.
    + done.
Qed.

End FoldFacts.

(** ** Difference matrices *)

Section DmatFacts.
Import DmatSpec.

(** The loop of the [k == 1] branch after its first [t] rounds. *)
Lemma Dmat_k1_loop r c t :
  foldl (λ D i, set_item D i (i + 1) (-1)) (eye r c) (seq 0 t)
  = tabulate r c (λ i j, if decide (j = i) then 1
                         else if decide (j = S i ∧ (i < t)%nat) then -1 else 0).
Proof.
  induction t as [|t IH].
  - simpl. unfold eye. apply tabulate_ext. intros i j _ _.
    repeat case_decide; try done; lia.
  - rewrite seq_S, foldl_snoc, IH. simpl. rewrite set_item_tabulate.
    apply tabulate_ext. intros i j _ _.
    repeat case_decide; try done; lia.
Qed.

Lemma Dmat_k1_first_difference (n : nat) :
  (1 ≤ n)%nat → Dmat_k1 (Z.of_nat n) = Some (first_difference n).
Proof.
  intros Hn. unfold Dmat_k1, np_eye, py_range.
  rewrite decide_False by lia. simpl.
  replace (Z.to_nat (Z.of_nat n - 1)) with (n - 1)%nat by lia.
  rewrite Nat2Z.id, Dmat_k1_loop. f_equal.
  apply tabulate_ext. intros i j Hi _.
  repeat case_decide; try done; lia.
Qed.

Lemma Dmat_k1_negative (n : Z) : (n < 1)%Z → Dmat_k1 n = None.
Proof.
  intros Hn. unfold Dmat_k1, np_eye. by rewrite decide_True by lia.
Qed.

Lemma first_difference_shape n : has_shape (first_difference n) (n - 1) n.
Proof.
  split; [apply length_tabulate | apply tabulate_row_lengths].
Qed.

(** The first-difference operator, row by row. *)
Lemma first_difference_SS m :
  first_difference (S (S m))
  = (1 :: -1 :: zeros m) :: (cons 0 <$> first_difference (S m)).
Proof.
  unfold first_difference, tabulate.
  replace (S (S m) - 1)%nat with (S m) by lia.
  replace (S m - 1)%nat with m by lia.
  rewrite (fmap_seq_S _ m). f_equal.
  - rewrite (fmap_seq_S _ (S m)), (fmap_seq_S _ m). simpl. do 2 f_equal.
    unfold zeros. rewrite <-(length_seq m 0) at 2.
    apply const_fmap. intros. by repeat case_decide.
  - rewrite <-list_fmap_compose. apply list_fmap_ext. intros ? i _.
    unfold compose. rewrite (fmap_seq_S _ (S m)). f_equal.
    apply list_fmap_ext. intros ? j _.
    repeat case_decide; try done; lia.
Qed.

Lemma matvec_cons_0 (M : matrix) (a : Qc) (x : vec) :
  matvec (cons 0 <$> M) (a :: x) = matvec M x.
Proof.
  unfold matvec. rewrite <-list_fmap_compose.
  apply list_fmap_ext. intros ? r _. simpl. ring.
Qed.

(** The first-difference operator takes a sequence to its differences. *)
Lemma matvec_first_difference (x : vec) :
  matvec (first_difference (length x)) x = diff x.
Proof.
  induction x as [|a [|b x] IH]; [done..|].
  change (length (a :: b :: x)) with (S (S (length x))).
  rewrite first_difference_SS.
  change (matvec (?r :: ?M) ?y) with (vdot r y :: matvec M y).
  rewrite matvec_cons_0. simpl in IH. rewrite IH.
  unfold diff. simpl. f_equal.
  rewrite vdot_zeros_l. ring.
Qed.

Lemma length_diff (x : vec) : length (diff x) = (length x - 1)%nat.
Proof. unfold diff. rewrite length_zip_with, length_drop. lia. Qed.

Lemma length_iter_diff j (x : vec) :
  length (Nat.iter j diff x) = (length x - j)%nat.
Proof.
  induction j as [|j IH]; simpl; [lia|]. rewrite length_diff, IH. lia.
Qed.

Lemma ncols_of_shape (M : matrix) r c :
  has_shape M r c → (0 < r)%nat → ncols M = c.
Proof.
  intros [Hr Hc] Hpos. destruct M as [|row M]; simpl in *; [lia|].
  by inversion Hc.
Qed.

(** Shape and action of the composed operators. *)
Lemma left_compose_spec n j :
  (j < n)%nat →
  has_shape (left_compose n j) (n - S j) n
  ∧ ∀ x : vec, length x = n →
      matvec (left_compose n j) x = Nat.iter (S j) diff x.
Proof.
  induction j as [|j IH]; intros Hj.
  - split.
    + apply first_difference_shape.
    + intros x <-. apply matvec_first_difference.
  - destruct IH as [Hshape Hact]; [lia|].
    assert (ncols (left_compose n j) = n) as Hcols.
    { eapply ncols_of_shape; [done | lia]. }
    split.
    + split.
      * simpl. rewrite length_dot. rewrite (proj1 (first_difference_shape _)). lia.
      * simpl. pose proof (dot_row_lengths (first_difference (n - S j))
                              (left_compose n j)) as Hrows.
        by rewrite Hcols in Hrows.
    + intros x Hx. cbn [left_compose].
      rewrite (matvec_dot _ _ _ n Hcols (proj2 Hshape)), Hact by done.
      change (Nat.iter (S (S j)) diff x) with (diff (Nat.iter (S j) diff x)).
      rewrite <-(matvec_first_difference (Nat.iter (S j) diff x)).
      by rewrite length_iter_diff, Hx.
Qed.

(** The loop of the general branch after [j] rounds. *)
Lemma Dmat_loop (n j : nat) :
  (j < n)%nat →
  foldl (λ acc i, D ← acc; Dn ← Dmat_k1 (Z.of_nat n - Z.of_nat i - 1); Some (dot Dn D))
        (Some (first_difference n)) (seq 0 j)
  = Some (left_compose n j).
Proof.
  induction j as [|j IH]; intros Hj; [done|].
  rewrite seq_S, foldl_snoc, IH by lia. simpl.
  replace (Z.of_nat n - Z.of_nat j - 1)%Z with (Z.of_nat (n - S j)) by lia.
  by rewrite Dmat_k1_first_difference by lia.
Qed.

End DmatFacts.

(** ** Claims on [Dmat] *)

Section DmatClaims.
Import DmatSpec.

Lemma identity_shape n : has_shape (identity n) n n.
Proof. split; [apply length_tabulate | apply tabulate_row_lengths]. Qed.

Lemma Dmat_0_identity (n : nat) : Dmat (Z.of_nat n) 0 = Some (identity n).
Proof.
  unfold Dmat, np_eye. rewrite decide_True by done.
  rewrite decide_False by lia. rewrite Nat2Z.id. f_equal.
  apply tabulate_ext. intros i j _ _. repeat case_decide; try done; lia.
Qed.

Lemma Dmat_general (n k : nat) :
  (1 < k ≤ n)%nat →
  Dmat (Z.of_nat n) (Z.of_nat k) = Some (left_compose n (k - 1)).
Proof.
  intros [Hk Hn]. unfold Dmat.
  rewrite !decide_False by lia.
  rewrite Dmat_k1_first_difference by lia. simpl.
  unfold py_range. replace (Z.to_nat (Z.of_nat k - 1)) with (k - 1)%nat by lia.
  apply Dmat_loop. lia.
Qed.

(** X1.  Beyond k = n the loop reaches [Dmat(0, 1)], where
    [np.eye(-1, 0)] raises. *)
Lemma Dmat_order_above_dimension (n k : nat) :
  (1 ≤ n < k)%nat → Dmat (Z.of_nat n) (Z.of_nat k) = None.
Proof.
  intros [Hn Hk]. unfold Dmat.
  rewrite !decide_False by lia.
  rewrite Dmat_k1_first_difference by lia. simpl.
  unfold py_range.
  replace (Z.to_nat (Z.of_nat k - 1)) with ((n - 1) + S (k - 1 - n))%nat by lia.
  rewrite seq_app, foldl_app, Dmat_loop by lia. simpl.
  replace (Z.of_nat n - Z.of_nat (n - 1) - 1)%Z with 0%Z by lia.
  rewrite Dmat_k1_negative by lia. simpl.
  apply (foldl_bind_None
           (λ D i, Dn ← Dmat_k1 (Z.of_nat n - Z.of_nat i - 1); Some (dot Dn D))).
Qed.

(** C9.  [Dmat(n, 0)] is the n×n identity for n ≥ 1; [Dmat(n, 1)] is, for
    n ≥ 2, the (n−1)×n matrix with +1 at (i, i), −1 at (i, i+1) and 0
    elsewhere, and takes a 3-vector to [x0 − x1, x1 − x2]; for 1 < k ≤ n,
    [Dmat(n, k)] is k−1 first-difference operators of successively smaller
    dimension composed on the left of [Dmat(n, 1)], it has shape
    (n−k)×n and takes a vector of length n to its k-th finite
    difference. *)
Theorem Dmat_correct (n k : nat) :
((1 ≤ n)%nat →
     ∃ D, Dmat (Z.of_nat n) 0 = Some D ∧ D = identity n ∧ has_shape D n n
          ∧ ∀ i j, (i < n)%nat → (j < n)%nat →
              entry D i j = if decide (j = i) then 1 else 0)
  ∧ ((2 ≤ n)%nat →
     ∃ D, Dmat (Z.of_nat n) 1 = Some D ∧ D = first_difference n
          ∧ has_shape D (n - 1) n
          ∧ ∀ i j, (i < n - 1)%nat → (j < n)%nat →
              entry D i j = if decide (j = i) then 1
                            else if decide (j = S i) then -1 else 0)
  ∧ (∀ x0 x1 x2 : Qc,
       (λ D, matvec D [x0; x1; x2]) <$> Dmat 3 1 = Some [x0 - x1; x1 - x2])
  ∧ ((1 < k ≤ n)%nat →
     Dmat (Z.of_nat n) (Z.of_nat k) = Some (left_compose n (k - 1))
     ∧ has_shape (left_compose n (k - 1)) (n - k) n
     ∧ ∀ x : vec, length x = n →
         matvec (left_compose n (k - 1)) x = Nat.iter k diff x).
Proof.
  split; [|split; [|split]].
  - intros Hn. exists (identity n). split; [apply Dmat_0_identity|].
    split; [done|]. split; [apply identity_shape|].
    intros i j Hi Hj. by apply entry_tabulate.
  - intros Hn. exists (first_difference n). split.
    { unfold Dmat. rewrite decide_False, decide_True by done.
      apply Dmat_k1_first_difference. lia. }
    split; [done|]. split; [apply first_difference_shape|].
    intros i j Hi Hj. by apply entry_tabulate.
  - intros x0 x1 x2. unfold Dmat. rewrite decide_False, decide_True by done.
    change 3%Z with (Z.of_nat 3).
    rewrite (Dmat_k1_first_difference 3) by lia. simpl. f_equal.
    apply (matvec_first_difference [x0; x1; x2]).
  - intros Hk. destruct (left_compose_spec n (k - 1)) as [[Hr Hc] Hact]; [lia|].
    split; [by apply Dmat_general|]. split.
    + split; [rewrite Hr; lia | done].
    + intros x Hx. rewrite Hact by done. by replace (S (k - 1)) with k by lia.
Qed.

Lemma Dmat_correct_witness :
  Dmat 5 3 = Some (left_compose 5 2)
  ∧ has_shape (left_compose 5 2) 2 5
  ∧ ∀ x : vec, length x = 5%nat →
      matvec (left_compose 5 2) x = Nat.iter 3 diff x.
Proof.
  destruct (Dmat_correct 5 3) as (_ & _ & _ & H). apply H. lia.
Defined.

End DmatClaims.

(** ** Claims on the formulation of the quadratic programs *)

Section FormulationClaims.
Implicit Types (u v w x : vec).

Lemma vdot_app u1 u2 x1 x2 :
  length u1 = length x1 →
  vdot (u1 ++ u2) (x1 ++ x2) = vdot u1 x1 + vdot u2 x2.
Proof.
  revert x1. induction u1 as [|a u1 IH]; intros [|b x1] Hlen;
    simplify_eq/=; [ring|].
  rewrite IH by done. ring.
Qed.

Lemma vdot_ones_l u : vdot (ones (length u)) u = sum u.
Proof.
  induction u as [|a u IH]; [done|]. simpl. unfold ones in IH.
  rewrite IH. ring.
Qed.

Lemma neg_neg v : neg (neg v) = v.
Proof.
  unfold neg. rewrite <-list_fmap_compose. rewrite <-(list_fmap_id v) at 2.
  apply list_fmap_ext. intros ? x _. simpl. ring.
Qed.

Lemma neg_scale_opp c v : neg (scale (- c) v) = scale c v.
Proof.
  unfold neg, scale. rewrite <-list_fmap_compose.
  apply list_fmap_ext. intros ? x _. simpl. ring.
Qed.

(** C5, as the code has it.  In the long-only minimum-variance problem the
    linear term q handed to the solver is +λ_l1·𝟙 when [lambda_l1] is not
    zero (the vector −λ_l1·𝟙 is negated at the call of the solver), and the
    zero vector when it is zero. *)
Theorem minvar_long_only_q d sigMat maxAlloc lambda_l1 ordered qp :
  minvar_long_only d sigMat maxAlloc lambda_l1 ordered = Some qp →
  qp_q qp = if decide (lambda_l1 = 0) then zeros d
            else scale lambda_l1 (ones d).
Proof.
  unfold minvar_long_only. intros Hqp.
  destruct ordered; simplify_option_eq; simpl;
    first [apply neg_neg | apply neg_scale_opp].
Qed.

Lemma minvar_long_only_q_witness :
  ∃ qp, minvar_long_only 2 [[1; 0]; [0; 1]] 1 2 true = Some qp
        ∧ qp_q qp = [2; 2].
Proof.
  eexists. split; [reflexivity|].
  etrans; [by apply (minvar_long_only_q 2 [[1; 0]; [0; 1]] 1 2 true)|].
  compute_done.
Defined.

(** C5 as stated fails: with λ_l1 = 1 > 0 the vector q is not −λ_l1·𝟙. *)
Lemma minvar_long_only_q_not_negative :
  qp_q <$> minvar_long_only 2 [[1; 0]; [0; 1]] 1 1 false
  ≠ Some (scale (- 1) (ones 2)).
Proof. compute_done. Qed.

Lemma first_row_times_wuv d w u v :
  length w = d → length u = d →
  vdot (zeros d ++ ones d ++ zeros d) (w ++ u ++ v) = sum u.
Proof.
  intros Hw Hu. unfold zeros, ones.
  rewrite !vdot_app by (by rewrite length_replicate).
  rewrite !(vdot_zeros_l d). subst d. rewrite <-Hu at 1.
  change (replicate (length u) 1) with (ones (length u)).
  rewrite (vdot_ones_l u). ring.
Qed.

(** C4, as the code has it.  In both long-short problems the first
    constraint row has coefficient 0 on w, 1 on u and 0 on v, with bounds 0
    and 1+|longShort|: it bounds 1ᵀu, the block v is not in the sum. *)
Theorem long_short_first_row d meanVec sigMat e_min tau longShort maxAlloc
    lambda_l1 ordered :
  (∀ qp, minvar_long_short d sigMat e_min longShort maxAlloc lambda_l1 ordered
         = Some qp → first_row_bounds_u d longShort qp)
  ∧ (∀ qp, meanvar_long_short d meanVec sigMat e_min tau longShort maxAlloc
             lambda_l1 ordered = Some qp → first_row_bounds_u d longShort qp).
Proof.
  split; intros qp Hqp.
  - unfold minvar_long_short in Hqp.
    destruct ordered; simplify_option_eq;
      (repeat split; [by intros; apply first_row_times_wuv]).
  - unfold meanvar_long_short in Hqp.
    destruct ordered; simplify_option_eq;
      (repeat split; [by intros; apply first_row_times_wuv]).
Qed.

Lemma long_short_first_row_witness :
  ∃ qp, minvar_long_short 2 [[1; 0]; [0; 1]] 1 (1 / 2) 1 0 false = Some qp
        ∧ first_row_bounds_u 2 (1 / 2) qp.
Proof.
  eexists. split; [reflexivity|].
  apply (proj1 (long_short_first_row 2 [] [[1; 0]; [0; 1]] 1 0 (1 / 2) 1 0 false)).
  reflexivity.
Defined.

(** C4 as stated fails: no row of the problem for one asset with
    longShort = 1 bounds 1ᵀ(u+v). *)
Lemma long_short_no_row_bounds_u_plus_v :
  ∃ qp, minvar_long_short 1 [[1]] 1 1 1 0 false = Some qp
        ∧ ¬ ∃ i row, qp_A qp !! i = Some row ∧ bounds_u_plus_v 1 row.
Proof.
  eexists. split; [reflexivity|].
  intros (i & row & Hrow & c & Hc & ->).
  apply list_elem_of_lookup_2 in Hrow. vm_compute in Hrow.
  repeat (apply elem_of_cons in Hrow as [Hrow|Hrow]);
    try (by apply elem_of_nil in Hrow);
    injection Hrow as H1 H2; subst c;
    first [ by apply Hc | discriminate ].
Qed.

End FormulationClaims.

(** ** Claims on the two optimizers *)

Section OptimizerClaims.
Variable eig : matrix → vec * matrix.
Variable np_sqrt : Qc → Qc.
Variable solve : QP → vec.
Variable root250 : Qc → Qc.

Lemma all_true_iff (x : vec) : all x = true ↔ 0 ∉ x.
Proof.
  induction x as [|a x IH]; simpl.
  - split; [intros _; apply not_elem_of_nil | done].
  - rewrite not_elem_of_cons, andb_true_iff, IH, negb_true_iff,
      bool_decide_eq_false.
    split; (intros [Ha Hx]; split; [congruence | exact Hx]).
Qed.

Lemma weights_of_solution_spec d longShort x :
  uses_solution d longShort x (weights_of_solution d longShort x).
Proof.
  unfold uses_solution, weights_of_solution.
  destruct (all x) eqn:Hall.
  - apply all_true_iff in Hall. split; [done|].
    intros _. by destruct (decide (longShort = 0)).
  - assert (0 ∈ x) as Hin.
    { destruct (decide (0 ∈ x)) as [|Hn]; [done|].
      apply all_true_iff in Hn. congruence. }
    split; [|done]. intros _. by destruct (decide (longShort = 0)).
Qed.

Lemma finish_spec d sigMat longShort order x w var :
  finish d sigMat longShort order x = Some (w, var) →
  ∃ w', uses_solution d longShort x w'
        ∧ match order with
          | Some o => take_idx w' o = Some w
          | None => w' = w
          end.
Proof.
  unfold finish. intros H.
  exists (weights_of_solution d longShort x).
  split; [apply weights_of_solution_spec|].
  destruct order; simplify_option_eq; done.
Qed.

(** The problem that each optimizer hands to the solver, and what it does
    with the solution. *)
Lemma minimumVariancePortfolio_problem sigMat longShort maxAlloc lambda_l1
    lambda_l2 assetsOrder r :
  minimumVariancePortfolio eig np_sqrt solve sigMat longShort maxAlloc
    lambda_l1 lambda_l2 assetsOrder = Some r →
  let d := length sigMat in
  let order := order_given assetsOrder in
  ∃ sigMat' e_min qp,
    (if decide (longShort = 0)
     then minvar_long_only d sigMat' maxAlloc lambda_l1
            (bool_decide (is_Some order))
     else minvar_long_short d sigMat' e_min longShort maxAlloc lambda_l1
            (bool_decide (is_Some order))) = Some qp
    ∧ finish d sigMat' longShort order (solve qp) = Some r.
Proof.
  intros H. cbv zeta. unfold minimumVariancePortfolio in H.
  repeat (simplify_option_eq || case_match); eauto 10.
Qed.

Lemma meanVariancePortfolioReturnsTarget_problem meanVec sigMat retTarget
    longShort maxAlloc lambda_l1 lambda_l2 assetsOrder r :
  meanVariancePortfolioReturnsTarget eig np_sqrt solve root250 meanVec sigMat
    retTarget longShort maxAlloc lambda_l1 lambda_l2 assetsOrder = Some r →
  let d := length sigMat in
  let order := order_given assetsOrder in
  ∃ meanVec' sigMat' e_min tau qp,
    (if decide (longShort = 0)
     then meanvar_long_only d meanVec' sigMat' tau maxAlloc lambda_l1
            (bool_decide (is_Some order))
     else meanvar_long_short d meanVec' sigMat' e_min tau longShort maxAlloc
            lambda_l1 (bool_decide (is_Some order))) = Some qp
    ∧ finish d sigMat' longShort order (solve qp) = Some r.
Proof.
  intros H. cbv zeta. unfold meanVariancePortfolioReturnsTarget in H.
  repeat (simplify_option_eq || case_match); eauto 10.
Qed.

(** C2, as the code has it.  In both optimizers the equal-weight vector
    replaces the solution exactly when the solution vector of the solver
    (all 3d entries of it in the long-short case) has at least one zero
    entry; when no entry is zero the solution (its w-block in the
    long-short case) is the weight vector, which [assetsOrder], when given,
    then indexes. *)
Theorem equal_weights_iff_some_zero meanVec sigMat retTarget longShort
    maxAlloc lambda_l1 lambda_l2 assetsOrder w var :
  (minimumVariancePortfolio eig np_sqrt solve sigMat longShort maxAlloc
     lambda_l1 lambda_l2 assetsOrder = Some (w, var)
   ∨ meanVariancePortfolioReturnsTarget eig np_sqrt solve root250 meanVec
       sigMat retTarget longShort maxAlloc lambda_l1 lambda_l2 assetsOrder
     = Some (w, var)) →
  ∃ qp w', uses_solution (length sigMat) longShort (solve qp) w'
           ∧ match order_given assetsOrder with
             | Some o => take_idx w' o = Some w
             | None => w' = w
             end.
Proof.
  intros [H|H].
  - apply minimumVariancePortfolio_problem in H as (sigMat' & e_min & qp & _ & H).
    apply finish_spec in H as (w' & ? & ?). eauto.
  - apply meanVariancePortfolioReturnsTarget_problem
      in H as (meanVec' & sigMat' & e_min & tau & qp & _ & H).
    apply finish_spec in H as (w' & ? & ?). eauto.
Qed.

(** The extremes of a sequence, as [min] and [max] find them. *)
Lemma foldl_py_min_le (a : Qc) (v : vec) : foldl py_min a v ≤ a.
Proof.
  revert a. induction v as [|b v IH]; intros a; simpl; [done|].
  etrans; [apply IH|]. unfold py_min. case_decide; [|done].
  by apply Qclt_le_weak.
Qed.

Lemma foldl_py_max_ge (a : Qc) (v : vec) : a ≤ foldl py_max a v.
Proof.
  revert a. induction v as [|b v IH]; intros a; simpl; [done|].
  etrans; [|apply IH]. unfold py_max. case_decide; [|done].
  by apply Qclt_le_weak.
Qed.

Lemma min_of_le_max_of (v : vec) (a b : Qc) :
  min_of v = Some a → max_of v = Some b → a ≤ b.
Proof.
  destruct v as [|x v]; [done|]. simpl. intros [= <-] [= <-].
  etrans; [apply foldl_py_min_le | apply foldl_py_max_ge].
Qed.

Lemma clamp_target_above (minEret maxEret t : Qc) :
  minEret ≤ maxEret → maxEret < t → clamp_target minEret maxEret t = maxEret.
Proof.
  intros Hle Hlt. unfold clamp_target. rewrite decide_True by auto.
  unfold py_min, py_max.
  rewrite (decide_False (P := t < maxEret))
    by (apply Qcle_not_lt; by apply Qclt_le_weak).
  case_decide; [done|]. apply Qcle_antisym; [done|]. by apply Qcnot_lt_le.
Qed.

Lemma clamp_target_below (minEret maxEret t : Qc) :
  minEret ≤ maxEret → t < minEret → clamp_target minEret maxEret t = minEret.
Proof.
  intros Hle Hlt. unfold clamp_target. rewrite decide_True by auto.
  unfold py_min, py_max.
  rewrite (decide_True (P := t < maxEret))
    by (by apply Qclt_le_trans with minEret).
  rewrite decide_False; [done|]. apply Qcle_not_lt. by apply Qclt_le_weak.
Qed.

Lemma clamp_target_inside (minEret maxEret t : Qc) :
  minEret ≤ t → t ≤ maxEret → clamp_target minEret maxEret t = t.
Proof.
  intros H1 H2. unfold clamp_target. rewrite decide_False; [done|].
  intros [H|H]; [by apply (Qcle_not_lt _ _ H1) | by apply (Qcle_not_lt _ _ H2)].
Qed.

Lemma meanVariancePortfolioReturnsTarget_target meanVec sigMat retTarget
    longShort maxAlloc lambda_l1 lambda_l2 assetsOrder minEret maxEret r :
  min_of meanVec = Some minEret →
  max_of meanVec = Some maxEret →
  meanVariancePortfolioReturnsTarget eig np_sqrt solve root250 meanVec sigMat
    retTarget longShort maxAlloc lambda_l1 lambda_l2 assetsOrder = Some r →
  let d := length sigMat in
  let order := order_given assetsOrder in
  let tau := clamp_target minEret maxEret (daily_target root250 retTarget) in
  ∃ meanVec' sigMat' e_min qp,
    match order with
    | Some o => take_idx meanVec o = Some meanVec'
    | None => meanVec' = meanVec
    end
    ∧ length meanVec' = d
    ∧ (if decide (longShort = 0)
       then meanvar_long_only d meanVec' sigMat' tau maxAlloc lambda_l1
              (bool_decide (is_Some order))
       else meanvar_long_short d meanVec' sigMat' e_min tau longShort maxAlloc
              lambda_l1 (bool_decide (is_Some order))) = Some qp
    ∧ finish d sigMat' longShort order (solve qp) = Some r.
Proof.
  intros Hmin Hmax H. cbv zeta.
  unfold meanVariancePortfolioReturnsTarget in H. rewrite Hmin, Hmax in H.
  cbn [mbind option_bind] in H.
  destruct (order_given assetsOrder) as [o|].
  - destruct (reorder sigMat o) as [sigMat1|]; [|done].
    cbn [mbind option_bind] in H.
    destruct (take_idx meanVec o) as [meanVec1|] eqn:Hm; [|done].
    cbn [mbind option_bind] in H.
    case_guard as Hguard; [|done]. cbn [mbind option_bind] in H.
    destruct (condition _ _ _ _) as [[sigMat' e_min]|]; [|done].
    cbn [mbind option_bind] in H.
    destruct (if decide (longShort = 0) then _ else _) as [qp|] eqn:Hqp;
      [|done].
    cbn [mbind option_bind] in H.
    exists meanVec1, sigMat', e_min, qp. by destruct Hguard.
  - cbn [mbind option_bind] in H.
    case_guard as Hguard; [|done]. cbn [mbind option_bind] in H.
    destruct (condition _ _ _ _) as [[sigMat' e_min]|]; [|done].
    cbn [mbind option_bind] in H.
    destruct (if decide (longShort = 0) then _ else _) as [qp|] eqn:Hqp;
      [|done].
    cbn [mbind option_bind] in H.
    exists meanVec, sigMat', e_min, qp. by destruct Hguard.
Qed.

Lemma meanvar_return_row (d : nat) (meanVec : vec) (sigMat : matrix)
    (e_min tau longShort maxAlloc lambda_l1 : Qc) (ordered : bool) (qp : QP) :
  length meanVec = d →
  (if decide (longShort = 0)
   then meanvar_long_only d meanVec sigMat tau maxAlloc lambda_l1 ordered
   else meanvar_long_short d meanVec sigMat e_min tau longShort maxAlloc
          lambda_l1 ordered) = Some qp →
  return_row_bounds d meanVec tau qp.
Proof.
  intros Hlen Hqp.
  assert (length (neg meanVec) = d) as Hneg
    by (unfold neg; by rewrite length_fmap).
  case_decide.
  - exists O, (neg meanVec). unfold meanvar_long_only in Hqp.
    destruct ordered.
    + destruct (Dmat (Z.of_nat d) 1) as [D|]; [|done].
      simpl in Hqp. injection Hqp as <-. simpl.
      rewrite firstn_all2, skipn_all2 by lia. done.
    + simpl in Hqp. injection Hqp as <-. simpl.
      rewrite firstn_all2, skipn_all2 by lia. done.
  - exists 1%nat, (neg meanVec ++ zeros (2 * d)).
    assert (take d (neg meanVec ++ zeros (2 * d)) = neg meanVec
            ∧ Forall (λ x, x = 0) (drop d (neg meanVec ++ zeros (2 * d))))
      as [Htake Hdrop].
    { rewrite <-Hneg at 1 3. rewrite take_app_length, drop_app_length.
      split; [done|]. unfold zeros. by apply Forall_replicate. }
    unfold meanvar_long_short in Hqp. destruct ordered.
    + destruct (Dmat (Z.of_nat d) 1) as [D|]; [|done].
      simpl in Hqp. injection Hqp as <-. done.
    + simpl in Hqp. injection Hqp as <-. done.
Qed.

(** C7.  Let the daily value of the target lie above [max(meanVec)], or
    below [min(meanVec)], and call the nearer of the two the bound.  Then
    the clamp gives the bound; the weights and the variance are those of
    any target whose daily value is the bound, all other arguments equal;
    and every run that returns has solved the problem of the bound: the
    return row of the problem handed to the solver asks for a mean return
    of at least the bound. *)
Theorem target_out_of_range_is_clamped meanVec sigMat retTarget
    longShort maxAlloc lambda_l1 lambda_l2 assetsOrder minEret maxEret bound :
  min_of meanVec = Some minEret →
  max_of meanVec = Some maxEret →
  (maxEret < daily_target root250 retTarget ∧ bound = maxEret)
  ∨ (daily_target root250 retTarget < minEret ∧ bound = minEret) →
  let run t := meanVariancePortfolioReturnsTarget eig np_sqrt solve root250
                 meanVec sigMat t longShort maxAlloc lambda_l1 lambda_l2
                 assetsOrder in
  let d := length sigMat in
  let order := order_given assetsOrder in
  clamp_target minEret maxEret (daily_target root250 retTarget) = bound
  ∧ (∀ retTarget', daily_target root250 retTarget' = bound →
       run retTarget = run retTarget')
  ∧ (∀ r, run retTarget = Some r →
       ∃ meanVec' sigMat' e_min qp,
         match order with
         | Some o => take_idx meanVec o = Some meanVec'
         | None => meanVec' = meanVec
         end
         ∧ (if decide (longShort = 0)
            then meanvar_long_only d meanVec' sigMat' bound maxAlloc lambda_l1
                   (bool_decide (is_Some order))
            else meanvar_long_short d meanVec' sigMat' e_min bound longShort
                   maxAlloc lambda_l1 (bool_decide (is_Some order)))
           = Some qp
         ∧ return_row_bounds d meanVec' bound qp
         ∧ finish d sigMat' longShort order (solve qp) = Some r).
Proof.
  intros Hmin Hmax Hcase run d order.
  pose proof (min_of_le_max_of _ _ _ Hmin Hmax) as Hle.
  assert (clamp_target minEret maxEret (daily_target root250 retTarget)
          = bound) as Hclamp.
  { destruct Hcase as [[Hlt ->]|[Hlt ->]].
    - by apply clamp_target_above.
    - by apply clamp_target_below. }
  assert (minEret ≤ bound ∧ bound ≤ maxEret) as [Hlo Hup].
  { destruct Hcase as [[_ ->]|[_ ->]]; split; done || apply Qcle_refl. }
  split; [done|]. split.
  - intros retTarget' Hd. unfold run, meanVariancePortfolioReturnsTarget.
    rewrite Hmin, Hmax. cbn [mbind option_bind].
    rewrite Hclamp, Hd. by rewrite clamp_target_inside.
  - intros r Hrun.
    destruct (meanVariancePortfolioReturnsTarget_target _ _ _ _ _ _ _ _ _ _ _
                Hmin Hmax Hrun)
      as (meanVec' & sigMat' & e_min & qp & Hmv & Hlen & Hqp & Hfin).
    rewrite Hclamp in Hqp.
    exists meanVec', sigMat', e_min, qp. split; [done|]. split; [done|].
    split; [|done]. by eapply meanvar_return_row.
Qed.

End OptimizerClaims.

(** C2 at a concrete problem: the theorem applies to a run of
    [minimumVariancePortfolio]. *)
Lemma equal_weights_iff_some_zero_witness :
  ∃ qp w', uses_solution 2 0 (solve_const [1; 0] qp) w' ∧ w' = [1 / 2; 1 / 2].
Proof.
  apply (equal_weights_iff_some_zero eig_diagonal id (solve_const [1; 0]) id
           [] sample_I2 0 0 1 0 0 None [1 / 2; 1 / 2] (1 / 2)).
  left. compute_done.
Defined.

(** C2 as stated fails: the solution (1, 0) has a non-zero entry, and the
    weights returned are not the solution. *)
Lemma equal_weights_for_a_nonzero_solution :
  (∃ x : Qc, x ∈ [1; 0] ∧ x ≠ 0)
  ∧ fst <$> minimumVariancePortfolio eig_diagonal id (solve_const [1; 0])
              sample_I2 0 1 0 0 None
    ≠ Some [1; 0].
Proof.
  split; [|compute_done].
  exists 1. split; [apply list_elem_of_here | compute_done].
Qed.


(** C7 at a concrete problem, with a solver that reads the return row: the
    means are (−100, 0), the first target has the daily value 100, the
    second the daily value 0.  The clamp gives 0, the solver answers
    (0, 1), all the weight on the asset of mean 0, and both runs return the
    equal weights in its place. *)
Lemma target_out_of_range_is_clamped_witness :
  clamp_target (- c100) 0 (daily_target root250_at_1_and_2pow250
                             sample_high_target) = 0
  ∧ meanVariancePortfolioReturnsTarget eig_diagonal id solve_two_assets
      root250_at_1_and_2pow250 [- c100; 0] sample_I2 sample_high_target
      0 1 0 0 None
    = meanVariancePortfolioReturnsTarget eig_diagonal id solve_two_assets
        root250_at_1_and_2pow250 [- c100; 0] sample_I2 0 0 1 0 0 None
  ∧ ∃ r sigMat' qp,
      meanVariancePortfolioReturnsTarget eig_diagonal id solve_two_assets
        root250_at_1_and_2pow250 [- c100; 0] sample_I2 sample_high_target
        0 1 0 0 None = Some r
      ∧ meanvar_long_only 2 [- c100; 0] sigMat' 0 1 0 false = Some qp
      ∧ return_row_bounds 2 [- c100; 0] 0 qp
      ∧ solve_two_assets qp = [0; 1]
      ∧ finish 2 sigMat' 0 None (solve_two_assets qp) = Some r.
Proof.
  destruct (target_out_of_range_is_clamped eig_diagonal id solve_two_assets
              root250_at_1_and_2pow250 [- c100; 0] sample_I2
              sample_high_target 0 1 0 0 None (- c100) 0 0)
    as (Hclamp & Hsame & Hqp).
  - reflexivity.
  - reflexivity.
  - left. split; compute_done.
  - split; [exact Hclamp|]. split; [apply Hsame; compute_done|].
    assert (∃ r, meanVariancePortfolioReturnsTarget eig_diagonal id
                   solve_two_assets root250_at_1_and_2pow250 [- c100; 0]
                   sample_I2 sample_high_target 0 1 0 0 None = Some r)
      as [r Hr] by (eexists; vm_compute; reflexivity).
    destruct (Hqp r Hr)
      as (meanVec' & sigMat' & e_min & qp & -> & Hbuild & Hrow & Hfin).
    rewrite decide_True in Hbuild by done.
    exists r, sigMat', qp. split; [exact Hr|]. split; [exact Hbuild|].
    split; [exact Hrow|]. split; [|exact Hfin].
    simpl in Hbuild. injection Hbuild as <-.
    unfold solve_two_assets. simpl.
    repeat f_equal; apply Qc_is_canon; reflexivity.
Defined.

(** ** Claims on [SymPDcovmatrix] *)

Section ConditionerClaims.
Variable eig : matrix → vec * matrix.




Lemma diagonal_diag_of (D : vec) : diagonal (diag_of D) = D.
Proof.
  unfold diagonal, diag_of. apply list_eq. intros i.
  rewrite !list_lookup_imap.
  destruct (D !! i) as [x|] eqn:Hx; [|done]. simpl. f_equal.
  rewrite list_lookup_insert_eq; [done|].
  unfold zeros. rewrite length_replicate. by eapply lookup_lt_Some.
Qed.



End ConditionerClaims.



(** ** Claims on the backtest *)

(** C1 on the code.  In every round the backtest calls the optimizer with
    its [maxAlloc] in the place of the parameter [longShort], and its
    [longShort] in the place of the parameter [maxAlloc]; [lambda_l1] and
    [lambda_l2] are in their places.  With the defaults of the backtest
    ([maxAlloc] 1, [longShort] 0) the call is not the one that the
    signatures describe. *)
Theorem backtest_swaps_longShort_and_maxAlloc :
  (∀ eig np_sqrt solve root250 meanVec sigMat maxAlloc retTarget longShort
     lambda_l1 lambda_l2,
     call_optimizer eig np_sqrt solve root250 "minimumVariancePortfolio"
       meanVec sigMat maxAlloc retTarget longShort lambda_l1 lambda_l2
     = (λ r, Some r.1)
         <$> minimumVariancePortfolio eig np_sqrt solve sigMat
               (* longShort := *) maxAlloc (* maxAlloc := *) longShort
               lambda_l1 lambda_l2 None)
  ∧ (∀ eig np_sqrt solve root250 meanVec sigMat maxAlloc retTarget longShort
       lambda_l1 lambda_l2,
       call_optimizer eig np_sqrt solve root250
         "meanVariancePortfolioReturnsTarget"
         meanVec sigMat maxAlloc retTarget longShort lambda_l1 lambda_l2
       = (λ r, Some r.1)
           <$> meanVariancePortfolioReturnsTarget eig np_sqrt solve root250
                 meanVec sigMat retTarget
                 (* longShort := *) maxAlloc (* maxAlloc := *) longShort
                 lambda_l1 lambda_l2 None)
  ∧ call_optimizer eig_diagonal id solve_uniform root250_at_1_and_2pow250
      "minimumVariancePortfolio" [0; 0] sample_I2 1 0 0 0 0
    ≠ (λ r, Some r.1)
        <$> minimumVariancePortfolio eig_diagonal id solve_uniform sample_I2
              (* longShort := *) 0 (* maxAlloc := *) 1 0 0 None
  ∧ call_optimizer eig_diagonal id solve_uniform root250_at_1_and_2pow250
      "meanVariancePortfolioReturnsTarget" [0; 0] sample_I2 1 0 0 0 0
    ≠ (λ r, Some r.1)
        <$> meanVariancePortfolioReturnsTarget eig_diagonal id solve_uniform
              root250_at_1_and_2pow250 [0; 0] sample_I2 0
              (* longShort := *) 0 (* maxAlloc := *) 1 0 0 None.
Proof.
  split; [|split; [|split]].
  - intros. unfold call_optimizer. rewrite decide_True by done.
    by destruct (minimumVariancePortfolio _ _ _ _ _ _ _ _ _).
  - intros. unfold call_optimizer. rewrite decide_False, decide_True by done.
    by destruct (meanVariancePortfolioReturnsTarget _ _ _ _ _ _ _ _ _ _ _ _).
  - compute_done.
  - compute_done.
Qed.

(** The array of a round has one row more than the window whenever the
    table has at least two rows more than the window. *)
Lemma logret_window_rows (cols : list string) (df_logret : list (list cell))
    (window_size i : nat) :
  (window_size ≤ i ≤ length df_logret)%nat →
  length (logret_window cols df_logret window_size i).2
  = ((length df_logret - 1) `min` (window_size + 1))%nat.
Proof.
  intros Hi. unfold logret_window, check_missing, to_array. simpl.
  rewrite length_fmap, length_take, length_app, !length_fmap, length_take,
    length_drop. simpl. lia.
Qed.

(** C3 on the code.  With four rows of log-returns and a window of two,
    the array of the round at i = 2 has three rows: the two rows of the
    window divided by 100 and the row of ones that [check_missing] leaves
    under the name [missing_flag].  The mean handed to the optimizer is
    the mean of these three rows divided by 100 again, (1/60, 7/300); the
    averages of the log-returns of the window are (200, 300), which is
    also what the statistics of [preprocessData] give on the two rows. *)
Theorem window_has_flag_row_and_is_rescaled :
  logret_window sample_tickers sample_logret 2 2
  = (sample_tickers, [[1; 1 + 1]; [1 + 2; 2 + 2]; [1; 1]])
  ∧ (window_moments sample_tickers sample_logret 2 2).2
    = [Q2Qc (1 # 60); Q2Qc (7 # 300)]
  ∧ window_means 2 sample_logret 2 2 = [Qc_of_Z 200; Qc_of_Z 300]
  ∧ (logret_moments (to_array (trailing_window sample_logret 2 2)) 2).1
    = [Qc_of_Z 200; Qc_of_Z 300]
  ∧ (window_moments sample_tickers sample_logret 2 2).1.2
    = [[Q2Qc (4 # 3); Q2Qc (5 # 3)]; [Q2Qc (5 # 3); Q2Qc (7 # 3)]].
Proof. repeat split; compute_done. Qed.


Section BacktestClaims.
Variable eig : matrix → vec * matrix.
Variable np_sqrt : Qc → Qc.
Variable solve : QP → vec.
Variable root250 : Qc → Qc.
Variable ln : Qc → Qc.
Variable exp : Qc → Qc.

Lemma length_log_returns (prices : list (list cell)) :
  length (log_returns ln prices) = (length prices - 1)%nat.
Proof. unfold log_returns. rewrite length_zip_with, length_drop. lia. Qed.

Lemma length_realized (w_opt : vec) (rows : list (list cell)) :
  length (realized exp w_opt rows) = length rows.
Proof. unfold realized. by rewrite length_fmap. Qed.

(** The number of rounds: the least N with N·d ≥ m. *)
Lemma rounds_spec (m d t : nat) :
  (d ≠ 0)%nat → (t < (m + d - 1) / d)%nat ↔ (t * d < m)%nat.
Proof.
  intros Hd.
  pose proof (Nat.div_mod_eq (m + d - 1) d) as Hdiv.
  pose proof (Nat.mod_upper_bound (m + d - 1) d Hd) as Hmod.
  split; intros H; nia.
Qed.

(** What one round does to [R] and [w_all]. *)
Lemma backtest_round_spec df1 df_logret name window_size d
    maxAlloc retTarget longShort lambda_l1 lambda_l2 R w_all i R' w_all' :
  backtest_round eig np_sqrt solve root250 exp df1 df_logret name
    window_size d maxAlloc retTarget longShort lambda_l1 lambda_l2
    (R, w_all) i = Some (R', w_all') →
  w_rows w_all' = S (w_rows w_all)
  ∧ (w_rows w_all' = 1%nat ∨ ∃ rows, w_all' = W2d rows)
  ∧ ∃ Rl, R' = Some Rl
      ∧ length Rl
        = ((match R with None => if decide (i + d < length df_logret)%nat then 0 else 1
                       | Some Rl0 => length Rl0 end)
           + (if decide (i + d < length df_logret)%nat
              then d `min` (length df_logret - i)
              else length df_logret - i))%nat.
Proof.
  unfold backtest_round. intros H.
  destruct (window_moments _ _ _ _) as [[sample_stocks sigMat] meanVec].
  simplify_option_eq; (split; [|split]).
  1,4: destruct w_all; simpl; [done..|]; rewrite length_app; simpl; lia.
  1,3: destruct w_all; simpl; eauto.
  - eexists. split; [done|].
    destruct R as [Rl0|]; unfold hstack_R; simpl;
      rewrite ?length_app, !length_fmap, length_realized, length_take,
        length_drop; done.
  - eexists. split; [done|].
    unfold hstack_R. rewrite length_app, !length_fmap, length_realized,
      length_drop. by destruct R.
Qed.

(** C10.  When the backtest returns and [window_size + rebalance_time] is
    below the number n of rows of log-returns, the realized returns are
    n − window_size in number, as are the dates returned, and [w_all] is a
    matrix with one row per round, that is ⌈(n − window_size) /
    rebalance_time⌉ rows. *)
Theorem backtest_lengths (optimizerName : string) (df1 : frame)
    (window_size rebalance_time : nat)
    (maxAlloc retTarget longShort lambda_l1 lambda_l2 : Qc)
    (R : option (list r_item)) (df_logret : list (list cell))
    (w_all : w_all_t) (rownames : list string) :
  let n := length (log_returns ln (values df1)) in
  length (index df1) = length (values df1) →
  (window_size + rebalance_time < n)%nat →
  rollingwindow_backtest eig np_sqrt solve root250 ln exp optimizerName df1
    window_size rebalance_time maxAlloc retTarget longShort lambda_l1 lambda_l2
  = Some (R, df_logret, w_all, rownames) →
  (∃ Rl, R = Some Rl ∧ length Rl = (n - window_size)%nat)
  ∧ length rownames = (n - window_size)%nat
  ∧ ∃ rows, w_all = W2d rows
      ∧ length rows = ((n - window_size + rebalance_time - 1) / rebalance_time)%nat
      ∧ ((length rows - 1) * rebalance_time < n - window_size
         ≤ length rows * rebalance_time)%nat.
Proof.
  intros n Hindex Hlt. unfold rollingwindow_backtest, py_range3.
  fold n. set (d := rebalance_time) in *. set (m := (n - window_size)%nat).
  destruct (decide (d = 0)%nat) as [Hd|Hd]; [done|]. simpl.
  set (N := ((m + d - 1) / d)%nat).
  set (idx := (λ j, window_size + j * d)%nat <$> seq 0 N).
  destruct (foldl _ _ idx) as [[R1 w1]|] eqn:Hfold; [|done].
  simpl. intros [= -> <- -> <-].
  assert (N * d ≥ m ∧ (N - 1) * d < m ∧ 2 ≤ N)%nat as (HN1 & HN2 & HN3).
  { pose proof (proj1 (rounds_spec m d (N - 1) Hd)) as H1.
    pose proof (proj2 (rounds_spec m d 1 Hd)) as H2.
    pose proof (proj2 (rounds_spec m d N Hd)) as H3.
    fold N in H1, H2, H3. subst m.
    assert (1 < N)%nat by (apply H2; lia).
    repeat split; [|apply H1; lia|lia].
    destruct (decide (N * d < n - window_size)%nat) as [Hc|]; [|lia].
    apply H3 in Hc. lia. }
  pose (P := λ (t : nat) (st : option (list r_item) * w_all_t),
          w_rows st.2 = t
          ∧ (t ≤ 1 ∨ ∃ rows, st.2 = W2d rows)%nat
          ∧ match st.1 with
            | None => t = O
            | Some Rl => (1 ≤ t)%nat ∧ length Rl = ((t * d) `min` m)%nat
            end).
  assert (P (length idx) (R, w_all)) as (Hrows & Hshape & HR).
  { eapply (foldl_bind_invariant _ P); [| |exact Hfold].
    - unfold P. repeat split; simpl; auto.
    - intros t [R0 w0] i [R' w'] Hi (Hr0 & Hs0 & HR0) Hround.
      apply backtest_round_spec in Hround as (Hr' & Hs' & Rl & -> & Hlen).
      unfold idx in Hi. rewrite list_lookup_fmap in Hi.
      destruct (seq 0 N !! t) as [j|] eqn:Hj; [|done].
      apply lookup_seq in Hj as [-> Hj]. simpl in Hi. injection Hi as <-.
      assert (t * d < m)%nat as Htm by (by apply rounds_spec).
      fold n in Hlen. unfold P in *. cbn [fst snd] in *.
      repeat split.
      + lia.
      + destruct Hs' as [Hs'|Hs']; [left; lia | by right].
      + lia.
      + rewrite Hlen, Nat.mul_succ_l. subst m.
        destruct R0 as [Rl0|].
        * destruct HR0 as [_ ->]. case_decide; lia.
        * subst t. rewrite !decide_True by lia. lia. }
  unfold idx in Hrows, Hshape, HR.
  rewrite length_fmap, length_seq in Hrows, Hshape, HR. cbn [fst snd] in *.
  repeat split.
  - destruct R as [Rl|]; [|lia]. exists Rl. split; [done|]. lia.
  - rewrite length_drop, Hindex. subst m n.
    rewrite length_log_returns in *. lia.
  - destruct Hshape as [?|[rows ->]]; [lia|]. simpl in Hrows.
    exists rows. rewrite Hrows. repeat split; lia.
Qed.

End BacktestClaims.

(** C10 at a concrete run: five days of prices (four rows of log-returns),
    a window of one row, a rebalance every two rows. *)
Lemma backtest_lengths_witness :
  ∃ R df_logret w_all rownames,
    rollingwindow_backtest eig_diagonal id solve_uniform
      root250_at_1_and_2pow250 ln_at_1 exp_at_0
      "minimumVariancePortfolio" sample_prices 1 2 1 0 0 0 0
    = Some (R, df_logret, w_all, rownames)
    ∧ (∃ Rl, R = Some Rl ∧ length Rl = 3%nat)
    ∧ length rownames = 3%nat
    ∧ ∃ rows, w_all = W2d rows ∧ length rows = 2%nat
        ∧ ((length rows - 1) * 2 < 3 ≤ length rows * 2)%nat.
Proof.
  eexists _, _, _, _. split; [vm_compute; reflexivity|].
  eapply (backtest_lengths eig_diagonal id solve_uniform
            root250_at_1_and_2pow250 ln_at_1 exp_at_0
            "minimumVariancePortfolio" sample_prices 1 2 1 0 0 0 0).
  - reflexivity.
  - vm_compute. lia.
  - vm_compute. reflexivity.
Defined.

(** * Further properties of the code *)

(** ** [Dmat] outside of its range, and on constant vectors *)

Lemma Dmat_order_above_dimension_witness : Dmat 2 3 = None.
Proof. apply (Dmat_order_above_dimension 2 3). lia. Defined.

(** X2.  [Dmat] does not check its arguments: a negative order k gives the
    first-difference matrix of [Dmat(n, 1)] (the loop over [range(k - 1)]
    has no round), [Dmat(n, 1)] raises for n < 1 and [Dmat(n, 0)] for
    n < 0. *)
Theorem Dmat_unchecked_arguments (n k : Z) :
  ((k < 0)%Z → Dmat n k = Dmat n 1)
  ∧ ((n < 1)%Z → Dmat n 1 = None)
  ∧ ((n < 0)%Z → Dmat n 0 = None).
Proof.
  split; [|split]; intros H; unfold Dmat.
  - rewrite !decide_False by lia. rewrite decide_True by done.
    unfold py_range. replace (Z.to_nat (k - 1)) with O by lia. simpl.
    by destruct (Dmat_k1 n).
  - rewrite decide_False, decide_True by done. by apply Dmat_k1_negative.
  - rewrite decide_True by done. unfold np_eye. by rewrite decide_True by lia.
Qed.

Lemma Dmat_unchecked_arguments_witness :
  Dmat 3 (-2) = Dmat 3 1 ∧ Dmat 0 1 = None ∧ Dmat (-1) 0 = None.
Proof.
  split; [|split].
  - apply (Dmat_unchecked_arguments 3 (-2)). lia.
  - apply (Dmat_unchecked_arguments 0 0). lia.
  - apply (Dmat_unchecked_arguments (-1) 0). lia.
Defined.

Lemma diff_replicate (n : nat) (c : Qc) :
  DmatSpec.diff (replicate n c) = zeros (n - 1).
Proof.
  unfold DmatSpec.diff, zeros. destruct n as [|n]; [done|].
  simpl. rewrite drop_0, Nat.sub_0_r.
  induction n as [|n IH]; [done|]. simpl. rewrite IH. f_equal. ring.
Qed.

Lemma iter_diff_replicate (k n : nat) (c : Qc) :
  (1 ≤ k)%nat → Nat.iter k DmatSpec.diff (replicate n c) = zeros (n - k).
Proof.
  intros Hk. induction k as [|k IH]; [lia|].
  destruct (decide (k = 0)%nat) as [->|Hk0].
  - simpl. apply diff_replicate.
  - simpl. rewrite IH by lia. unfold zeros. rewrite diff_replicate.
    unfold zeros. f_equal. lia.
Qed.

(** X3.  For 1 ≤ k ≤ n the matrix [Dmat(n, k)] takes every constant vector
    of length n to the zero vector of length n − k: the ordering constraints
    built from it do not see a common shift of the weights. *)
Theorem Dmat_annihilates_constants (n k : nat) (c : Qc) :
  (1 ≤ k ≤ n)%nat →
  ∃ D, Dmat (Z.of_nat n) (Z.of_nat k) = Some D
       ∧ matvec D (replicate n c) = zeros (n - k).
Proof.
  intros [Hk Hn].
  destruct (decide (k = 1)%nat) as [->|Hk1].
  - exists (DmatSpec.first_difference n). split.
    + unfold Dmat. rewrite decide_False, decide_True by done.
      apply Dmat_k1_first_difference. lia.
    + rewrite <-(length_replicate n c) at 1.
      rewrite matvec_first_difference. apply diff_replicate.
  - exists (DmatSpec.left_compose n (k - 1)). split.
    + apply Dmat_general. lia.
    + destruct (left_compose_spec n (k - 1)) as [_ Hact]; [lia|].
      rewrite Hact by apply length_replicate.
      replace (S (k - 1)) with k by lia. apply iter_diff_replicate. lia.
Qed.

Lemma Dmat_annihilates_constants_witness :
  ∃ D, Dmat 4 2 = Some D ∧ matvec D (replicate 4 (1 / 2)) = zeros 2.
Proof. apply (Dmat_annihilates_constants 4 2 (1 / 2)). lia. Defined.

(** ** Arrays given by their entries *)

Section TabulateFacts.
Implicit Types (M : matrix) (g h : nat → nat → Qc).

Lemma has_shape_tabulate M r c :
  DmatSpec.has_shape M r c → M = tabulate r c (entry M).
Proof.
  intros [Hr Hc]. apply list_eq. intros i.
  destruct (decide (i < r)%nat) as [Hi|Hi].
  - rewrite lookup_tabulate by done.
    destruct (lookup_lt_is_Some_2 M i) as [row Hrow]; [lia|].
    rewrite Hrow. f_equal.
    pose proof (Forall_lookup_1 _ _ _ _ Hc Hrow) as Hlen. simpl in Hlen.
    rewrite <-(fmap_lookup_seq row) at 1. rewrite Hlen.
    apply list_fmap_ext. intros ? j _. unfold entry. by rewrite Hrow.
  - rewrite !lookup_ge_None_2; [done| |]; rewrite ?length_tabulate; lia.
Qed.

Lemma zip_with_fmap_same {T U} (f : U → U → U) (a b : T → U) (l : list T) :
  zip_with f (a <$> l) (b <$> l) = (λ x, f (a x) (b x)) <$> l.
Proof. induction l as [|x l IH]; [done|]. csimpl. by rewrite IH. Qed.

Lemma madd_tabulate r c g h :
  madd (tabulate r c g) (tabulate r c h) = tabulate r c (λ i j, g i j + h i j).
Proof.
  unfold madd, tabulate. rewrite zip_with_fmap_same.
  apply list_fmap_ext. intros ? i _. apply zip_with_fmap_same.
Qed.

Lemma mscale_tabulate (a : Qc) r c g :
  mscale a (tabulate r c g) = tabulate r c (λ i j, a * g i j).
Proof.
  unfold mscale, scale, tabulate. rewrite <-list_fmap_compose.
  apply list_fmap_ext. intros ? i _. simpl. by rewrite <-list_fmap_compose.
Qed.

Lemma mdiv_tabulate (a : Qc) r c g :
  mdiv (tabulate r c g) a = tabulate r c (λ i j, g i j / a).
Proof.
  unfold mdiv, div, tabulate. rewrite <-list_fmap_compose.
  apply list_fmap_ext. intros ? i _. simpl. by rewrite <-list_fmap_compose.
Qed.

Lemma col_tabulate r c g j :
  (j < c)%nat → col j (tabulate r c g) = (λ i, g i j) <$> seq 0 r.
Proof.
  intros Hj. unfold col, tabulate. rewrite <-list_fmap_compose.
  apply list_fmap_ext. intros ? i _. simpl.
  by rewrite list_lookup_fmap, lookup_seq_lt.
Qed.

Lemma ncols_tabulate r c g : (0 < r)%nat → ncols (tabulate r c g) = c.
Proof.
  intros Hr. unfold ncols, tabulate. destruct r as [|r]; [lia|].
  simpl. by rewrite length_fmap, length_seq.
Qed.

Lemma transpose_tabulate n g :
  transpose (tabulate n n g) = tabulate n n (λ i j, g j i).
Proof.
  destruct n as [|n]; [done|].
  unfold transpose. rewrite ncols_tabulate by lia.
  unfold tabulate at 2. apply list_fmap_ext. intros ? j Hj.
  apply lookup_seq in Hj as [-> Hj]. by apply col_tabulate.
Qed.

Lemma symmetrize_tabulate n g :
  symmetrize (tabulate n n g) = tabulate n n (λ i j, (g i j + g j i) / 2).
Proof.
  unfold symmetrize. by rewrite transpose_tabulate, madd_tabulate, mdiv_tabulate.
Qed.

Lemma symmetrize_square_symmetric M n :
  DmatSpec.has_shape M n n → transpose (symmetrize M) = symmetrize M.
Proof.
  intros HM. rewrite (has_shape_tabulate M n n HM).
  generalize (entry M). intros g.
  rewrite symmetrize_tabulate, transpose_tabulate.
  apply tabulate_ext. intros i j _ _. by rewrite (Qcplus_comm (g j i)).
Qed.

End TabulateFacts.

(** ** The covariance conditioner *)

Section ConditionerFacts.
Variable eig : matrix → vec * matrix.
Variable np_sqrt : Qc → Qc.

Lemma dot_transpose_shape (T V : matrix) :
  (0 < ncols V)%nat →
  DmatSpec.has_shape (dot T (transpose V)) (length T) (length V).
Proof.
  intros Hc. split; [apply length_dot|].
  pose proof (dot_row_lengths T (transpose V)) as Hrows.
  assert (ncols (transpose V) = length V) as Heq; [|by rewrite Heq in Hrows].
  unfold transpose, ncols at 1. destruct (ncols V) as [|c]; [lia|].
  simpl. unfold col. by rewrite length_fmap.
Qed.

Lemma symmetrize_no_columns (M : matrix) : ncols M = O → symmetrize M = [].
Proof.
  intros Hc. unfold symmetrize, transpose. rewrite Hc. simpl.
  unfold madd. by destruct M.
Qed.

(** X4.  Whatever [eig] returns, the matrix that [SymPDcovmatrix] returns
    is symmetric. *)
Theorem SymPDcovmatrix_symmetric (A : matrix) (tol : option Qc)
    (A' : matrix) (e_min : Qc) :
  SymPDcovmatrix eig A tol = Some (A', e_min) → transpose A' = A'.
Proof.
  unfold SymPDcovmatrix. intros H.
  destruct (negb (is_square A)); [done|].
  destruct (eig (symmetrize A)) as [D V].
  simplify_option_eq.
  set (T := dot V (diag_of (floor_eigenvalues (effective_tol tol) D))).
  destruct (decide (0 < ncols V)%nat) as [Hc|Hc].
  - apply (symmetrize_square_symmetric _ (length V)).
    pose proof (dot_transpose_shape T V Hc) as Hs.
    unfold T in Hs at 2. by rewrite length_dot in Hs.
  - rewrite symmetrize_no_columns; [done|].
    unfold ncols at 1. unfold dot.
    assert (transpose V = []) as ->.
    { unfold transpose. by replace (ncols V) with O by lia. }
    destruct T as [|r T']; [done|]. simpl. done.
Qed.

(** The loop that floors the eigenvalues, after its first [t] rounds. *)
Lemma floor_eigenvalues_loop (tol : Qc) (D : vec) (t : nat) :
  foldl (λ D i, match D !! i with
                | Some x => if decide (x < tol) then <[i := tol]> D else D
                | None => D
                end) D (seq 0 t)
  = ((λ x, if decide (x < tol) then tol else x) <$> take t D) ++ drop t D.
Proof.
  induction t as [|t IH]; [by rewrite drop_0|].
  rewrite seq_S, foldl_snoc, IH. simpl.
  destruct (D !! t) as [x|] eqn:Hx.
  - assert (t < length D)%nat as Ht by (by eapply lookup_lt_Some).
    rewrite (take_S_r D t x Hx), (drop_S D x t Hx), fmap_app. simpl.
    rewrite lookup_app_r; rewrite length_fmap, length_take; [|lia].
    replace (t - t `min` length D)%nat with O by lia. simpl.
    rewrite <-app_assoc. simpl.
    destruct (decide (x < tol)); [|done].
    rewrite insert_app_r_alt; rewrite length_fmap, length_take; [|lia].
    by replace (t - t `min` length D)%nat with O by lia.
  - assert (length D ≤ t)%nat as Ht by (by apply lookup_ge_None).
    rewrite lookup_ge_None_2.
    + rewrite !take_ge, !drop_ge by lia. done.
    + rewrite length_app, length_fmap, length_take, length_drop. lia.
Qed.

Lemma floor_eigenvalues_spec (tol : Qc) (D : vec) :
  floor_eigenvalues tol D = (λ x, if decide (x < tol) then tol else x) <$> D.
Proof.
  unfold floor_eigenvalues. rewrite floor_eigenvalues_loop.
  by rewrite firstn_all, drop_all, app_nil_r.
Qed.

Lemma foldl_py_min_spec (a : Qc) (v : vec) :
  foldl py_min a v ∈ a :: v ∧ Forall (λ x, foldl py_min a v ≤ x) (a :: v).
Proof.
  revert a. induction v as [|b v IH]; intros a; simpl.
  - split; [apply list_elem_of_here | by repeat constructor].
  - destruct (IH (py_min a b)) as [Hin Hall].
    apply Forall_cons in Hall as [Hhd Htl].
    assert (py_min a b ≤ a ∧ py_min a b ≤ b ∧ (py_min a b = a ∨ py_min a b = b))
      as (Ha & Hb & Hor).
    { unfold py_min. case_decide.
      - split; [by apply Qclt_le_weak|]. split; [done | by right].
      - split; [done|]. split; [by apply Qcnot_lt_le | by left]. }
    split.
    + apply elem_of_cons in Hin as [Hin|Hin].
      * rewrite Hin. destruct Hor as [->| ->];
          [apply list_elem_of_here | apply list_elem_of_further, list_elem_of_here].
      * by do 2 apply list_elem_of_further.
    + repeat apply Forall_cons_2; [by etrans | by etrans | done].
Qed.

(** X5.  The value [e_min] that [SymPDcovmatrix] returns is the least of
    the eigenvalues after each one below the tolerance has been raised to
    it, and is never below the tolerance in effect; with [tol] left out,
    [e_min] is at least 1e-4. *)
Theorem SymPDcovmatrix_e_min (A : matrix) (tol : option Qc)
    (A' : matrix) (e_min : Qc) :
  SymPDcovmatrix eig A tol = Some (A', e_min) →
  let t := effective_tol tol in
  let floored := (λ x, if decide (x < t) then t else x) <$> (eig (symmetrize A)).1 in
  min_of floored = Some e_min
  ∧ Forall (λ x, e_min ≤ x) floored
  ∧ t ≤ e_min
  ∧ (tol = None → default_tol ≤ e_min ∧ 0 < e_min).
Proof.
  intros H t floored. unfold SymPDcovmatrix in H.
  destruct (negb (is_square A)); [done|].
  subst floored. destruct (eig (symmetrize A)) as [D V]. simpl.
  rewrite diagonal_diag_of, floor_eigenvalues_spec in H. fold t in H.
  set (floored := (λ x, if decide (x < t) then t else x) <$> D) in *.
  destruct (min_of floored) as [m|] eqn:Hm; [|done]. simpl in H.
  injection H as _ <-.
  assert (Forall (λ x, t ≤ x) floored) as Hge.
  { unfold floored. apply Forall_fmap, Forall_forall. intros x _. simpl.
    case_decide; [done | by apply Qcnot_lt_le]. }
  destruct floored as [|a v]; [done|]. simpl in Hm. injection Hm as <-.
  destruct (foldl_py_min_spec a v) as [Hin Hall].
  assert (t ≤ foldl py_min a v) as Htm.
  { by apply (proj1 (Forall_forall _ _) Hge). }
  assert (py_max t (foldl py_min a v) = foldl py_min a v) as ->.
  { unfold py_max. case_decide; [done|].
    apply Qcle_antisym; [done | by apply Qcnot_lt_le]. }
  split; [done|]. split; [done|]. split; [done|].
  intros ->. split; [exact Htm|].
  eapply Qclt_le_trans; [|exact Htm]. compute_done.
Qed.

(** X6.  [sigMatShrinkage] adds lambda_l2 times the mean of the squared
    [sig] to every diagonal entry of a square [sigMat] and leaves the other
    entries as they are; when the square of [np.sqrt] gives the diagonal
    entries back, the amount added is lambda_l2 times the mean of the
    diagonal; with lambda_l2 = 0 the matrix comes back unchanged. *)
Theorem sigMatShrinkage_entries (sigMat : matrix) (lambda_l2 : Qc) :
  is_square sigMat = true →
  let d := length sigMat in
  let m := mean ((λ s, s * s) <$> (np_sqrt <$> diagonal sigMat)) in
  sigMatShrinkage np_sqrt sigMat lambda_l2
  = tabulate d d (λ i j, entry sigMat i j
                         + if decide (i = j) then lambda_l2 * m else 0)
  ∧ (Forall (λ x, np_sqrt x * np_sqrt x = x) (diagonal sigMat) →
     m = mean (diagonal sigMat))
  ∧ (lambda_l2 = 0 → sigMatShrinkage np_sqrt sigMat lambda_l2 = sigMat).
Proof.
  intros Hsq d m.
  assert (DmatSpec.has_shape sigMat d d) as Hshape.
  { split; [done|]. by apply bool_decide_eq_true_1 in Hsq. }
  assert (sigMatShrinkage np_sqrt sigMat lambda_l2
          = tabulate d d (λ i j, entry sigMat i j
                                 + if decide (i = j) then lambda_l2 * m else 0))
    as Hent.
  { unfold sigMatShrinkage. fold d. fold m.
    rewrite (has_shape_tabulate sigMat d d Hshape) at 1.
    unfold eye. rewrite mscale_tabulate, madd_tabulate.
    apply tabulate_ext. intros i j _ _. case_decide; ring. }
  split; [exact Hent|]. split.
  - intros Hsqrt. unfold m. f_equal. rewrite <-list_fmap_compose.
    rewrite <-(list_fmap_id (diagonal sigMat)) at 2.
    apply list_fmap_ext. intros ? x Hx. simpl.
    by apply (Forall_lookup_1 _ _ _ _ Hsqrt Hx).
  - intros ->. rewrite Hent.
    etrans; [|symmetry; apply (has_shape_tabulate sigMat d d Hshape)].
    apply tabulate_ext. intros i j _ _. case_decide; ring.
Qed.

End ConditionerFacts.

Lemma SymPDcovmatrix_symmetric_witness :
  transpose [[1; 0]; [0; default_tol]] = [[1; 0]; [0; default_tol]].
Proof.
  apply (SymPDcovmatrix_symmetric eig_diagonal [[1; 0]; [0; - 1]] None
           [[1; 0]; [0; default_tol]] default_tol).
  compute_done.
Defined.

Lemma SymPDcovmatrix_e_min_witness :
  default_tol ≤ default_tol ∧ 0 < default_tol.
Proof.
  apply (SymPDcovmatrix_e_min eig_diagonal [[1; 0]; [0; - 1]] None
           [[1; 0]; [0; default_tol]] default_tol).
  - compute_done.
  - reflexivity.
Defined.

Lemma sigMatShrinkage_entries_witness :
  sigMatShrinkage sqrt_of_1_4_9 sample_diag149 (1 / 2)
  = tabulate 3 3
      (λ i j, entry sample_diag149 i j
              + if decide (i = j)
                then 1 / 2 * mean ((λ s, s * s)
                                     <$> (sqrt_of_1_4_9 <$> diagonal sample_diag149))
                else 0)
  ∧ mean ((λ s, s * s) <$> (sqrt_of_1_4_9 <$> diagonal sample_diag149))
    = mean (diagonal sample_diag149).
Proof.
  destruct (sigMatShrinkage_entries sqrt_of_1_4_9 sample_diag149 (1 / 2))
    as (H1 & H2 & _); [reflexivity|].
  split; [exact H1|]. apply H2.
  repeat constructor; compute_done.
Defined.

(** ** The problems handed to the solver: shapes *)

Section ShapeFacts.
Import DmatSpec.
Implicit Types (A B M : matrix).

Lemma shape_app A B r r' c :
  has_shape A r c → has_shape B r' c → has_shape (A ++ B) (r + r') c.
Proof.
  intros [Hr Hc] [Hr' Hc']. split.
  - rewrite length_app. lia.
  - by apply Forall_app.
Qed.

Lemma shape_row (row : vec) c : length row = c → has_shape [row] 1 c.
Proof. intros H. split; [done | by repeat constructor]. Qed.

Lemma shape_cons (row : vec) M r c :
  length row = c → has_shape M r c → has_shape (row :: M) (S r) c.
Proof.
  intros H [Hr Hc]. split; [simpl; lia | by apply Forall_cons].
Qed.

Lemma shape_rows_eq M r r' c : has_shape M r c → r = r' → has_shape M r' c.
Proof. by intros H <-. Qed.

Lemma shape_eye r c : has_shape (eye r c) r c.
Proof. split; [apply length_tabulate | apply tabulate_row_lengths]. Qed.

Lemma shape_zeros2 r c : has_shape (zeros2 r c) r c.
Proof.
  unfold zeros2, zeros. split; [apply length_replicate|].
  apply Forall_replicate, length_replicate.
Qed.

Lemma shape_mscale (a : Qc) M r c : has_shape M r c → has_shape (mscale a M) r c.
Proof.
  intros [Hr Hc]. unfold mscale, scale. split; [by rewrite length_fmap|].
  apply Forall_fmap. eapply Forall_impl; [exact Hc|].
  intros row Hrow. simpl. by rewrite length_fmap.
Qed.

Lemma shape_mneg M r c : has_shape M r c → has_shape (mneg M) r c.
Proof.
  intros [Hr Hc]. unfold mneg, neg. split; [by rewrite length_fmap|].
  apply Forall_fmap. eapply Forall_impl; [exact Hc|].
  intros row Hrow. simpl. by rewrite length_fmap.
Qed.

Lemma shape_hstack2 A B r a b :
  has_shape A r a → has_shape B r b → has_shape (hstack2 A B) r (a + b).
Proof.
  unfold hstack2. revert B r. induction A as [|x A IH]; intros B r [Hr Hc] [Hr' Hc'].
  - simpl in *. subst r. by destruct B.
  - destruct B as [|y B]; simpl in *; [lia|].
    apply Forall_cons in Hc as [Hx Hc]. apply Forall_cons in Hc' as [Hy Hc'].
    destruct r as [|r]; [lia|].
    destruct (IH B r) as [Hl Hf]; [split; [lia|done] | split; [lia|done] |].
    split; [simpl; lia|]. apply Forall_cons. split; [|done].
    rewrite length_app. lia.
Qed.

Lemma shape_madd A B r c :
  has_shape A r c → has_shape B r c → has_shape (madd A B) r c.
Proof.
  unfold madd. revert B r. induction A as [|x A IH]; intros B r [Hr Hc] [Hr' Hc'].
  - simpl in *. subst r. by destruct B.
  - destruct B as [|y B]; simpl in *; [lia|].
    apply Forall_cons in Hc as [Hx Hc]. apply Forall_cons in Hc' as [Hy Hc'].
    destruct r as [|r]; [lia|].
    destruct (IH B r) as [Hl Hf]; [split; [lia|done] | split; [lia|done] |].
    split; [simpl; lia|]. apply Forall_cons. split; [|done].
    rewrite length_zip_with. lia.
Qed.

Lemma shape_diag_of (D : vec) : has_shape (diag_of D) (length D) (length D).
Proof.
  unfold diag_of. split; [by rewrite length_imap|].
  apply Forall_forall. intros row Hrow.
  apply list_elem_of_lookup in Hrow as [i Hi].
  rewrite list_lookup_imap in Hi.
  destruct (D !! i) as [x|]; [|done]. simpl in Hi. injection Hi as <-.
  unfold zeros. by rewrite length_insert, length_replicate.
Qed.

Lemma shape_long_short_P d sigMat e_min :
  has_shape sigMat d d → has_shape (long_short_P d sigMat e_min) (3 * d) (3 * d).
Proof.
  intros Hs. unfold long_short_P. apply shape_madd.
  - apply (shape_rows_eq _ (d + 2 * d)); [|lia].
    apply shape_app.
    + replace (3 * d)%nat with (d + 2 * d)%nat by lia.
      apply shape_hstack2; [done | apply shape_zeros2].
    + apply shape_zeros2.
  - pose proof (shape_diag_of (scale (- c01 * e_min) (ones d)
                               ++ scale (c01 * e_min) (ones (2 * d)))) as H.
    unfold scale, ones in H.
    rewrite length_app, !length_fmap, !length_replicate in H.
    by replace (d + 2 * d)%nat with (3 * d)%nat in H by lia.
Qed.

Lemma shape_long_short_Aeq d : has_shape (long_short_Aeq d) (d + 1) (3 * d).
Proof.
  unfold long_short_Aeq. apply shape_app.
  - replace (3 * d)%nat with (d + d + d)%nat by lia.
    repeat apply shape_hstack2; try apply shape_mneg; apply shape_eye.
  - apply shape_row. unfold ones, zeros.
    rewrite !length_app, !length_replicate. lia.
Qed.

Lemma shape_first_difference_block d D :
  Dmat_k1 (Z.of_nat d) = Some D → has_shape D (d - 1) d ∧ (1 ≤ d)%nat.
Proof.
  intros HD. destruct (decide (1 ≤ d)%nat) as [Hd|Hd].
  - rewrite Dmat_k1_first_difference in HD by done. injection HD as <-.
    split; [apply first_difference_shape | done].
  - rewrite Dmat_k1_negative in HD by lia. done.
Qed.

End ShapeFacts.

Section ProblemShapes.
Import DmatSpec.

Lemma Dmat_order_1 (n : Z) : Dmat n 1 = Dmat_k1 n.
Proof. unfold Dmat. by rewrite decide_False, decide_True. Qed.

Local Ltac lengths :=
  unfold scale, neg, ones, zeros;
  rewrite ?length_app, ?length_fmap, ?length_cons, ?length_app, ?length_fmap,
    ?length_replicate, ?length_app, ?length_fmap, ?length_replicate;
  simpl; rewrite ?length_fmap, ?length_replicate; lia.

Local Ltac leaf :=
  first [ apply shape_eye
        | apply shape_long_short_Aeq
        | apply shape_mscale; eassumption
        | apply shape_row; lengths
        | apply shape_hstack2;
          [apply shape_mscale; eassumption | apply shape_zeros2] ].

Local Ltac blocks :=
  repeat (first [ leaf | apply shape_app | apply shape_cons; [lengths|] ]).

(** X7.  The arrays of each of the four problems fit together: for a d×d
    covariance (and d mean returns) the long-only problems have d variables
    and the long-short ones 3d; P is square of that size, q has that many
    entries, every row of A has that many entries, and l and u have one
    entry per row of A. *)
Theorem problems_well_shaped (d : nat) (meanVec : vec) (sigMat : matrix)
    (e_min tau longShort maxAlloc lambda_l1 : Qc) (ordered : bool) (qp : QP) :
  has_shape sigMat d d →
  length meanVec = d →
  (minvar_long_only d sigMat maxAlloc lambda_l1 ordered = Some qp →
   well_shaped qp d (if ordered then 2 * d else d + 1))
  ∧ (minvar_long_short d sigMat e_min longShort maxAlloc lambda_l1 ordered
     = Some qp →
     well_shaped qp (3 * d) (if ordered then 5 * d + 1 else 4 * d + 2))
  ∧ (meanvar_long_only d meanVec sigMat tau maxAlloc lambda_l1 ordered
     = Some qp →
     well_shaped qp d (if ordered then 2 * d + 1 else d + 2))
  ∧ (meanvar_long_short d meanVec sigMat e_min tau longShort maxAlloc
       lambda_l1 ordered = Some qp →
     well_shaped qp (3 * d) (if ordered then 5 * d + 2 else 4 * d + 3)).
Proof.
  intros Hsig Hmean.
  pose proof (shape_long_short_P d sigMat e_min Hsig) as HP.
  split; [|split; [|split]]; intros Hqp.
  - unfold minvar_long_only in Hqp. destruct ordered.
    + destruct (Dmat_k1 (Z.of_nat d)) as [D|] eqn:HD; [|done].
      apply shape_first_difference_block in HD as [HD Hd].
      simpl in Hqp. injection Hqp as <-.
      unfold well_shaped. simpl.
      split; [done|]. split; [case_decide; lengths|].
      split; [|split; lengths].
      eapply shape_rows_eq; [blocks|lia].
    + simpl in Hqp. injection Hqp as <-.
      unfold well_shaped. simpl.
      split; [done|]. split; [case_decide; lengths|].
      split; [|split; lengths].
      eapply shape_rows_eq; [blocks|lia].
  - unfold minvar_long_short in Hqp. destruct ordered.
    + destruct (Dmat_k1 (Z.of_nat d)) as [D|] eqn:HD; [|done].
      apply shape_first_difference_block in HD as [HD Hd].
      simpl in Hqp. injection Hqp as <-.
      unfold well_shaped. simpl.
      split; [done|].
      split; [unfold long_short_meanvec3d; case_decide; lengths|].
      split; [|split; lengths].
      eapply shape_rows_eq; [blocks|lia].
    + simpl in Hqp. injection Hqp as <-.
      unfold well_shaped. simpl.
      split; [done|].
      split; [unfold long_short_meanvec3d; case_decide; lengths|].
      split; [|split; lengths].
      eapply shape_rows_eq; [blocks|lia].
  - unfold meanvar_long_only in Hqp. destruct ordered.
    + rewrite Dmat_order_1 in Hqp.
      destruct (Dmat_k1 (Z.of_nat d)) as [D|] eqn:HD; [|done].
      apply shape_first_difference_block in HD as [HD Hd].
      simpl in Hqp. injection Hqp as <-.
      unfold well_shaped. simpl.
      split; [done|]. split; [case_decide; lengths|].
      split; [|split; lengths].
      eapply shape_rows_eq; [blocks|lia].
    + simpl in Hqp. injection Hqp as <-.
      unfold well_shaped. simpl.
      split; [done|]. split; [case_decide; lengths|].
      split; [|split; lengths].
      eapply shape_rows_eq; [blocks|lia].
  - unfold meanvar_long_short in Hqp. destruct ordered.
    + rewrite Dmat_order_1 in Hqp.
      destruct (Dmat_k1 (Z.of_nat d)) as [D|] eqn:HD; [|done].
      apply shape_first_difference_block in HD as [HD Hd].
      simpl in Hqp. injection Hqp as <-.
      unfold well_shaped. simpl.
      split; [done|].
      split; [unfold long_short_meanvec3d; case_decide; lengths|].
      split; [|split; lengths].
      eapply shape_rows_eq; [blocks|lia].
    + simpl in Hqp. injection Hqp as <-.
      unfold well_shaped. simpl.
      split; [done|].
      split; [unfold long_short_meanvec3d; case_decide; lengths|].
      split; [|split; lengths].
      eapply shape_rows_eq; [blocks|lia].
Qed.

End ProblemShapes.

Lemma problems_well_shaped_witness :
  ∃ qp, minvar_long_short 2 sample_I2 1 1 1 0 true = Some qp
        ∧ well_shaped qp 6 11.
Proof.
  eexists. split; [reflexivity|].
  assert (DmatSpec.has_shape sample_I2 2 2) as Hs
    by (split; [reflexivity | repeat constructor]).
  apply (proj1 (proj2 (problems_well_shaped 2 [0; 0] sample_I2 1 0 1 1 0 true
                         _ Hs eq_refl))).
  reflexivity.
Defined.

(** ** The problems handed to the solver: feasible points *)

Section FeasibleFacts.
Implicit Types (u v w x : vec) (A : matrix) (l : list bound).

Lemma vdot_unit_row (j s : nat) x :
  vdot ((λ j', if decide (j = j') then 1 else 0) <$> seq s (length x)) x
  = if decide (s ≤ j)%nat then default 0 (x !! (j - s)%nat) else 0.
Proof.
  revert s. induction x as [|a x IH]; intros s.
  - simpl. by case_decide.
  - csimpl. rewrite IH.
    destruct (decide (j = s)) as [->|Hne].
    + rewrite decide_False by lia. rewrite decide_True by lia.
      rewrite Nat.sub_diag. simpl. ring.
    + destruct (decide (s ≤ j)%nat) as [Hle|Hgt].
      * rewrite decide_True by lia.
        replace (j - s)%nat with (S (j - S s)) by lia. simpl. ring.
      * rewrite decide_False by lia. ring.
Qed.

Lemma vdot_eye_row (n j : nat) row x (xj : Qc) :
  length x = n → eye n n !! j = Some row → x !! j = Some xj →
  vdot row x = xj.
Proof.
  intros Hn Hrow Hx. unfold eye in Hrow.
  assert (j < n)%nat as Hj by (rewrite <-Hn; by eapply lookup_lt_Some).
  rewrite lookup_tabulate in Hrow by done. injection Hrow as <-.
  rewrite <-Hn, vdot_unit_row. rewrite decide_True by lia.
  by rewrite Nat.sub_0_r, Hx.
Qed.

Lemma vdot_scale_l (c : Qc) u x : vdot (scale c u) x = c * vdot u x.
Proof.
  unfold scale. revert x. induction u as [|a u IH]; intros [|b x]; csimpl;
    try ring. rewrite IH. ring.
Qed.

Lemma vdot_neg_l u x : vdot (neg u) x = - vdot u x.
Proof.
  unfold neg. revert x. induction u as [|a u IH]; intros [|b x]; csimpl;
    try ring. rewrite IH. ring.
Qed.

Lemma of_nat_S (n : nat) : of_nat (S n) = of_nat n + 1.
Proof.
  unfold of_nat. by rewrite Nat2Z.inj_succ, <-Z.add_1_r, Z2Qc_inj_add.
Qed.

Lemma sum_le_bound (c : Qc) x :
  Forall (λ xi, xi ≤ c) x → sum x ≤ of_nat (length x) * c.
Proof.
  induction 1 as [|a x Ha Hx IH]; simpl.
  - replace (of_nat 0) with (Q2Qc 0) by (symmetry; apply Z2Qc_inj_0).
    by rewrite Qcmult_0_l.
  - rewrite of_nat_S.
    replace ((of_nat (length x) + 1) * c) with (c + of_nat (length x) * c)
      by ring.
    by apply Qcplus_le_compat.
Qed.

Lemma rows_within_app A1 A2 l1 l2 (u1 u2 : list bound) x :
  length l1 = length A1 → length u1 = length A1 →
  rows_within (A1 ++ A2) (l1 ++ l2) (u1 ++ u2) x →
  rows_within A1 l1 u1 x ∧ rows_within A2 l2 u2 x.
Proof.
  intros Hl Hu H. split; intros i row lo up Hrow Hlo Hup.
  - apply (H i); by apply lookup_app_l_Some.
  - apply (H (length A1 + i)%nat).
    + rewrite lookup_app_r by lia. by rewrite Nat.add_sub'.
    + rewrite lookup_app_r by lia. rewrite Hl. by rewrite Nat.add_sub'.
    + rewrite lookup_app_r by lia. rewrite Hu. by rewrite Nat.add_sub'.
Qed.

Lemma rows_within_row row (a b : Qc) x :
  rows_within [row] [Fin a] [Fin b] x → a ≤ vdot row x ∧ vdot row x ≤ b.
Proof. intros H. by apply (H O row (Fin a) (Fin b)). Qed.

(** The rows of the box: an identity block between two vectors of bounds. *)
Lemma rows_within_box (n : nat) (LB UB : vec) x :
  length x = n →
  rows_within (eye n n) (Fin <$> LB) (Fin <$> UB) x →
  ∀ j xj lo up, x !! j = Some xj → LB !! j = Some lo → UB !! j = Some up →
                lo ≤ xj ∧ xj ≤ up.
Proof.
  intros Hn H j xj lo up Hx Hlo Hup.
  assert (j < n)%nat as Hj by (rewrite <-Hn; by eapply lookup_lt_Some).
  destruct (lookup_lt_is_Some_2 (eye n n) j) as [row Hrow];
    [unfold eye; by rewrite length_tabulate|].
  rewrite <-(vdot_eye_row n j row x xj Hn Hrow Hx).
  apply (H j row (Fin lo) (Fin up) Hrow); rewrite list_lookup_fmap.
  - by rewrite Hlo.
  - by rewrite Hup.
Qed.

End FeasibleFacts.

Section LongOnlyFeasible.
Import DmatSpec.
Implicit Types (x : vec).

(** The rows of the ordering block: minus the first differences, between
    some lower bounds and zero. *)
Lemma rows_within_ordering (d : nat) (L : vec) x :
  length x = d → length L = (d - 1)%nat →
  rows_within (mscale (-1) (first_difference d)) (Fin <$> L)
              (Fin <$> zeros (d - 1)) x →
  ∀ i a b, x !! i = Some a → x !! S i = Some b → b ≤ a.
Proof.
  intros Hd HL H i a b Ha Hb.
  assert (S i < d)%nat as Hi by (rewrite <-Hd; by eapply lookup_lt_Some).
  destruct (lookup_lt_is_Some_2 (first_difference d) i) as [row Hrow].
  { rewrite (proj1 (first_difference_shape d)). lia. }
  destruct (lookup_lt_is_Some_2 L i) as [lo Hlo]; [lia|].
  assert (vdot row x = a - b) as Hdot.
  { pose proof (matvec_first_difference x) as Hm. rewrite Hd in Hm.
    apply (f_equal (λ l, l !! i)) in Hm. unfold matvec, diff in Hm.
    rewrite list_lookup_fmap, Hrow, lookup_zip_with, Ha in Hm. simpl in Hm.
    rewrite lookup_drop in Hm. simpl in Hm. rewrite Hb in Hm. simpl in Hm.
    by injection Hm. }
  destruct (H i (scale (-1) row) (Fin lo) (Fin 0)) as [_ Hup].
  - unfold mscale. by rewrite list_lookup_fmap, Hrow.
  - by rewrite list_lookup_fmap, Hlo.
  - rewrite list_lookup_fmap. unfold zeros.
    by rewrite lookup_replicate_2 by lia.
  - simpl in Hup. rewrite vdot_scale_l, Hdot in Hup.
    apply Qcle_minus_iff. apply Qcle_minus_iff in Hup.
    by replace (a + - b) with (0 + - (-1 * (a - b))) by ring.
Qed.

Lemma budget_and_box (d : nat) (maxAlloc : Qc) x :
  length x = d →
  rows_within ([ones d] ++ eye d d)
              (Fin <$> [1] ++ zeros d)
              (Fin <$> [1] ++ scale maxAlloc (ones d)) x →
  sum x = 1 ∧ Forall (λ xi, 0 ≤ xi ∧ xi ≤ maxAlloc) x.
Proof.
  intros Hd H. rewrite !fmap_app in H.
  apply rows_within_app in H as [Hbudget Hbox]; [|done..].
  apply rows_within_row in Hbudget as [H1 H2].
  rewrite <-Hd, vdot_ones_l in H1, H2.
  split; [by apply Qcle_antisym|].
  apply Forall_lookup. intros j xj Hx.
  assert (j < d)%nat as Hj by (rewrite <-Hd; by eapply lookup_lt_Some).
  destruct (rows_within_box d (zeros d) (scale maxAlloc (ones d)) x Hd Hbox
              j xj 0 (maxAlloc * 1) Hx) as [Hlo Hup].
  - unfold zeros. by rewrite lookup_replicate_2.
  - unfold scale, ones. by rewrite list_lookup_fmap, lookup_replicate_2.
  - by rewrite Qcmult_1_r in Hup.
Qed.

(** X8.  Every feasible point x of the long-only minimum-variance problem
    is a portfolio: its entries sum to 1 and each lies between 0 and
    [maxAlloc]; so the problem has a feasible point only if
    d · maxAlloc ≥ 1; and with an asset order the entries do not increase
    along the order. *)
Theorem minvar_long_only_feasible (d : nat) (sigMat : matrix)
    (maxAlloc lambda_l1 : Qc) (ordered : bool) (qp : QP) x :
  minvar_long_only d sigMat maxAlloc lambda_l1 ordered = Some qp →
  feasible qp x →
  sum x = 1
  ∧ Forall (λ xi, 0 ≤ xi ∧ xi ≤ maxAlloc) x
  ∧ 1 ≤ of_nat d * maxAlloc
  ∧ (ordered = true →
     ∀ i a b, x !! i = Some a → x !! S i = Some b → b ≤ a).
Proof.
  intros Hqp [Hlen Hrows].
  assert (length x = d ∧
          (sum x = 1 ∧ Forall (λ xi, 0 ≤ xi ∧ xi ≤ maxAlloc) x)
          ∧ (ordered = true →
             ∀ i a b, x !! i = Some a → x !! S i = Some b → b ≤ a))
    as (Hd & [Hsum Hbox] & Hord).
  { unfold minvar_long_only in Hqp. destruct ordered.
    - destruct (Dmat_k1 (Z.of_nat d)) as [D|] eqn:HD; [|done].
      assert (1 ≤ d)%nat as Hd1.
      { destruct (decide (1 ≤ d)%nat); [done|].
        rewrite Dmat_k1_negative in HD by lia. done. }
      rewrite Dmat_k1_first_difference in HD by done. injection HD as <-.
      simpl in Hqp. injection Hqp as <-. simpl in Hlen, Hrows.
      assert (length x = d) as Hd.
      { rewrite Hlen. case_decide; unfold neg, scale, ones, zeros;
          by rewrite !length_fmap, length_replicate. }
      split; [done|].
      change (ones d :: eye d d) with ([ones d] ++ eye d d) in Hrows.
      change (1 :: zeros d) with ([1] ++ zeros d) in Hrows.
      change (1 :: scale maxAlloc (ones d))
        with ([1] ++ scale maxAlloc (ones d)) in Hrows.
      rewrite !(fmap_app Fin) in Hrows.
      apply rows_within_app in Hrows as [Hordering Hrest].
      + split.
        * apply (budget_and_box d maxAlloc x Hd). by rewrite !fmap_app.
        * intros _. apply (rows_within_ordering d (neg (ones (d - 1))) x Hd);
            [|done]. unfold neg, ones. by rewrite length_fmap, length_replicate.
      + unfold mscale, neg, ones.
        rewrite !length_fmap, length_replicate.
        by rewrite (proj1 (first_difference_shape d)).
      + unfold mscale, zeros. rewrite !length_fmap, length_replicate.
        by rewrite (proj1 (first_difference_shape d)).
    - simpl in Hqp. injection Hqp as <-. simpl in Hlen, Hrows.
      assert (length x = d) as Hd.
      { rewrite Hlen. case_decide; unfold neg, scale, ones, zeros;
          by rewrite !length_fmap, length_replicate. }
      split; [done|]. split; [|done].
      by apply (budget_and_box d maxAlloc x Hd). }
  split; [done|]. split; [done|]. split; [|done].
  rewrite <-Hsum, <-Hd. apply sum_le_bound.
  eapply Forall_impl; [exact Hbox|]. by intros xi [_ ?].
Qed.

End LongOnlyFeasible.

Lemma minvar_long_only_feasible_witness :
  ∃ qp, minvar_long_only 2 sample_I2 1 0 true = Some qp
        ∧ sum [1 / 2; 1 / 2] = 1
        ∧ Forall (λ xi, 0 ≤ xi ∧ xi ≤ 1) [1 / 2; 1 / 2].
Proof.
  eexists. split; [reflexivity|].
  destruct (minvar_long_only_feasible 2 sample_I2 1 0 true _ [1 / 2; 1 / 2]
              eq_refl) as (H1 & H2 & _); [|by split].
  split; [reflexivity|].
  intros i row lo up Hrow Hlo Hup.
  destruct i as [|[|[|[|i]]]]; simplify_eq/=; split; compute_done.
Defined.

Section LongShortFeasible.
Import DmatSpec.
Implicit Types (u v w x y : vec).

Lemma sum_pointwise_minus w u v :
  length u = length w → length v = length w →
  (∀ j wj uj vj, w !! j = Some wj → u !! j = Some uj → v !! j = Some vj →
                 wj = uj - vj) →
  sum w = sum u - sum v.
Proof.
  revert u v. induction w as [|a w IH]; intros [|b u] [|c v] Hu Hv H;
    simplify_eq/=; [ring|].
  rewrite (IH u v) by (try done; intros j; apply (H (S j))).
  rewrite (H O a b c) by done. ring.
Qed.

(** A row of the block [np.eye(d), -np.eye(d), np.eye(d)] on (w, u, v). *)
Lemma decomposition_row (d j : nat) w u v (wj uj vj : Qc) :
  length w = d → length u = d → length v = d →
  w !! j = Some wj → u !! j = Some uj → v !! j = Some vj →
  ∃ row,
    hstack2 (hstack2 (eye d d) (mneg (eye d d))) (eye d d) !! j = Some row
    ∧ vdot row (w ++ u ++ v) = wj - uj + vj.
Proof.
  intros Hw Hu Hv Hwj Huj Hvj.
  assert (j < d)%nat as Hj by (rewrite <-Hw; by eapply lookup_lt_Some).
  destruct (lookup_lt_is_Some_2 (eye d d) j) as [e He];
    [unfold eye; by rewrite length_tabulate|].
  assert (length e = d) as Hlen.
  { by apply (Forall_lookup_1 _ _ _ _ (proj2 (shape_eye d d)) He). }
  exists ((e ++ neg e) ++ e). split.
  - unfold hstack2, mneg.
    by rewrite !lookup_zip_with, list_lookup_fmap, He.
  - rewrite <-app_assoc.
    rewrite vdot_app by lia.
    rewrite vdot_app by (unfold neg; rewrite length_fmap; lia).
    rewrite vdot_neg_l.
    rewrite (vdot_eye_row d j e w wj), (vdot_eye_row d j e u uj),
      (vdot_eye_row d j e v vj) by done.
    ring.
Qed.

Lemma budget_row_times_wuv (d : nat) w u v :
  length w = d →
  vdot (ones d ++ zeros d ++ zeros d) (w ++ u ++ v) = sum w.
Proof.
  intros Hw. unfold ones.
  rewrite vdot_app by (by rewrite length_replicate).
  rewrite <-Hw. change (replicate (length w) 1) with (ones (length w)).
  rewrite vdot_ones_l.
  change (zeros (length w) ++ zeros (length w)) with
    (replicate (length w) (Q2Qc 0) ++ replicate (length w) (Q2Qc 0)).
  rewrite <-replicate_add.
  change (replicate (length w + length w) (Q2Qc 0))
    with (zeros (length w + length w)).
  rewrite (vdot_zeros_l _ (u ++ v)). ring.
Qed.

(** The equality block, the box and the first row of a long-short problem
    on a point (w, u, v). *)
Lemma long_short_common (d : nat) (longShort maxAlloc : Qc) w u v
    (Grenze := py_min (np_abs longShort) maxAlloc) :
  length w = d → length u = d → length v = d →
  rows_within (long_short_Aeq d ++ eye (3 * d) (3 * d))
    (Fin <$> (zeros d ++ [1]) ++ scale (- Grenze) (ones d) ++ zeros (2 * d))
    (Fin <$> (zeros d ++ [1]) ++ scale maxAlloc (ones (3 * d)))
    (w ++ u ++ v) →
  sum w = 1
  ∧ (∀ j wj uj vj, w !! j = Some wj → u !! j = Some uj → v !! j = Some vj →
                   wj = uj - vj)
  ∧ Forall (λ wi, - Grenze ≤ wi ∧ wi ≤ maxAlloc) w
  ∧ Forall (λ ui, 0 ≤ ui ∧ ui ≤ maxAlloc) u
  ∧ Forall (λ vi, 0 ≤ vi ∧ vi ≤ maxAlloc) v.
Proof.
  intros Hw Hu Hv H. rewrite !(fmap_app Fin) in H.
  rewrite !app_assoc in H. rewrite <-!(app_assoc (Fin <$> zeros d)) in H.
  unfold long_short_Aeq in H. rewrite <-!app_assoc in H.
  assert (length (hstack2 (hstack2 (eye d d) (mneg (eye d d))) (eye d d)) = d)
    as HlenA.
  { apply (proj1 (shape_hstack2 _ _ d (d + d) d
                    (shape_hstack2 _ _ d d d (shape_eye d d)
                       (shape_mneg _ _ _ (shape_eye d d)))
                    (shape_eye d d))). }
  apply rows_within_app in H as [Hdec H];
    [|unfold zeros; by rewrite length_fmap, length_replicate..].
  change ([ones d ++ zeros d ++ zeros d] ++ eye (3 * d) (3 * d))
    with ([ones d ++ zeros d ++ zeros d] ++ eye (3 * d) (3 * d)) in H.
  apply (rows_within_app [ones d ++ zeros d ++ zeros d] _ [Fin 1] _ [Fin 1])
    in H as [Hbudget Hbox]; [|done..].
  apply rows_within_row in Hbudget as [Hb1 Hb2].
  rewrite budget_row_times_wuv in Hb1, Hb2 by done.
  assert (length (w ++ u ++ v) = (3 * d)%nat) as Hx
    by (rewrite !length_app; lia).
  rewrite <-!fmap_app in Hbox.
  pose proof (rows_within_box (3 * d) _ _ _ Hx Hbox) as Hbx.
  split; [by apply Qcle_antisym|]. split; [|split; [|split]].
  - intros j wj uj vj Hwj Huj Hvj.
    destruct (decomposition_row d j w u v wj uj vj) as (row & Hrow & Hdot);
      try done.
    assert (j < d)%nat as Hj by (rewrite <-Hw; by eapply lookup_lt_Some).
    destruct (Hdec j row (Fin 0) (Fin 0) Hrow) as [H1 H2];
      [unfold zeros; by rewrite list_lookup_fmap, lookup_replicate_2..|].
    simpl in H1, H2. rewrite Hdot in H1, H2.
    assert (wj - uj + vj = 0) as H0 by (by apply Qcle_antisym).
    replace wj with (wj - uj + vj + (uj - vj)) by ring. rewrite H0. ring.
  - apply Forall_lookup. intros j wj Hwj.
    assert (j < d)%nat as Hj by (rewrite <-Hw; by eapply lookup_lt_Some).
    destruct (Hbx j wj (- Grenze * 1) (maxAlloc * 1)) as [H1 H2].
    + by apply lookup_app_l_Some.
    + apply lookup_app_l_Some. unfold scale, ones.
      by rewrite list_lookup_fmap, lookup_replicate_2.
    + unfold scale, ones. rewrite list_lookup_fmap, lookup_replicate_2 by lia.
      done.
    + by rewrite !Qcmult_1_r in H1, H2.
  - apply Forall_lookup. intros j uj Huj.
    assert (j < d)%nat as Hj by (rewrite <-Hu; by eapply lookup_lt_Some).
    destruct (Hbx (d + j)%nat uj 0 (maxAlloc * 1)) as [H1 H2].
    + rewrite lookup_app_r by lia. rewrite Hw, Nat.add_sub'.
      by apply lookup_app_l_Some.
    + rewrite lookup_app_r;
        unfold scale, ones; rewrite length_fmap, length_replicate; [|lia].
      rewrite Nat.add_sub'. unfold zeros. by rewrite lookup_replicate_2 by lia.
    + unfold scale, ones. rewrite list_lookup_fmap, lookup_replicate_2 by lia.
      done.
    + by rewrite !Qcmult_1_r in H2.
  - apply Forall_lookup. intros j vj Hvj.
    assert (j < d)%nat as Hj by (rewrite <-Hv; by eapply lookup_lt_Some).
    destruct (Hbx (d + (d + j))%nat vj 0 (maxAlloc * 1)) as [H1 H2].
    + rewrite lookup_app_r by lia. rewrite Hw, Nat.add_sub'.
      rewrite lookup_app_r by lia. by rewrite Hu, Nat.add_sub'.
    + rewrite lookup_app_r;
        unfold scale, ones; rewrite length_fmap, length_replicate; [|lia].
      rewrite Nat.add_sub'. unfold zeros. by rewrite lookup_replicate_2 by lia.
    + unfold scale, ones. rewrite list_lookup_fmap, lookup_replicate_2 by lia.
      done.
    + by rewrite !Qcmult_1_r in H2.
Qed.

End LongShortFeasible.

Section LongShortProblems.
Import DmatSpec.
Implicit Types (u v w x y : vec).

Lemma rows_within_first A (l ub : list bound) x row (a b : Qc) :
  A !! O = Some row → l !! O = Some (Fin a) → ub !! O = Some (Fin b) →
  rows_within A l ub x → a ≤ vdot row x ∧ vdot row x ≤ b.
Proof. intros HA Hl Hu H. by apply (H O row (Fin a) (Fin b)). Qed.

(** What every long-short problem has in common: some first rows, of which
    the first is the row of C4, then the equality block and the box. *)
Lemma long_short_core (d : nat) (longShort maxAlloc : Qc)
    (A1 : matrix) (l1 u1 : list bound) w u v
    (Grenze := py_min (np_abs longShort) maxAlloc) :
  length w = d → length u = d → length v = d →
  length l1 = length A1 → length u1 = length A1 →
  A1 !! O = Some (zeros d ++ ones d ++ zeros d) →
  l1 !! O = Some (Fin 0) →
  u1 !! O = Some (Fin (1 + np_abs longShort)) →
  rows_within (A1 ++ long_short_Aeq d ++ eye (3 * d) (3 * d))
    (l1 ++ (Fin <$> (zeros d ++ [1]) ++ scale (- Grenze) (ones d)
                     ++ zeros (2 * d)))
    (u1 ++ (Fin <$> (zeros d ++ [1]) ++ scale maxAlloc (ones (3 * d))))
    (w ++ u ++ v) →
  rows_within A1 l1 u1 (w ++ u ++ v)
  ∧ sum w = 1
  ∧ (∀ j wj uj vj, w !! j = Some wj → u !! j = Some uj → v !! j = Some vj →
                   wj = uj - vj)
  ∧ Forall (λ wi, - Grenze ≤ wi ∧ wi ≤ maxAlloc) w
  ∧ Forall (λ ui, 0 ≤ ui ∧ ui ≤ maxAlloc) u
  ∧ Forall (λ vi, 0 ≤ vi ∧ vi ≤ maxAlloc) v
  ∧ sum u ≤ 1 + np_abs longShort
  ∧ sum v ≤ np_abs longShort
  ∧ 1 ≤ of_nat d * maxAlloc.
Proof.
  intros Hw Hu Hv Hl1 Hu1 HA0 Hl0 Hu0 H.
  apply rows_within_app in H as [H1 H]; [|done..].
  destruct (long_short_common d longShort maxAlloc w u v Hw Hu Hv H)
    as (Hsum & Hdec & Hbw & Hbu & Hbv).
  destruct (rows_within_first _ _ _ _ _ _ _ HA0 Hl0 Hu0 H1) as [_ Hgross].
  rewrite first_row_times_wuv in Hgross by done.
  pose proof (sum_pointwise_minus w u v) as Hminus.
  rewrite Hsum in Hminus.
  assert (sum v = sum u - 1) as Hsv.
  { rewrite (Hminus ltac:(lia) ltac:(lia) Hdec). ring. }
  repeat (split; [done|]). split.
  - rewrite Hsv. apply Qcle_minus_iff.
    replace (np_abs longShort + - (sum u - 1))
      with (1 + np_abs longShort + - sum u) by ring.
    apply (proj1 (Qcle_minus_iff _ _)). exact Hgross.
  - rewrite <-Hsum, <-Hw. apply sum_le_bound.
    eapply Forall_impl; [exact Hbw|]. by intros wi [_ ?].
Qed.

(** Rows padded with zeros see only the first block of the point. *)
Lemma rows_within_padded (A : matrix) (l ub : list bound) w y (c : nat) :
  Forall (λ row : vec, length row = length w) A →
  rows_within (hstack2 A (zeros2 (length A) c)) l ub (w ++ y) →
  rows_within A l ub w.
Proof.
  intros Hlen H i row lo up Hrow Hlo Hup.
  assert (i < length A)%nat as Hi by (by eapply lookup_lt_Some).
  pose proof (Forall_lookup_1 _ _ _ _ Hlen Hrow) as Hr. simpl in Hr.
  replace (vdot row w) with (vdot (row ++ zeros c) (w ++ y)).
  - apply (H i); [|done..]. unfold hstack2, zeros2.
    by rewrite lookup_zip_with, Hrow, lookup_replicate_2.
  - rewrite vdot_app by done. rewrite vdot_zeros_l. ring.
Qed.

(** X9.  Every feasible point (w, u, v) of the long-short minimum-variance
    problem satisfies: the entries of w sum to 1; w = u − v entry by entry;
    each entry of w lies between −min(|longShort|, maxAlloc) and
    [maxAlloc], each entry of u and v between 0 and [maxAlloc]; the sum of
    u is at most 1 + |longShort| and the sum of v at most |longShort|; so
    the problem has a feasible point only if d · maxAlloc ≥ 1; and with an
    asset order the entries of w do not increase along the order. *)
Theorem minvar_long_short_feasible (d : nat) (sigMat : matrix)
    (e_min longShort maxAlloc lambda_l1 : Qc) (ordered : bool) (qp : QP)
    w u v (Grenze := py_min (np_abs longShort) maxAlloc) :
  length w = d → length u = d → length v = d →
  minvar_long_short d sigMat e_min longShort maxAlloc lambda_l1 ordered
  = Some qp →
  feasible qp (w ++ u ++ v) →
  sum w = 1
  ∧ (∀ j wj uj vj, w !! j = Some wj → u !! j = Some uj → v !! j = Some vj →
                   wj = uj - vj)
  ∧ Forall (λ wi, - Grenze ≤ wi ∧ wi ≤ maxAlloc) w
  ∧ Forall (λ ui, 0 ≤ ui ∧ ui ≤ maxAlloc) u
  ∧ Forall (λ vi, 0 ≤ vi ∧ vi ≤ maxAlloc) v
  ∧ sum u ≤ 1 + np_abs longShort
  ∧ sum v ≤ np_abs longShort
  ∧ 1 ≤ of_nat d * maxAlloc
  ∧ (ordered = true →
     ∀ i a b, w !! i = Some a → w !! S i = Some b → b ≤ a).
Proof.
  intros Hw Hu Hv Hqp [_ Hrows].
  unfold minvar_long_short in Hqp. destruct ordered.
  - destruct (Dmat_k1 (Z.of_nat d)) as [D|] eqn:HD; [|done].
    assert (1 ≤ d)%nat as Hd1.
    { destruct (decide (1 ≤ d)%nat); [done|].
      rewrite Dmat_k1_negative in HD by lia. done. }
    rewrite Dmat_k1_first_difference in HD by done. injection HD as <-.
    simpl in Hqp. injection Hqp as <-. simpl in Hrows.
    pose proof (first_difference_shape d) as [HDr HDc].
    set (B := hstack2 (mscale (-1) (first_difference d)) (zeros2 (d - 1) (2 * d)))
      in *.
    assert (length B = (d - 1)%nat) as HB.
    { apply (proj1 (shape_hstack2 _ _ (d - 1) d (2 * d)
                      (shape_mscale _ _ _ _ (first_difference_shape d))
                      (shape_zeros2 _ _))). }
    set (L := scale (- (1 + 2 * Grenze)) (ones (d - 1))) in *.
    assert (length L = (d - 1)%nat) as HL.
    { unfold L, scale, ones. by rewrite length_fmap, length_replicate. }
    destruct (long_short_core d longShort maxAlloc
                ((zeros d ++ ones d ++ zeros d) :: B)
                (Fin <$> 0 :: L)
                (Fin <$> (1 + np_abs longShort) :: zeros (d - 1))
                w u v Hw Hu Hv) as (H1 & Hrest); try done.
    { rewrite length_fmap. simpl. lia. }
    { unfold zeros. rewrite length_fmap. simpl. rewrite length_replicate. lia. }
    { fold Grenze. rewrite <-!fmap_app. simpl. exact Hrows. }
    destruct Hrest as (?&?&?&?&?&?&?&?).
    repeat (split; [done|]). intros _.
    change (rows_within ([zeros d ++ ones d ++ zeros d] ++ B)
              ([Fin 0] ++ (Fin <$> L))
              ([Fin (1 + np_abs longShort)] ++ (Fin <$> zeros (d - 1)))
              (w ++ u ++ v)) in H1.
    apply (rows_within_app [zeros d ++ ones d ++ zeros d] B
             [Fin 0] (Fin <$> L) [Fin (1 + np_abs longShort)]
             (Fin <$> zeros (d - 1))) in H1 as [_ Hord]; [|done..].
    apply (rows_within_ordering d L w Hw HL).
    apply (rows_within_padded _ _ _ w (u ++ v) (2 * d)).
    + unfold mscale, scale. apply Forall_fmap.
      eapply Forall_impl; [exact HDc|]. intros row Hrow. simpl in *.
      rewrite length_fmap. lia.
    + unfold mscale at 2. rewrite length_fmap, HDr. exact Hord.
  - simpl in Hqp. injection Hqp as <-. simpl in Hrows.
    destruct (long_short_core d longShort maxAlloc
                [zeros d ++ ones d ++ zeros d] [Fin 0]
                [Fin (1 + np_abs longShort)] w u v Hw Hu Hv)
      as (H1 & Hrest); try done.
    destruct Hrest as (?&?&?&?&?&?&?&?).
    repeat (split; [done|]). done.
Qed.

End LongShortProblems.

Lemma minvar_long_short_feasible_witness :
  ∃ qp, minvar_long_short 2 sample_I2 1 (1 / 2) 1 0 true = Some qp
        ∧ sum [1 / 2; 1 / 2] = 1
        ∧ sum [0; 0] ≤ np_abs (1 / 2).
Proof.
  eexists. split; [reflexivity|].
  destruct (minvar_long_short_feasible 2 sample_I2 1 (1 / 2) 1 0 true _
              [1 / 2; 1 / 2] [1 / 2; 1 / 2] [0; 0] eq_refl eq_refl eq_refl
              eq_refl) as (H1 & _ & _ & _ & _ & _ & H2 & _); [|by split].
  split; [reflexivity|].
  intros i row lo up Hrow Hlo Hup.
  do 11 (destruct i as [|i]; [simplify_eq/=; split; compute_done|]).
  simpl in Hrow. done.
Defined.

Section MeanVarianceProblems.
Import DmatSpec.
Implicit Types (u v w x y : vec).

Lemma return_row (meanVec : vec) (tau : Qc) x :
  within NegInf (vdot (neg meanVec) x) (Fin (- tau)) → tau ≤ vdot meanVec x.
Proof.
  intros [_ H]. rewrite vdot_neg_l in H. by apply Qcopp_le_compat in H;
    rewrite !Qcopp_involutive in H.
Qed.

(** X10.  Every feasible point x of the long-only mean-variance problem is
    a portfolio (entries between 0 and [maxAlloc] that sum to 1) whose mean
    return meanVec · x is at least the daily target handed to the problem;
    with an asset order its entries do not increase along the order. *)
Theorem meanvar_long_only_feasible (d : nat) (meanVec : vec) (sigMat : matrix)
    (tau maxAlloc lambda_l1 : Qc) (ordered : bool) (qp : QP) x :
  length meanVec = d →
  meanvar_long_only d meanVec sigMat tau maxAlloc lambda_l1 ordered = Some qp →
  feasible qp x →
  sum x = 1
  ∧ Forall (λ xi, 0 ≤ xi ∧ xi ≤ maxAlloc) x
  ∧ tau ≤ vdot meanVec x
  ∧ (ordered = true →
     ∀ i a b, x !! i = Some a → x !! S i = Some b → b ≤ a).
Proof.
  intros Hmean Hqp [Hlen Hrows].
  unfold meanvar_long_only in Hqp. destruct ordered.
  - rewrite Dmat_order_1 in Hqp.
    destruct (Dmat_k1 (Z.of_nat d)) as [D|] eqn:HD; [|done].
    assert (1 ≤ d)%nat as Hd1.
    { destruct (decide (1 ≤ d)%nat); [done|].
      rewrite Dmat_k1_negative in HD by lia. done. }
    rewrite Dmat_k1_first_difference in HD by done. injection HD as <-.
    simpl in Hqp. injection Hqp as <-. simpl in Hlen, Hrows.
    assert (length x = d) as Hd.
    { rewrite Hlen. case_decide; unfold neg, scale, ones, zeros;
        rewrite !length_fmap, ?length_replicate; done. }
    pose proof (first_difference_shape d) as [HDr HDc].
    set (L := neg (ones (d - 1))) in *.
    assert (length L = (d - 1)%nat) as HL.
    { unfold L, neg, ones. by rewrite length_fmap, length_replicate. }
    rewrite !(fmap_app Fin) in Hrows.
    change (rows_within
              (([neg meanVec] ++ mscale (-1) (first_difference d))
               ++ [ones d] ++ eye d d)
              (([NegInf] ++ (Fin <$> L)) ++ (Fin <$> [1] ++ zeros d))
              (([Fin (- tau)] ++ (Fin <$> zeros (d - 1)))
               ++ (Fin <$> [1] ++ scale maxAlloc (ones d))) x) in Hrows.
    apply rows_within_app in Hrows as [Hfirst Hrest].
    2,3: unfold mscale, zeros; rewrite !length_app, !length_fmap,
           ?length_replicate; simpl; lia.
    apply rows_within_app in Hfirst as [Hret Hord]; [|done..].
    destruct (budget_and_box d maxAlloc x Hd Hrest) as [Hsum Hbox].
    split; [done|]. split; [done|]. split.
    + apply return_row. by apply (Hret O (neg meanVec) NegInf (Fin (- tau))).
    + intros _. by apply (rows_within_ordering d L x Hd HL).
  - simpl in Hqp. injection Hqp as <-. simpl in Hlen, Hrows.
    assert (length x = d) as Hd.
    { rewrite Hlen. case_decide; unfold neg, scale, ones, zeros;
        rewrite !length_fmap, ?length_replicate; done. }
    change (rows_within ([neg meanVec] ++ [ones d] ++ eye d d)
              ([NegInf] ++ (Fin <$> [1] ++ zeros d))
              ([Fin (- tau)] ++ (Fin <$> [1] ++ scale maxAlloc (ones d))) x)
      in Hrows.
    apply rows_within_app in Hrows as [Hret Hrest]; [|done..].
    destruct (budget_and_box d maxAlloc x Hd Hrest) as [Hsum Hbox].
    split; [done|]. split; [done|]. split; [|done].
    apply return_row. by apply (Hret O (neg meanVec) NegInf (Fin (- tau))).
Qed.

(** X11.  Every feasible point (w, u, v) of the long-short mean-variance
    problem satisfies what the points of the long-short minimum-variance
    problem satisfy (budget, w = u − v, box, the bounds on the sums of u
    and of v), and its mean return meanVec · w is at least the daily target
    handed to the problem; with an order, w is non-increasing along it. *)
Theorem meanvar_long_short_feasible (d : nat) (meanVec : vec) (sigMat : matrix)
    (e_min tau longShort maxAlloc lambda_l1 : Qc) (ordered : bool) (qp : QP)
    w u v (Grenze := py_min (np_abs longShort) maxAlloc) :
  length w = d → length u = d → length v = d → length meanVec = d →
  meanvar_long_short d meanVec sigMat e_min tau longShort maxAlloc lambda_l1
    ordered = Some qp →
  feasible qp (w ++ u ++ v) →
  sum w = 1
  ∧ (∀ j wj uj vj, w !! j = Some wj → u !! j = Some uj → v !! j = Some vj →
                   wj = uj - vj)
  ∧ Forall (λ wi, - Grenze ≤ wi ∧ wi ≤ maxAlloc) w
  ∧ Forall (λ ui, 0 ≤ ui ∧ ui ≤ maxAlloc) u
  ∧ Forall (λ vi, 0 ≤ vi ∧ vi ≤ maxAlloc) v
  ∧ sum u ≤ 1 + np_abs longShort
  ∧ sum v ≤ np_abs longShort
  ∧ 1 ≤ of_nat d * maxAlloc
  ∧ tau ≤ vdot meanVec w
  ∧ (ordered = true →
     ∀ i a b, w !! i = Some a → w !! S i = Some b → b ≤ a).
Proof.
  intros Hw Hu Hv Hmean Hqp [_ Hrows].
  assert (∀ A1 l1 (ub : list bound),
            A1 !! 1%nat = Some (neg meanVec ++ zeros (2 * d)) →
            l1 !! 1%nat = Some NegInf → ub !! 1%nat = Some (Fin (- tau)) →
            rows_within A1 l1 ub (w ++ u ++ v) → tau ≤ vdot meanVec w) as Hret.
  { intros A1 l1 ub HA Hl Hu1 H1.
    pose proof (H1 1%nat _ _ _ HA Hl Hu1) as Hr.
    rewrite vdot_app in Hr by (unfold neg; rewrite length_fmap; lia).
    rewrite vdot_zeros_l, Qcplus_0_r in Hr. by apply return_row. }
  unfold meanvar_long_short in Hqp. destruct ordered.
  - rewrite Dmat_order_1 in Hqp.
    destruct (Dmat_k1 (Z.of_nat d)) as [D|] eqn:HD; [|done].
    assert (1 ≤ d)%nat as Hd1.
    { destruct (decide (1 ≤ d)%nat); [done|].
      rewrite Dmat_k1_negative in HD by lia. done. }
    rewrite Dmat_k1_first_difference in HD by done. injection HD as <-.
    simpl in Hqp. injection Hqp as <-. simpl in Hrows.
    pose proof (first_difference_shape d) as [HDr HDc].
    set (B := hstack2 (mscale (-1) (first_difference d)) (zeros2 (d - 1) (2 * d)))
      in *.
    assert (length B = (d - 1)%nat) as HB.
    { apply (proj1 (shape_hstack2 _ _ (d - 1) d (2 * d)
                      (shape_mscale _ _ _ _ (first_difference_shape d))
                      (shape_zeros2 _ _))). }
    set (L := scale (- (1 + 2 * Grenze)) (ones (d - 1))) in *.
    assert (length L = (d - 1)%nat) as HL.
    { unfold L, scale, ones. by rewrite length_fmap, length_replicate. }
    destruct (long_short_core d longShort maxAlloc
                ((zeros d ++ ones d ++ zeros d)
                 :: (neg meanVec ++ zeros (2 * d)) :: B)
                (Fin 0 :: NegInf :: (Fin <$> L))
                (Fin <$> (1 + np_abs longShort) :: - tau :: zeros (d - 1))
                w u v Hw Hu Hv) as (H1 & Hrest); try done.
    { simpl. rewrite length_fmap. lia. }
    { simpl. unfold zeros. rewrite length_fmap, length_replicate. lia. }
    { rewrite (fmap_app Fin (zeros (d - 1))) in Hrows. exact Hrows. }
    destruct Hrest as (?&?&?&?&?&?&?&?).
    repeat (split; [done|]).
    split; [refine (Hret _ _ _ _ _ _ H1); reflexivity|]. intros _.
    change (rows_within
              ([zeros d ++ ones d ++ zeros d; neg meanVec ++ zeros (2 * d)]
               ++ B)
              ([Fin 0; NegInf] ++ (Fin <$> L))
              ([Fin (1 + np_abs longShort); Fin (- tau)]
               ++ (Fin <$> zeros (d - 1)))
              (w ++ u ++ v)) in H1.
    apply (rows_within_app
             [zeros d ++ ones d ++ zeros d; neg meanVec ++ zeros (2 * d)] B
             [Fin 0; NegInf] (Fin <$> L)
             [Fin (1 + np_abs longShort); Fin (- tau)]
             (Fin <$> zeros (d - 1))) in H1 as [_ Hord]; [|done..].
    apply (rows_within_ordering d L w Hw HL).
    apply (rows_within_padded _ _ _ w (u ++ v) (2 * d)).
    + unfold mscale, scale. apply Forall_fmap.
      eapply Forall_impl; [exact HDc|]. intros row Hrow. simpl in *.
      rewrite length_fmap. lia.
    + unfold mscale at 2. rewrite length_fmap, HDr. exact Hord.
  - simpl in Hqp. injection Hqp as <-. simpl in Hrows.
    destruct (long_short_core d longShort maxAlloc
                [zeros d ++ ones d ++ zeros d; neg meanVec ++ zeros (2 * d)]
                [Fin 0; NegInf]
                [Fin (1 + np_abs longShort); Fin (- tau)] w u v Hw Hu Hv)
      as (H1 & Hrest); try done.
    destruct Hrest as (?&?&?&?&?&?&?&?).
    repeat (split; [done|]).
    split; [refine (Hret _ _ _ _ _ _ H1); reflexivity|done].
Qed.

End MeanVarianceProblems.

Lemma meanvar_long_only_feasible_witness :
  ∃ qp, meanvar_long_only 2 [1; 1 + 2] sample_I2 1 1 0 true = Some qp
        ∧ sum [1 / 2; 1 / 2] = 1
        ∧ 1 ≤ vdot [1; 1 + 2] [1 / 2; 1 / 2].
Proof.
  eexists. split; [reflexivity|].
  destruct (meanvar_long_only_feasible 2 [1; 1 + 2] sample_I2 1 1 0 true _
              [1 / 2; 1 / 2] eq_refl eq_refl) as (H1 & _ & H2 & _); [|by split].
  split; [reflexivity|].
  intros i row lo up Hrow Hlo Hup.
  do 5 (destruct i as [|i]; [simplify_eq/=; split; compute_done|]).
  simpl in Hrow. done.
Defined.

Lemma meanvar_long_short_feasible_witness :
  ∃ qp, meanvar_long_short 2 [1; 1 + 2] sample_I2 1 1 (1 / 2) 1 0 true = Some qp
        ∧ sum [Q2Qc (3 # 4); Q2Qc (1 # 4)] = 1
        ∧ 1 ≤ vdot [1; 1 + 2] [Q2Qc (3 # 4); Q2Qc (1 # 4)]
        ∧ Q2Qc (1 # 4) ≤ Q2Qc (3 # 4).
Proof.
  eexists. split; [reflexivity|].
  destruct (meanvar_long_short_feasible 2 [1; 1 + 2] sample_I2 1 1 (1 / 2) 1 0
              true _ [Q2Qc (3 # 4); Q2Qc (1 # 4)] [1; 1 / 2]
              [Q2Qc (1 # 4); Q2Qc (1 # 4)]
              eq_refl eq_refl eq_refl eq_refl eq_refl)
    as (H1 & _ & _ & _ & _ & _ & _ & _ & H2 & H3).
  - split; [reflexivity|].
    intros i row lo up Hrow Hlo Hup.
    do 12 (destruct i as [|i]; [simplify_eq/=; split; compute_done|]).
    simpl in Hrow. done.
  - split; [exact H1|]. split; [exact H2|].
    by apply (H3 eq_refl O).
Defined.

(** ** The window without missing values *)

Section CheckMissingFacts.

Import Np.

Lemma select_cons {T} (b : bool) (keep : list bool) (x : T) (l : list T) :
  select (b :: keep) (x :: l)
  = if b then x :: select keep l else select keep l.
Proof.
  unfold select. simpl. rewrite filter_cons. simpl.
  destruct b; case_decide; try done.
Qed.

Lemma select_sublist {T} (keep : list bool) (l : list T) :
  select keep l `sublist_of` l.
Proof.
  revert keep. induction l as [|x l IH]; intros [|b keep]; try done.
  - unfold select. simpl. apply sublist_nil_l.
  - rewrite select_cons. destruct b.
    + by apply sublist_skip.
    + by apply sublist_cons.
Qed.

Lemma length_select {T} (keep : list bool) (l : list T) :
  length l = length keep →
  length (select keep l) = length (filter (λ b, b = true) keep).
Proof.
  revert keep. induction l as [|x l IH]; intros [|b keep] Hlen; try done.
  rewrite select_cons, filter_cons. simpl in Hlen.
  destruct b; case_decide; try done; simpl; rewrite IH by lia; done.
Qed.

Lemma elem_of_select {T} (keep : list bool) (l : list T) (x : T) :
  x ∈ select keep l ↔ ∃ j, l !! j = Some x ∧ keep !! j = Some true.
Proof.
  revert keep. induction l as [|y l IH]; intros [|b keep].
  - unfold select. simpl. split; [by intros ?%elem_of_nil|by intros (j & ? & ?)].
  - unfold select. simpl. split; [by intros ?%elem_of_nil|by intros (j & ? & ?)].
  - unfold select. simpl. split; [by intros ?%elem_of_nil|by intros (j & ? & ?)].
  - rewrite select_cons. destruct b.
    + rewrite elem_of_cons, IH. split.
      * intros [->|(j & ? & ?)]; [by exists O|by exists (S j)].
      * intros ([|j] & Hl & Hk); simplify_eq/=; [by left|right; by exists j].
    + rewrite IH. split.
      * intros (j & ? & ?). by exists (S j).
      * intros ([|j] & Hl & Hk); simplify_eq/=. by exists j.
Qed.

(** The flag of column [j] in [check_missing]. *)
Lemma flag_lookup (cols : list string) (rows : list (list cell)) (j : nat) :
  ((λ j, forallb (λ row : list cell, bool_decide (is_Some (mjoin (row !! j)))) rows)
     <$> seq 0 (length cols)) !! j = Some true
  ↔ (j < length cols)%nat ∧ ∀ row, row ∈ rows → is_Some (mjoin (row !! j)).
Proof.
  rewrite list_lookup_fmap. split.
  - intros H. destruct (seq 0 (length cols) !! j) as [j'|] eqn:Hj; [|done].
    apply lookup_seq in Hj as [-> Hj]. simpl in H. injection H as H.
    split; [done|]. intros row Hrow.
    rewrite forallb_forall in H. apply list_elem_of_In, H in Hrow.
    by apply bool_decide_eq_true in Hrow.
  - intros [Hj H]. rewrite (lookup_seq_lt _ _ _ Hj). simpl. f_equal.
    apply forallb_forall. intros row Hrow. apply bool_decide_eq_true, H.
    by apply list_elem_of_In.
Qed.

(** X12. [check_missing] keeps the tickers, in their order, whose column has
    no missing value; what it returns has one row more than the window, the
    row of the flags, all ones; every row is as wide as the tickers kept and
    no cell of it is missing. *)
Theorem check_missing_complete (cols : list string) (rows : list (list cell)) :
  Forall (λ row : list cell, length row = length cols) rows →
  let kept := (check_missing cols rows).1 in
  let out := (check_missing cols rows).2 in
  kept `sublist_of` cols
  ∧ (∀ c, c ∈ kept ↔
          ∃ j, cols !! j = Some c
               ∧ ∀ row, row ∈ rows → is_Some (mjoin (row !! j)))
  ∧ length out = S (length rows)
  ∧ last out = Some ((λ _, Some 1) <$> kept)
  ∧ Forall (λ row : list cell,
              length row = length kept ∧ Forall is_Some row) out.
Proof.
  intros Hrect kept out. unfold check_missing in kept, out. simpl in kept, out.
  set (flag := (λ j, forallb _ rows) <$> seq 0 (length cols)) in *.
  assert (length flag = length cols) as Hflag.
  { unfold flag. by rewrite length_fmap, length_seq. }
  split; [apply select_sublist|]. split.
  { intros c. unfold kept. rewrite elem_of_select. split.
    - intros (j & Hc & Hj). exists j. split; [done|].
      by apply (flag_lookup cols rows j).
    - intros (j & Hc & Hj). exists j. split; [done|].
      apply (flag_lookup cols rows j). split; [|done].
      by apply lookup_lt_Some in Hc. }
  split. { unfold out. rewrite length_app, length_fmap. simpl. lia. }
  split. { unfold out. by rewrite last_snoc. }
  unfold out. apply Forall_app. split.
  - apply Forall_fmap, Forall_forall. intros row Hrow. simpl. split.
    + rewrite Forall_forall in Hrect. specialize (Hrect row Hrow).
      unfold kept. rewrite (length_select flag row), (length_select flag cols);
        [done|lia..].
    + apply Forall_forall. intros x Hx.
      apply elem_of_select in Hx as (j & Hx & Hj).
      apply (flag_lookup cols rows j) in Hj as [_ Hj].
      specialize (Hj row Hrow). rewrite Hx in Hj. done.
  - apply Forall_singleton. split; [by rewrite length_fmap|].
    apply Forall_fmap, Forall_forall. intros c _. by eexists.
Qed.

End CheckMissingFacts.

Lemma check_missing_complete_witness :
  (check_missing sample_tickers
     [[Some 1; None]; [Some 2; Some 1]]).1 = ["A"]
  ∧ (check_missing sample_tickers
       [[Some 1; None]; [Some 2; Some 1]]).2 = [[Some 1]; [Some 2]; [Some 1]]
  ∧ length (check_missing sample_tickers
              [[Some 1; None]; [Some 2; Some 1]]).2 = 3%nat.
Proof.
  split; [reflexivity|]. split; [reflexivity|].
  apply (check_missing_complete sample_tickers
           [[Some 1; None]; [Some 2; Some 1]]).
  repeat constructor.
Defined.

(** ** The weights of a round, spread over all the tickers *)

Section ScatterFacts.

Import Np.

Lemma foldl_pointwise {A B} (f g : A → B → A) (a : A) (l : list B) :
  (∀ a x, f a x = g a x) → foldl f a l = foldl g a l.
Proof.
  intros H. revert a. induction l as [|x l IH]; intros a; [done|].
  simpl. by rewrite H, IH.
Qed.

Lemma sum_replicate (n : nat) (c : Qc) : sum (replicate n c) = of_nat n * c.
Proof.
  induction n as [|n IH].
  - simpl. replace (of_nat 0) with (Q2Qc 0) by (symmetry; apply Z2Qc_inj_0).
    ring.
  - rewrite of_nat_S. simpl. rewrite IH. ring.
Qed.

Lemma sum_insert_zero (w : vec) (j : nat) (x : Qc) :
  w !! j = Some 0 → sum (<[j := x]> w) = sum w + x.
Proof.
  revert j. induction w as [|y w IH]; intros [|j] Hj; simplify_eq/=.
  - ring.
  - rewrite (IH j Hj). ring.
Qed.

Lemma sum_take_S (ws : vec) (k : nat) (x : Qc) :
  ws !! k = Some x → sum (take (S k) ws) = sum (take k ws) + x.
Proof.
  revert k. induction ws as [|y ws IH]; intros [|k] Hk; simplify_eq/=.
  - ring.
  - rewrite (IH k Hk). ring.
Qed.

Lemma filter_take_S (ss cols : list string) (j : nat) (c : string) :
  cols !! j = Some c →
  filter (.∈ ss) (take (S j) cols)
  = filter (.∈ ss) (take j cols) ++ (if decide (c ∈ ss) then [c] else []).
Proof.
  intros Hc. rewrite (take_S_r _ _ _ Hc), filter_app. f_equal.
Qed.

Lemma scatter_step (cols ss : list string) (w_sample : option vec)
    (t : nat) (st st' : vec * nat) (j : nat) :
  seq 0 (length cols) !! t = Some j →
  scatter_state cols ss w_sample t st →
  (c ← cols !! j;
   if decide (c ∈ ss) then
     ws ← w_sample; x ← ws !! st.2; Some (<[j := x]> st.1, S st.2)
   else Some (st.1, st.2)) = Some st' →
  scatter_state cols ss w_sample (S t) st'.
Proof.
  intros Hj (Hk & Hlen & Hzero & Hdone & Hsum) Hstep.
  apply lookup_seq in Hj as [-> Hj]. simpl in Hstep.
  destruct (cols !! t) as [c|] eqn:Hc; [|done]. simpl in Hstep.
  unfold scatter_state. rewrite (filter_take_S ss cols t c Hc), length_app.
  case_decide as Hin.
  - destruct w_sample as [ws|]; [|done]. simpl in Hstep.
    destruct (ws !! st.2) as [x|] eqn:Hx; [|done]. injection Hstep as <-.
    simpl. split; [lia|]. split; [by rewrite length_insert|]. split.
    { intros j Hjt. rewrite list_lookup_insert_ne by lia. apply Hzero. lia. }
    split.
    { intros j c' Hjt Hc'. destruct (decide (j = t)) as [->|Hne].
      - rewrite list_lookup_insert_eq by lia. simplify_eq.
        rewrite decide_True by done. simpl. by rewrite <-Hk.
      - rewrite list_lookup_insert_ne by done. apply Hdone; [lia|done]. }
    intros ws' [= <-]. rewrite sum_insert_zero by (apply Hzero; lia).
    rewrite (Hsum ws eq_refl), <-Hk.
    replace (st.2 + 1)%nat with (S st.2) by lia.
    by rewrite (sum_take_S ws st.2 x Hx).
  - injection Hstep as <-. simpl. split; [lia|]. split; [done|]. split.
    { intros j Hjt. apply Hzero. lia. }
    split.
    { intros j c' Hjt Hc'. destruct (decide (j = t)) as [->|Hne].
      - simplify_eq. rewrite decide_False by done. apply Hzero. lia.
      - apply Hdone; [lia|done]. }
    intros ws Hws. rewrite (Hsum ws Hws). by rewrite Nat.add_0_r.
Qed.

Lemma scatter_Some (cols ss : list string) (w_sample : option vec) (w : vec) :
  scatter cols ss w_sample = Some w →
  ∃ k, scatter_state cols ss w_sample (length cols) (w, k).
Proof.
  unfold scatter. intros H.
  destruct (foldl _ _ _) as [[w' k]|] eqn:Hfold; [|done].
  injection H as <-. exists k.
  pose proof (foldl_bind_invariant
                (λ st j, c ← cols !! j;
                         if decide (c ∈ ss) then
                           ws ← w_sample; x ← ws !! st.2;
                           Some (<[j := x]> st.1, S st.2)
                         else Some (st.1, st.2))
                (scatter_state cols ss w_sample) (seq 0 (length cols))
                (zeros (length cols), O) (w', k)) as Hinv.
  rewrite length_seq in Hinv. apply Hinv.
  - unfold scatter_state. simpl.
    split; [done|]. split; [apply length_replicate|]. split.
    { intros j Hj. apply lookup_replicate_2. lia. }
    split; [intros; lia|]. intros ws _. unfold zeros.
    rewrite sum_replicate. simpl. ring.
  - intros t st i st'. apply scatter_step.
  - rewrite <-Hfold. apply foldl_pointwise. intros [[w0 k0]|] j; [|done]. simpl.
    destruct (cols !! j); [|done]. simpl. by case_decide.
Qed.

Lemma scatter_length (cols ss : list string) (w_sample : option vec) (w : vec) :
  scatter cols ss w_sample = Some w → length w = length cols.
Proof. intros (k & _ & H & _)%scatter_Some. exact H. Qed.

Lemma scatter_None (cols ss : list string) (c : string) :
  c ∈ cols → c ∈ ss → scatter cols ss None = None.
Proof.
  intros Hc Hin. destruct (scatter cols ss None) as [w|] eqn:Hw; [|done].
  apply scatter_Some in Hw as (k & _ & Hlen & _ & Hdone & _). simpl in *.
  apply list_elem_of_lookup_1 in Hc as [j Hj].
  pose proof (lookup_lt_Some _ _ _ Hj) as Hlt.
  specialize (Hdone j c Hlt Hj). rewrite decide_True in Hdone by done.
  simpl in Hdone. apply lookup_ge_None in Hdone. lia.
Qed.

Lemma filter_take_le (ss cols : list string) (t : nat) :
  (length (filter (.∈ ss) (take t cols)) ≤ length (filter (.∈ ss) cols))%nat.
Proof.
  rewrite <-(take_drop t cols) at 2. rewrite filter_app, length_app. lia.
Qed.

Lemma scatter_prefix (cols ss : list string) (ws : vec) (t : nat) :
  (t ≤ length cols)%nat →
  (length (filter (.∈ ss) cols) ≤ length ws)%nat →
  ∃ st, foldl (λ acc j,
                 '(w_opt, k) ← acc;
                 c ← cols !! j;
                 if decide (c ∈ ss) then
                   ws ← Some ws; x ← ws !! k; Some (<[j := x]> w_opt, S k)
                 else Some (w_opt, k))
              (Some (zeros (length cols), O)) (seq 0 t) = Some st
        ∧ scatter_state cols ss (Some ws) t st.
Proof.
  intros Ht Hws. induction t as [|t IH].
  - eexists. split; [done|]. unfold scatter_state. simpl.
    split; [done|]. split; [apply length_replicate|]. split.
    { intros j Hj. apply lookup_replicate_2. lia. }
    split; [intros; lia|]. intros ws' _. unfold zeros.
    rewrite sum_replicate. simpl. ring.
  - destruct IH as ([w k] & Hfold & Hst); [lia|].
    rewrite seq_S, foldl_snoc, Hfold. simpl.
    destruct (lookup_lt_is_Some_2 cols t) as [c Hc]; [lia|].
    assert (∃ st', (c ← cols !! t;
                    if decide (c ∈ ss) then
                      ws ← Some ws; x ← ws !! (w, k).2;
                      Some (<[t := x]> (w, k).1, S (w, k).2)
                    else Some ((w, k).1, (w, k).2)) = Some st')
      as [st' Hstep].
    { rewrite Hc. simpl. case_decide as Hin; [|by eexists].
      destruct (lookup_lt_is_Some_2 ws k) as [x Hx]; [|rewrite Hx; by eexists].
      destruct Hst as (Hk & _). simpl in Hk. rewrite Hk.
      pose proof (filter_take_le ss cols (S t)) as Hle.
      rewrite (filter_take_S ss cols t c Hc), length_app in Hle.
      rewrite decide_True in Hle by done. simpl in Hle. lia. }
    exists st'. split.
    + rewrite <-Hstep. rewrite Hc. simpl. by case_decide.
    + apply (scatter_step cols ss (Some ws) t (w, k) st' t); [|done..].
      apply lookup_seq_lt. lia.
Qed.

(** X13. The loop that spreads the weights of a round over all the tickers:
    given at least as many weights as there are tickers of the window, it
    returns a vector as long as the table is wide, with 0 at every ticker
    left out of the window and, at a ticker of the window, the weight whose
    position is the number of tickers of the window before it; the weights
    used keep their sum. *)
Theorem scatter_spreads (cols ss : list string) (ws : vec) :
  (length (filter (.∈ ss) cols) ≤ length ws)%nat →
  ∃ w, scatter cols ss (Some ws) = Some w
       ∧ length w = length cols
       ∧ (∀ j c, cols !! j = Some c →
            w !! j = if decide (c ∈ ss)
                     then ws !! length (filter (.∈ ss) (take j cols))
                     else Some 0)
       ∧ sum w = sum (take (length (filter (.∈ ss) cols)) ws).
Proof.
  intros Hws.
  destruct (scatter_prefix cols ss ws (length cols)) as ([w k] & Hfold & Hst);
    [done..|].
  exists w. unfold scatter. split; [by rewrite Hfold|].
  destruct Hst as (_ & Hlen & _ & Hdone & Hsum). simpl in *.
  split; [done|]. split.
  - intros j c Hc. rewrite (Hdone j c); [done| |done].
    by apply lookup_lt_Some in Hc.
  - rewrite (Hsum ws eq_refl). by rewrite firstn_all.
Qed.

End ScatterFacts.

Lemma scatter_spreads_witness :
  ∃ w, scatter ["A"; "B"; "C"] ["C"; "A"] (Some [1 / 2; 1 / 2]) = Some w
       ∧ w = [1 / 2; 0; 1 / 2] ∧ sum w = 1.
Proof.
  destruct (scatter_spreads ["A"; "B"; "C"] ["C"; "A"] [1 / 2; 1 / 2])
    as (w & Hw & _ & _ & Hsum); [vm_compute; lia|].
  exists w. split; [exact Hw|]. split.
  - vm_compute in Hw. by injection Hw as <-.
  - rewrite Hsum. by apply Qc_is_canon.
Defined.

(** ** The rounds of the backtest at the edges of its arguments *)

Section BacktestEdges.

Import Np.

Variable eig : matrix → vec * matrix.
Variable np_sqrt : Qc → Qc.
Variable solve : QP → vec.
Variable root250 : Qc → Qc.
Variable ln : Qc → Qc.
Variable exp : Qc → Qc.

Lemma py_range3_empty (start stop step : nat) :
  step ≠ 0%nat → (stop ≤ start)%nat → py_range3 start stop step = Some [].
Proof.
  intros Hstep Hle. unfold py_range3. rewrite decide_False by done.
  replace ((stop - start + step - 1) / step)%nat with 0%nat; [done|].
  symmetry. apply Nat.div_small. lia.
Qed.

Lemma py_range3_first (start stop step : nat) :
  step ≠ 0%nat → (start < stop)%nat →
  ∃ rest, py_range3 start stop step = Some (start :: rest)
          ∧ ((stop ≤ start + step)%nat → rest = []).
Proof.
  intros Hstep Hlt. unfold py_range3. rewrite decide_False by done.
  pose proof (proj2 (rounds_spec (stop - start) step 0 Hstep)) as H0.
  pose proof (proj1 (rounds_spec (stop - start) step 1 Hstep)) as H1.
  destruct ((stop - start + step - 1) / step)%nat as [|N]; [lia|]. simpl.
  rewrite Nat.add_0_r. eexists. split; [done|].
  intros Hle. destruct N as [|N]; [done|]. lia.
Qed.

(** X14. With [rebalance_time = 0] the backtest raises, whatever the data
    ([range] refuses a step of 0).  With a window at least as long as the
    series of log-returns it runs no round: [R] and [w_all] come back as
    [None], with the log-returns and the dates after the first
    [window_size + 1]. *)
Theorem backtest_without_round (optimizerName : string) (df1 : frame)
    (window_size rebalance_time : nat)
    (maxAlloc retTarget longShort lambda_l1 lambda_l2 : Qc) :
  let df_logret := log_returns ln (values df1) in
  (rebalance_time = 0%nat →
   rollingwindow_backtest eig np_sqrt solve root250 ln exp optimizerName df1
     window_size rebalance_time maxAlloc retTarget longShort lambda_l1
     lambda_l2 = None)
  ∧ (rebalance_time ≠ 0%nat → (length df_logret ≤ window_size)%nat →
     rollingwindow_backtest eig np_sqrt solve root250 ln exp optimizerName df1
       window_size rebalance_time maxAlloc retTarget longShort lambda_l1
       lambda_l2
     = Some (None, df_logret, WNone, drop (window_size + 1) (index df1))).
Proof.
  intros df_logret. unfold rollingwindow_backtest. fold df_logret. split.
  - intros ->. unfold py_range3. by rewrite decide_True.
  - intros Hd Hle. by rewrite py_range3_empty.
Qed.

(** X15. When the first round is also the last
    ([window_size < n ≤ window_size + rebalance_time]), a run that returns
    gives [w_all] as one vector, as long as the table is wide, and not as
    a matrix of one row; and [R] starts with a [None], from
    [np.hstack([R, ...])] at [R = None], followed by the [n - window_size]
    returns of the round. *)
Theorem backtest_single_round (optimizerName : string) (df1 : frame)
    (window_size rebalance_time : nat)
    (maxAlloc retTarget longShort lambda_l1 lambda_l2 : Qc)
    (R : option (list r_item)) (df_logret : list (list cell))
    (w_all : w_all_t) (rownames : list string) :
  let n := length (log_returns ln (values df1)) in
  (window_size < n ≤ window_size + rebalance_time)%nat →
  rollingwindow_backtest eig np_sqrt solve root250 ln exp optimizerName df1
    window_size rebalance_time maxAlloc retTarget longShort lambda_l1 lambda_l2
  = Some (R, df_logret, w_all, rownames) →
  ∃ w r, w_all = W1d w
         ∧ length w = length (columns df1)
         ∧ R = Some (RNone :: (RVal <$> r))
         ∧ length r = (n - window_size)%nat.
Proof.
  intros n [Hlt Hle]. unfold rollingwindow_backtest. fold n.
  destruct (py_range3_first window_size n rebalance_time) as (rest & -> & Hrest);
    [lia|done|].
  rewrite (Hrest Hle). cbn [foldl mbind option_bind].
  destruct (backtest_round _ _ _ _ _ _ _ _ _ _ _ _ _ _ _ _ _) as [[R1 w1]|]
    eqn:Hround; [|done].
  simpl. intros [= -> <- -> <-].
  unfold backtest_round in Hround.
  destruct (window_moments _ _ _ _) as [[sample_stocks sigMat] meanVec].
  destruct (call_optimizer _ _ _ _ _ _ _ _ _ _ _ _) as [w_sample|]; [|done].
  simpl in Hround.
  destruct (scatter _ _ _) as [w_opt|] eqn:Hw; [|done].
  simpl in Hround. fold n in Hround.
  rewrite decide_False in Hround by lia. injection Hround as <- <-.
  exists w_opt, (realized exp w_opt (drop window_size (log_returns ln (values df1)))).
  split; [done|]. split; [by apply scatter_length in Hw|].
  split; [done|]. by rewrite length_realized, length_drop.
Qed.

(** X16. With a name that is none of the optimizers the chain of [if]s binds
    no [w_sample]: the first round raises at [w_sample[k]] as soon as its
    window keeps one ticker. *)
Theorem backtest_unknown_optimizer (optimizerName : string) (df1 : frame)
    (window_size rebalance_time : nat)
    (maxAlloc retTarget longShort lambda_l1 lambda_l2 : Qc) (c : string) :
  let df_logret := log_returns ln (values df1) in
  optimizerName ≠ "minimumVariancePortfolio" →
  optimizerName ≠ "meanVariancePortfolioReturnsTarget" →
  optimizerName ≠ "test" →
  (window_size < length df_logret)%nat →
  c ∈ (logret_window (columns df1) df_logret window_size window_size).1 →
  rollingwindow_backtest eig np_sqrt solve root250 ln exp optimizerName df1
    window_size rebalance_time maxAlloc retTarget longShort lambda_l1 lambda_l2
  = None.
Proof.
  intros df_logret Hn1 Hn2 _ Hlt Hc. unfold rollingwindow_backtest.
  fold df_logret.
  destruct (decide (rebalance_time = 0)%nat) as [->|Hd].
  { unfold py_range3. by rewrite decide_True. }
  destruct (py_range3_first window_size (length df_logret) rebalance_time)
    as (rest & -> & _); [done..|].
  cbn [foldl mbind option_bind].
  assert (backtest_round eig np_sqrt solve root250 exp df1 df_logret
            optimizerName window_size rebalance_time maxAlloc retTarget
            longShort lambda_l1 lambda_l2 (None, WNone) window_size = None)
    as ->.
  { unfold backtest_round, window_moments.
    destruct (logret_window _ _ _ _) as [sample_stocks window] eqn:Hwin.
    simpl in Hc. unfold call_optimizer.
    rewrite !decide_False by done. simpl.
    rewrite (scatter_None (columns df1) sample_stocks c); [done| |done].
    unfold logret_window in Hwin. injection Hwin as <- _.
    unfold check_missing in Hc. simpl in Hc.
    apply elem_of_select in Hc as (j & Hj & _).
    by apply list_elem_of_lookup_2 in Hj. }
  by rewrite foldl_bind_None.
Qed.

End BacktestEdges.

Lemma backtest_without_round_witness :
  rollingwindow_backtest eig_diagonal id solve_uniform
    root250_at_1_and_2pow250 ln_at_1 exp_at_0
    "minimumVariancePortfolio" sample_prices 1 0 1 0 0 0 0 = None
  ∧ rollingwindow_backtest eig_diagonal id solve_uniform
      root250_at_1_and_2pow250 ln_at_1 exp_at_0
      "minimumVariancePortfolio" sample_prices 4 1 1 0 0 0 0
    = Some (None, log_returns ln_at_1 (values sample_prices), WNone, []).
Proof.
  split.
  - by apply (backtest_without_round eig_diagonal id solve_uniform
                root250_at_1_and_2pow250 ln_at_1 exp_at_0
                "minimumVariancePortfolio" sample_prices 1 0 1 0 0 0 0).
  - apply (backtest_without_round eig_diagonal id solve_uniform
             root250_at_1_and_2pow250 ln_at_1 exp_at_0
             "minimumVariancePortfolio" sample_prices 4 1 1 0 0 0 0).
    + done.
    + vm_compute. lia.
Defined.

Lemma backtest_single_round_witness :
  ∃ R df_logret w_all rownames,
    rollingwindow_backtest eig_diagonal id solve_uniform
      root250_at_1_and_2pow250 ln_at_1 exp_at_0
      "minimumVariancePortfolio" sample_prices 2 2 1 0 0 0 0
    = Some (R, df_logret, w_all, rownames)
    ∧ ∃ w r, w_all = W1d w ∧ length w = 2%nat
             ∧ R = Some (RNone :: (RVal <$> r)) ∧ length r = 2%nat.
Proof.
  eexists _, _, _, _. split; [vm_compute; reflexivity|].
  eapply (backtest_single_round eig_diagonal id solve_uniform
            root250_at_1_and_2pow250 ln_at_1 exp_at_0
            "minimumVariancePortfolio" sample_prices 2 2 1 0 0 0 0).
  - vm_compute. lia.
  - vm_compute. reflexivity.
Defined.

Lemma backtest_unknown_optimizer_witness :
  rollingwindow_backtest eig_diagonal id solve_uniform
    root250_at_1_and_2pow250 ln_at_1 exp_at_0
    "riskParity" sample_prices 2 1 1 0 0 0 0 = None.
Proof.
  apply (backtest_unknown_optimizer eig_diagonal id solve_uniform
           root250_at_1_and_2pow250 ln_at_1 exp_at_0
           "riskParity" sample_prices 2 1 1 0 0 0 0 "A"); try done.
  - vm_compute. lia.
  - vm_compute. apply list_elem_of_here.
Defined.

(** ** The weights returned for a long-only problem *)

Section LongOnlyWeights.

Import Np.

Lemma of_nat_pos (d : nat) : (0 < d)%nat → 0 < of_nat d.
Proof.
  intros Hd. unfold of_nat, Qc_of_Z, Qclt. simpl. rewrite !Qred_correct.
  unfold Qlt. simpl. lia.
Qed.

Lemma length_equal_weights (d : nat) : length (equal_weights d) = d.
Proof.
  unfold equal_weights, div, ones. by rewrite length_fmap, length_replicate.
Qed.

Lemma sum_equal_weights (d : nat) : (0 < d)%nat → sum (equal_weights d) = 1.
Proof.
  intros Hd. unfold equal_weights, div, ones. rewrite fmap_replicate.
  rewrite sum_replicate. field.
  intros H0. pose proof (of_nat_pos d Hd) as Hpos. rewrite H0 in Hpos.
  by apply Qclt_not_eq in Hpos.
Qed.

Lemma equal_weights_in_box (d : nat) (maxAlloc : Qc) :
  (0 < d)%nat → 1 ≤ of_nat d * maxAlloc →
  Forall (λ wi, 0 ≤ wi ∧ wi ≤ maxAlloc) (equal_weights d).
Proof.
  intros Hd Hcap. pose proof (of_nat_pos d Hd) as Hpos.
  assert (of_nat d ≠ 0) as Hne.
  { intros H0. rewrite H0 in Hpos. by apply Qclt_not_eq in Hpos. }
  unfold equal_weights, div, ones. rewrite fmap_replicate.
  apply Forall_replicate. split.
  - apply (Qcmult_lt_0_le_reg_r _ _ (of_nat d) Hpos).
    replace (0 * of_nat d) with (Q2Qc 0) by ring.
    replace (1 / of_nat d * of_nat d) with (Q2Qc 1) by (by field).
    compute_done.
  - apply (Qcmult_lt_0_le_reg_r _ _ (of_nat d) Hpos).
    replace (1 / of_nat d * of_nat d) with (Q2Qc 1) by (by field).
    by rewrite (Qcmult_comm maxAlloc).
Qed.

(** The weights taken from a solution that meets the budget and the box
    meet them too, also when they are the equal weights. *)
Lemma long_only_weights (d : nat) (maxAlloc : Qc) x :
  length x = d → sum x = 1 → Forall (λ xi, 0 ≤ xi ∧ xi ≤ maxAlloc) x →
  let w := weights_of_solution d 0 x in
  length w = d ∧ sum w = 1 ∧ Forall (λ wi, 0 ≤ wi ∧ wi ≤ maxAlloc) w.
Proof.
  intros Hlen Hsum Hbox w. unfold w, weights_of_solution.
  rewrite decide_True by done. destruct (all x); simpl; [done|].
  assert (0 < d)%nat as Hd.
  { destruct x as [|x0 x]; [|simpl in Hlen; lia]. by simpl in Hsum. }
  split; [apply length_equal_weights|]. split; [by apply sum_equal_weights|].
  apply equal_weights_in_box; [done|].
  rewrite <-Hsum, <-Hlen. apply sum_le_bound.
  eapply Forall_impl; [exact Hbox|]. by intros xi [_ ?].
Qed.

Lemma minvar_long_only_plain (d : nat) (sigMat : matrix)
    (maxAlloc lambda_l1 : Qc) (qp : QP) x :
  minvar_long_only d sigMat maxAlloc lambda_l1 false = Some qp →
  feasible qp x →
  length x = d ∧ sum x = 1 ∧ Forall (λ xi, 0 ≤ xi ∧ xi ≤ maxAlloc) x.
Proof.
  intros Hqp [Hlen Hrows]. unfold minvar_long_only in Hqp.
  simpl in Hqp. injection Hqp as <-. simpl in Hlen, Hrows.
  assert (length x = d) as Hd.
  { rewrite Hlen. case_decide; unfold neg, scale, ones, zeros;
      by rewrite !length_fmap, length_replicate. }
  split; [done|]. by apply (budget_and_box d maxAlloc x Hd).
Qed.

Lemma meanvar_long_only_plain (d : nat) (meanVec : vec) (sigMat : matrix)
    (tau maxAlloc lambda_l1 : Qc) (qp : QP) x :
  length meanVec = d →
  meanvar_long_only d meanVec sigMat tau maxAlloc lambda_l1 false = Some qp →
  feasible qp x →
  length x = d ∧ sum x = 1 ∧ Forall (λ xi, 0 ≤ xi ∧ xi ≤ maxAlloc) x.
Proof.
  intros Hmean Hqp [Hlen Hrows]. unfold meanvar_long_only in Hqp.
  simpl in Hqp. injection Hqp as <-. simpl in Hlen, Hrows.
  assert (length x = d) as Hd.
  { rewrite Hlen. case_decide; unfold neg, scale, ones, zeros;
      rewrite !length_fmap, ?length_replicate; done. }
  change (rows_within ([neg meanVec] ++ [ones d] ++ eye d d)
            ([NegInf] ++ (Fin <$> [1] ++ zeros d))
            ([Fin (- tau)] ++ (Fin <$> [1] ++ scale maxAlloc (ones d))) x)
    in Hrows.
  apply rows_within_app in Hrows as [_ Hrest]; [|done..].
  split; [done|]. by apply (budget_and_box d maxAlloc x Hd).
Qed.

End LongOnlyWeights.

Section LongOnlyResults.

Import Np.

Variable eig : matrix → vec * matrix.
Variable np_sqrt : Qc → Qc.
Variable solve : QP → vec.
Variable root250 : Qc → Qc.

(** X17. Long only and without [assetsOrder], with a solver whose answer
    meets the constraints of the problem it is given,
    [minimumVariancePortfolio] returns one weight per asset, the weights
    sum to 1 and each lies between 0 and [maxAlloc]: also when the answer
    has a zero entry and the equal weights are returned in its place. *)
Theorem minimumVariancePortfolio_long_only_weights (sigMat : matrix)
    (maxAlloc lambda_l1 lambda_l2 : Qc) (w : vec) (var : Qc) :
  (∀ S qp, minvar_long_only (length sigMat) S maxAlloc lambda_l1 false = Some qp →
           feasible qp (solve qp)) →
  minimumVariancePortfolio eig np_sqrt solve sigMat 0 maxAlloc lambda_l1
    lambda_l2 None = Some (w, var) →
  length w = length sigMat
  ∧ sum w = 1
  ∧ Forall (λ wi, 0 ≤ wi ∧ wi ≤ maxAlloc) w.
Proof.
  intros Hsolve Hrun.
  apply minimumVariancePortfolio_problem in Hrun
    as (sigMat' & e_min & qp & Hqp & Hfin).
  rewrite decide_True in Hqp by done. simpl in Hqp, Hfin.
  pose proof (Hsolve sigMat' qp Hqp) as Hfeas.
  destruct (minvar_long_only_plain _ _ _ _ _ _ Hqp Hfeas)
    as (Hlen & Hsum & Hbox).
  unfold finish in Hfin. simpl in Hfin. injection Hfin as <- _.
  by apply long_only_weights.
Qed.

(** X18. The same for [meanVariancePortfolioReturnsTarget]. *)
Theorem meanVariancePortfolioReturnsTarget_long_only_weights
    (meanVec : vec) (sigMat : matrix)
    (retTarget maxAlloc lambda_l1 lambda_l2 : Qc) (w : vec) (var : Qc) :
  (∀ S minEret maxEret qp,
     min_of meanVec = Some minEret → max_of meanVec = Some maxEret →
     meanvar_long_only (length sigMat) meanVec S
       (clamp_target minEret maxEret (daily_target root250 retTarget))
       maxAlloc lambda_l1 false = Some qp →
     feasible qp (solve qp)) →
  meanVariancePortfolioReturnsTarget eig np_sqrt solve root250 meanVec sigMat
    retTarget 0 maxAlloc lambda_l1 lambda_l2 None = Some (w, var) →
  length w = length sigMat
  ∧ sum w = 1
  ∧ Forall (λ wi, 0 ≤ wi ∧ wi ≤ maxAlloc) w.
Proof.
  intros Hsolve Hrun. unfold meanVariancePortfolioReturnsTarget in Hrun.
  destruct (min_of meanVec) as [minEret|] eqn:Hmin; [|done].
  destruct (max_of meanVec) as [maxEret|] eqn:Hmax; [|done].
  cbn [mbind option_bind order_given] in Hrun.
  case_guard as Hguard; [|done]. pose proof (proj2 Hguard) as Hmean.
  cbn [mbind option_bind] in Hrun.
  destruct (condition _ _ _ _) as [[sigMat' e_min]|]; [|done].
  cbn [mbind option_bind] in Hrun. rewrite decide_True in Hrun by done.
  destruct (meanvar_long_only _ _ _ _ _ _ _) as [qp|] eqn:Hqp; [|done].
  cbn [mbind option_bind] in Hrun.
  pose proof (Hsolve _ _ _ _ eq_refl eq_refl Hqp) as Hfeas.
  destruct (meanvar_long_only_plain _ _ _ _ _ _ _ _ Hmean Hqp Hfeas)
    as (Hlen & Hsum & Hbox).
  unfold finish in Hrun. simpl in Hrun. injection Hrun as <- _.
  by apply long_only_weights.
Qed.

End LongOnlyResults.

Lemma minimumVariancePortfolio_long_only_weights_witness :
  ∃ w var, minimumVariancePortfolio eig_diagonal id solve_uniform sample_I2
             0 1 0 0 None = Some (w, var)
           ∧ sum w = 1.
Proof.
  eexists _, _. split; [vm_compute; reflexivity|].
  eapply (minimumVariancePortfolio_long_only_weights eig_diagonal id
            solve_uniform sample_I2 1 0 0).
  - intros S qp [= <-]. split; [reflexivity|].
    intros i row lo up Hrow Hlo Hup.
    do 3 (destruct i as [|i]; [simplify_eq/=; split; compute_done|]).
    simpl in Hrow. done.
  - vm_compute. reflexivity.
Defined.

Lemma meanVariancePortfolioReturnsTarget_long_only_weights_witness :
  ∃ w var, meanVariancePortfolioReturnsTarget eig_diagonal id solve_uniform
             root250_at_1_and_2pow250 [1; 1 + 2] sample_I2 0 0 1 0 0 None
           = Some (w, var)
           ∧ sum w = 1.
Proof.
  eexists _, _. split; [vm_compute; reflexivity|].
  eapply (meanVariancePortfolioReturnsTarget_long_only_weights eig_diagonal id
            solve_uniform root250_at_1_and_2pow250 [1; 1 + 2] sample_I2
            0 1 0 0).
  - intros S minEret maxEret qp [= <-] [= <-] [= <-]. split; [reflexivity|].
    intros i row lo up Hrow Hlo Hup.
    do 4 (destruct i as [|i]; [simplify_eq/=; split; compute_done|]).
    simpl in Hrow. done.
  - vm_compute. reflexivity.
Defined.

(** ** The clamped target can be met *)

Section TargetFacts.

Import Np.

Lemma rows_within_app_2 A1 A2 l1 l2 (u1 u2 : list bound) x :
  length l1 = length A1 → length u1 = length A1 →
  rows_within A1 l1 u1 x → rows_within A2 l2 u2 x →
  rows_within (A1 ++ A2) (l1 ++ l2) (u1 ++ u2) x.
Proof.
  intros Hl Hu H1 H2 i row lo up Hrow Hlo Hup.
  destruct (decide (i < length A1)%nat) as [Hi|Hi].
  - rewrite lookup_app_l in Hrow by lia. rewrite lookup_app_l in Hlo by lia.
    rewrite lookup_app_l in Hup by lia. by apply (H1 i).
  - rewrite lookup_app_r in Hrow by lia. rewrite lookup_app_r in Hlo by lia.
    rewrite lookup_app_r in Hup by lia.
    rewrite Hl in Hlo. rewrite Hu in Hup. by apply (H2 (i - length A1)%nat).
Qed.

Lemma rows_within_row_2 row (lo up : bound) x :
  within lo (vdot row x) up → rows_within [row] [lo] [up] x.
Proof. intros H [|i] row' lo' up' ???; simplify_eq/=. done. Qed.

Lemma rows_within_box_2 (n : nat) (LB UB : vec) x :
  length x = n →
  (∀ j xj lo up, x !! j = Some xj → LB !! j = Some lo → UB !! j = Some up →
                 lo ≤ xj ∧ xj ≤ up) →
  rows_within (eye n n) (Fin <$> LB) (Fin <$> UB) x.
Proof.
  intros Hlen H j row lo up Hrow Hlo Hup.
  rewrite list_lookup_fmap in Hlo, Hup.
  destruct (LB !! j) as [a|] eqn:Ha; [|done].
  destruct (UB !! j) as [b|] eqn:Hb; [|done].
  simpl in Hlo, Hup. injection Hlo as <-. injection Hup as <-.
  assert (j < n)%nat as Hj.
  { apply lookup_lt_Some in Hrow. unfold eye in Hrow.
    by rewrite length_tabulate in Hrow. }
  destruct (lookup_lt_is_Some_2 x j) as [xj Hxj]; [lia|].
  rewrite (vdot_eye_row n j row x xj Hlen Hrow Hxj). by apply (H j).
Qed.

Lemma vdot_zeros_r u n : vdot u (zeros n) = 0.
Proof.
  revert n. induction u as [|a u IH]; intros [|n]; try done.
  change (a * 0 + vdot u (zeros n) = 0). rewrite (IH n). ring.
Qed.

Lemma vdot_insert_zero u x (j : nat) (c : Qc) :
  x !! j = Some 0 →
  vdot u (<[j := c]> x) = vdot u x + default 0 (u !! j) * c.
Proof.
  revert u j. induction x as [|b x IH]; intros [|a u] [|j] Hj;
    simplify_eq/=; try ring.
  rewrite (IH u j Hj). ring.
Qed.

Lemma foldl_py_max_elem (a : Qc) (v : vec) : foldl py_max a v ∈ a :: v.
Proof.
  revert a. induction v as [|y v IH]; intros a; [apply list_elem_of_here|].
  simpl. specialize (IH (py_max a y)). apply elem_of_cons in IH as [->|IH].
  - unfold py_max. case_decide; [|apply list_elem_of_here].
    apply list_elem_of_further, list_elem_of_here.
  - by do 2 apply list_elem_of_further.
Qed.

Lemma clamp_target_range (a b t : Qc) :
  a ≤ b → a ≤ clamp_target a b t ∧ clamp_target a b t ≤ b.
Proof.
  intros Hab. destruct (decide (t < a)) as [Hta|Hta].
  { rewrite clamp_target_below by done. split; [apply Qcle_refl|done]. }
  destruct (decide (b < t)) as [Hbt|Hbt].
  { rewrite clamp_target_above by done. split; [done|apply Qcle_refl]. }
  apply Qcnot_lt_le in Hta, Hbt. by rewrite clamp_target_inside.
Qed.

(** X19. The clamp of the daily target keeps it between the smallest and
    the largest mean return, so the long-only problem can be met: with
    [maxAlloc] at least 1, all the weight on an asset of largest mean
    return satisfies every constraint handed to the solver. *)
Theorem meanvar_long_only_has_a_solution (meanVec : vec) (sigMat : matrix)
    (t maxAlloc lambda_l1 minEret maxEret : Qc) :
  min_of meanVec = Some minEret → max_of meanVec = Some maxEret →
  1 ≤ maxAlloc →
  let tau := clamp_target minEret maxEret t in
  minEret ≤ tau ∧ tau ≤ maxEret
  ∧ ∃ qp j,
      meanvar_long_only (length meanVec) meanVec sigMat tau maxAlloc
        lambda_l1 false = Some qp
      ∧ meanVec !! j = Some maxEret
      ∧ feasible qp (<[j := 1]> (zeros (length meanVec))).
Proof.
  intros Hmin Hmax Hcap tau.
  pose proof (min_of_le_max_of meanVec minEret maxEret Hmin Hmax) as Hab.
  destruct (clamp_target_range minEret maxEret t Hab) as [Hlo Hup].
  split; [done|]. split; [done|].
  assert (maxEret ∈ meanVec) as Hin.
  { unfold max_of in Hmax. destruct meanVec as [|m0 mv]; [done|].
    injection Hmax as <-. apply foldl_py_max_elem. }
  apply list_elem_of_lookup_1 in Hin as [j Hj].
  pose proof (lookup_lt_Some _ _ _ Hj) as Hjd.
  set (d := length meanVec) in *. set (x := <[j := 1]> (zeros d)).
  assert (length x = d) as Hx.
  { unfold x, zeros. by rewrite length_insert, length_replicate. }
  assert (zeros d !! j = Some 0) as Hz by (by apply lookup_replicate_2).
  eexists _, j. split; [reflexivity|]. split; [done|]. split.
  { simpl. fold x. rewrite Hx.
    case_decide; unfold neg, scale, zeros;
      rewrite !length_fmap, ?length_replicate; done. }
  simpl. fold x.
  change (rows_within ([neg meanVec] ++ [ones d] ++ eye d d)
            ([NegInf] ++ [Fin 1] ++ (Fin <$> zeros d))
            ([Fin (- tau)] ++ [Fin 1] ++ (Fin <$> scale maxAlloc (ones d))) x).
  apply rows_within_app_2; [done..| |apply rows_within_app_2; [done..| |]].
  - apply rows_within_row_2. split; [done|].
    rewrite vdot_neg_l. unfold x.
    rewrite (vdot_insert_zero _ _ _ _ Hz), vdot_zeros_r, Hj. simpl.
    apply Qcopp_le_compat. by replace (0 + maxEret * 1) with maxEret by ring.
  - apply rows_within_row_2.
    rewrite <-Hx at 1. rewrite vdot_ones_l. unfold x.
    rewrite (sum_insert_zero _ _ _ Hz). unfold zeros. rewrite sum_replicate.
    replace (of_nat d * 0 + 1) with (Q2Qc 1) by ring.
    split; apply Qcle_refl.
  - apply (rows_within_box_2 d _ _ x Hx). intros i xi lo up Hxi Hlo' Hup'.
    apply lookup_replicate in Hlo' as [-> _].
    unfold scale, ones in Hup'. rewrite fmap_replicate in Hup'.
    apply lookup_replicate in Hup' as [-> _].
    replace (maxAlloc * 1) with maxAlloc by ring.
    unfold x in Hxi. destruct (decide (i = j)) as [->|Hne].
    + rewrite list_lookup_insert_eq in Hxi
        by (unfold zeros; rewrite length_replicate; lia).
      injection Hxi as <-. split; [compute_done|done].
    + rewrite list_lookup_insert_ne in Hxi by done.
      apply lookup_replicate in Hxi as [-> _]. split; [apply Qcle_refl|].
      eapply Qcle_trans; [|exact Hcap]. compute_done.
Qed.

End TargetFacts.

Lemma meanvar_long_only_has_a_solution_witness :
  1 ≤ clamp_target 1 (1 + 2) (Qc_of_Z 7)
  ∧ clamp_target 1 (1 + 2) (Qc_of_Z 7) ≤ 1 + 2.
Proof.
  destruct (meanvar_long_only_has_a_solution [1; 1 + 2] sample_I2 (Qc_of_Z 7)
              1 0 1 (1 + 2)) as (H1 & H2 & _); [reflexivity..|compute_done|].
  by split.
Defined.

(** ** [assetsOrder] at its edges *)

Section AssetsOrderFacts.

Import Np.

Variable eig : matrix → vec * matrix.
Variable np_sqrt : Qc → Qc.
Variable solve : QP → vec.
Variable root250 : Qc → Qc.

Lemma take_idx_out_of_range {T} (a : list T) (idx : list nat) (i : nat) :
  i ∈ idx → (length a ≤ i)%nat → take_idx a idx = None.
Proof.
  intros Hi Hlen. unfold take_idx.
  destruct (mapM _ idx) as [r|] eqn:Hr; [|done].
  assert (is_Some (mapM (λ i, a !! i) idx)) as Hsome by (by eexists).
  rewrite mapM_is_Some, Forall_forall in Hsome.
  destruct (Hsome i Hi) as [y Hy]. simpl in Hy.
  apply lookup_lt_Some in Hy. lia.
Qed.

Lemma reorder_out_of_range (sigMat : matrix) (order : list nat) (i : nat) :
  i ∈ order → (length sigMat ≤ i)%nat → reorder sigMat order = None.
Proof.
  intros Hi Hlen. unfold reorder.
  destruct (mapM _ sigMat) as [temp|] eqn:Htemp; [|done]. simpl.
  apply length_mapM in Htemp.
  apply (take_idx_out_of_range temp order i Hi). lia.
Qed.

(** X20. An [assetsOrder] that names a position at or beyond the number of
    assets makes both optimizers raise, at the indexing of [sigMat]; the
    empty list is taken as no order at all. *)
Theorem assetsOrder_edges (meanVec : vec) (sigMat : matrix)
    (retTarget longShort maxAlloc lambda_l1 lambda_l2 : Qc)
    (order : list nat) (i : nat) :
  (i ∈ order → (length sigMat ≤ i)%nat →
   minimumVariancePortfolio eig np_sqrt solve sigMat longShort maxAlloc
     lambda_l1 lambda_l2 (Some order) = None
   ∧ meanVariancePortfolioReturnsTarget eig np_sqrt solve root250 meanVec
       sigMat retTarget longShort maxAlloc lambda_l1 lambda_l2 (Some order)
     = None)
  ∧ minimumVariancePortfolio eig np_sqrt solve sigMat longShort maxAlloc
      lambda_l1 lambda_l2 (Some [])
    = minimumVariancePortfolio eig np_sqrt solve sigMat longShort maxAlloc
        lambda_l1 lambda_l2 None
  ∧ meanVariancePortfolioReturnsTarget eig np_sqrt solve root250 meanVec
      sigMat retTarget longShort maxAlloc lambda_l1 lambda_l2 (Some [])
    = meanVariancePortfolioReturnsTarget eig np_sqrt solve root250 meanVec
        sigMat retTarget longShort maxAlloc lambda_l1 lambda_l2 None.
Proof.
  split; [|done]. intros Hi Hlen.
  pose proof (reorder_out_of_range sigMat order i Hi Hlen) as Hre.
  assert (order_given (Some order) = Some order) as Hgiven.
  { destruct order; [by apply elem_of_nil in Hi|done]. }
  split.
  - unfold minimumVariancePortfolio. by rewrite Hgiven, Hre.
  - unfold meanVariancePortfolioReturnsTarget.
    destruct (min_of meanVec); [|done]. destruct (max_of meanVec); [|done].
    cbn [mbind option_bind]. by rewrite Hgiven, Hre.
Qed.

End AssetsOrderFacts.

Lemma assetsOrder_edges_witness :
  minimumVariancePortfolio eig_diagonal id solve_uniform sample_I2 0 1 0 0
    (Some [0; 2]%nat) = None
  ∧ meanVariancePortfolioReturnsTarget eig_diagonal id solve_uniform
      root250_at_1_and_2pow250 [1; 1 + 2] sample_I2 0 0 1 0 0
      (Some [0; 2]%nat) = None.
Proof.
  apply (assetsOrder_edges eig_diagonal id solve_uniform
           root250_at_1_and_2pow250 [1; 1 + 2] sample_I2 0 0 1 0 0
           [0; 2]%nat 2).
  - apply list_elem_of_further, list_elem_of_here.
  - simpl. lia.
Defined.

(** ** The weights returned for a long-short problem *)

Section LongShortWeights.

Import Np.

Lemma np_abs_nonneg (x : Qc) : 0 ≤ np_abs x.
Proof.
  unfold np_abs. case_decide as Hx.
  - apply Qclt_le_weak in Hx. apply Qcopp_le_compat in Hx.
    by replace (- 0) with (Q2Qc 0) in Hx by ring.
  - by apply Qcnot_lt_le.
Qed.

Lemma py_min_nonneg (a b : Qc) : 0 ≤ a → 0 ≤ b → 0 ≤ py_min a b.
Proof. intros Ha Hb. unfold py_min. by case_decide. Qed.

Lemma cap_nonneg (d : nat) (maxAlloc : Qc) :
  (0 < d)%nat → 1 ≤ of_nat d * maxAlloc → 0 ≤ maxAlloc.
Proof.
  intros Hd Hcap. pose proof (of_nat_pos d Hd) as Hpos.
  apply Qcnot_lt_le. intros Hneg.
  assert (of_nat d * maxAlloc < 0) as Hlt.
  { rewrite Qcmult_comm.
    replace (Q2Qc 0) with (0 * of_nat d) by ring.
    by apply Qcmult_lt_compat_r. }
  apply (Qclt_not_le _ _ Hlt). eapply Qcle_trans; [|exact Hcap]. compute_done.
Qed.

Lemma minvar_long_short_plain (d : nat) (sigMat : matrix)
    (e_min longShort maxAlloc lambda_l1 : Qc) (qp : QP) x
    (Grenze := py_min (np_abs longShort) maxAlloc) :
  minvar_long_short d sigMat e_min longShort maxAlloc lambda_l1 false
  = Some qp →
  feasible qp x →
  length x = (3 * d)%nat
  ∧ sum (take d x) = 1
  ∧ Forall (λ wi, - Grenze ≤ wi ∧ wi ≤ maxAlloc) (take d x)
  ∧ 1 ≤ of_nat d * maxAlloc.
Proof.
  intros Hqp [Hlen Hrows]. unfold minvar_long_short in Hqp.
  simpl in Hqp. injection Hqp as <-. simpl in Hlen, Hrows.
  assert (length x = (3 * d)%nat) as Hx.
  { rewrite Hlen. unfold neg, long_short_meanvec3d.
    case_decide; unfold scale, ones, zeros;
      rewrite length_fmap, length_app, ?length_fmap, !length_replicate; lia. }
  split; [done|].
  set (w := take d x). set (u := take d (drop d x)).
  set (v := drop d (drop d x)).
  assert (x = w ++ u ++ v) as Hsplit.
  { unfold w, u, v. by rewrite !take_drop. }
  assert (length w = d) as Hw by (unfold w; rewrite length_take; lia).
  assert (length u = d) as Hu
    by (unfold u; rewrite length_take, length_drop; lia).
  assert (length v = d) as Hv by (unfold v; rewrite !length_drop; lia).
  rewrite Hsplit in Hrows.
  destruct (long_short_core d longShort maxAlloc
              [zeros d ++ ones d ++ zeros d] [Fin 0]
              [Fin (1 + np_abs longShort)] w u v Hw Hu Hv)
    as (_ & Hsum & _ & Hbox & _ & _ & _ & _ & Hcap); try done.
Qed.

End LongShortWeights.

Section LongShortResults.

Import Np.

Variable eig : matrix → vec * matrix.
Variable np_sqrt : Qc → Qc.
Variable solve : QP → vec.

(** X21. Long-short and without [assetsOrder], with a solver whose answer
    meets the constraints of the problem it is given,
    [minimumVariancePortfolio] returns one weight per asset, the weights
    sum to 1 and each lies between [-min(|longShort|, maxAlloc)] and
    [maxAlloc]: for the block [w] of the answer, and for the equal weights
    returned when an entry of the answer, of [u] and [v] too, is zero. *)
Theorem minimumVariancePortfolio_long_short_weights (sigMat : matrix)
    (longShort maxAlloc lambda_l1 lambda_l2 : Qc) (w : vec) (var : Qc) :
  longShort ≠ 0 →
  (∀ S e_min qp,
     minvar_long_short (length sigMat) S e_min longShort maxAlloc lambda_l1
       false = Some qp →
     feasible qp (solve qp)) →
  minimumVariancePortfolio eig np_sqrt solve sigMat longShort maxAlloc
    lambda_l1 lambda_l2 None = Some (w, var) →
  length w = length sigMat
  ∧ sum w = 1
  ∧ Forall (λ wi, - py_min (np_abs longShort) maxAlloc ≤ wi ∧ wi ≤ maxAlloc) w.
Proof.
  intros Hls Hsolve Hrun.
  apply minimumVariancePortfolio_problem in Hrun
    as (sigMat' & e_min & qp & Hqp & Hfin).
  rewrite decide_False in Hqp by done. simpl in Hqp, Hfin.
  pose proof (Hsolve sigMat' e_min qp Hqp) as Hfeas.
  destruct (minvar_long_short_plain _ _ _ _ _ _ _ _ Hqp Hfeas)
    as (Hlen & Hsum & Hbox & Hcap).
  set (d := length sigMat) in *.
  assert (0 < d)%nat as Hd.
  { destruct d; [|lia]. by rewrite take_0 in Hsum. }
  unfold finish in Hfin. simpl in Hfin. injection Hfin as <- _.
  unfold weights_of_solution. rewrite decide_False by done.
  destruct (all (solve qp)); simpl.
  - split; [rewrite length_take; lia|done].
  - split; [apply length_equal_weights|].
    split; [by apply sum_equal_weights|].
    eapply Forall_impl; [by apply (equal_weights_in_box d maxAlloc)|].
    intros wi [H0 H1]. split; [|done].
    eapply Qcle_trans; [|exact H0].
    pose proof (py_min_nonneg (np_abs longShort) maxAlloc
                  (np_abs_nonneg longShort) (cap_nonneg d maxAlloc Hd Hcap))
      as Hg.
    apply Qcopp_le_compat in Hg.
    by replace (- 0) with (Q2Qc 0) in Hg by ring.
Qed.

End LongShortResults.

Lemma minimumVariancePortfolio_long_short_weights_witness :
  ∃ w var,
    minimumVariancePortfolio eig_diagonal id
      (solve_const [Q2Qc (3 # 4); Q2Qc (1 # 4); 1; 1 / 2;
                    Q2Qc (1 # 4); Q2Qc (1 # 4)])
      sample_I2 (1 / 2) 1 0 0 None = Some (w, var)
    ∧ w = [Q2Qc (3 # 4); Q2Qc (1 # 4)] ∧ sum w = 1.
Proof.
  eexists _, _. split; [vm_compute; reflexivity|].
  split; [by apply f_equal2; [apply Qc_is_canon|apply f_equal2; [apply Qc_is_canon|]]|].
  eapply (minimumVariancePortfolio_long_short_weights eig_diagonal id
            (solve_const [Q2Qc (3 # 4); Q2Qc (1 # 4); 1; 1 / 2;
                          Q2Qc (1 # 4); Q2Qc (1 # 4)])
            sample_I2 (1 / 2) 1 0 0).
  - compute_done.
  - intros S e_min qp [= <-]. split; [reflexivity|].
    intros i row lo up Hrow Hlo Hup.
    do 10 (destruct i as [|i]; [simplify_eq/=; split; compute_done|]).
    simpl in Hrow. done.
  - vm_compute. reflexivity.
Defined.
